(** * Wayfinding analysis engine: a shallow embedding and its properties

    The development follows the four modules of [src/wayfinding]:
    - [WES]         : [wes_calculator.py], the composite scorer;
    - [SpaceSyntax] : [space_syntax.py], Hillier's integration and the ranking
                      of critical nodes;
    - [VGA]         : [vga_isovists.py], isovists and the visibility graph;
    - [AgentSim]    : [agent_simulation.py], the stochastic pedestrian model.

    Numbers.  Python floats are modelled by exact rationals ([Q]); where the
    source calls [np.sqrt] or [np.log] the value lives in [R].  Statements are
    therefore about the arithmetic the code writes down, not about binary64
    rounding.  Sample points are integer pixel positions (the grid generator
    produces [(float(x), float(y))] for integers [x], [y]) and are modelled
    by pairs of [Z]. *)

From Stdlib Require Import ZArith QArith Qabs Qround Reals Psatz.
From Stdlib Require Import List String Bool Sorted.
From stdpp Require Import base gmap strings list.
Import ListNotations.

#[global] Set Warnings "-register-all".

(** ** Shared helpers *)

(** Strict comparison on rationals as a boolean ([x < y] in the source). *)
Definition Qlt_bool (x y : Q) : bool := negb (Qle_bool y x).

(** Python's two-argument [max] and [min]: the first argument is returned
    unless the second is strictly larger (smaller). *)
Definition py_max (a b : Q) : Q := if Qlt_bool a b then b else a.
Definition py_min (a b : Q) : Q := if Qlt_bool b a then b else a.

(** The sum of a list of rationals ([sum], the numerator of [np.mean]). *)
Definition Qsum (l : list Q) : Q := fold_right Qplus 0%Q l.

(** [list.sort(key=..., reverse=True)] and [sorted(..., reverse=True)]: a
    stable sort in descending order of the key (equal keys keep their
    original order). *)
Fixpoint insert_desc {A : Type} (key : A -> Q) (x : A) (l : list A) : list A :=
  match l with
  | [] => [x]
  | y :: l' =>
      if Qle_bool (key y) (key x) then x :: y :: l'
      else y :: insert_desc key x l'
  end.

Definition sort_desc {A : Type} (key : A -> Q) (l : list A) : list A :=
  fold_right (insert_desc key) [] l.

(** ** Python values and exceptions *)

Module Py.

Inductive PyExc : Type :=
  | TypeError | KeyError | IndexError | ValueError | ZeroDivisionError
  | NodeNotFound | NetworkXNoPath.

(** The outcome of a call: a value, or a raised exception. *)
Inductive result (A : Type) : Type :=
  | Ok (a : A)
  | Raise (e : PyExc).
Arguments Ok {A} a.
Arguments Raise {A} e.

#[export] Instance result_ret : MRet result := fun A a => Ok a.
#[export] Instance result_bind : MBind result := fun A B f r =>
  match r with
  | Ok a => f a
  | Raise e => Raise e
  end.

(** Dynamically typed values, as far as the ranking code needs them.
    Dictionaries keep their insertion order and have string keys. *)
Inductive PyVal : Type :=
  | PyNum (q : Q)
  | PyStr (s : string)
  | PyTuple (l : list PyVal)
  | PyList (l : list PyVal)
  | PyDict (d : list (string * PyVal)).

(** [d.get(k)] on an insertion-ordered dictionary. *)
Fixpoint dict_get {V : Type} (d : list (string * V)) (k : string) : option V :=
  match d with
  | [] => None
  | (k', v) :: d' => if String.eqb k' k then Some v else dict_get d' k
  end.

(** [l[n]] for an integer [n]; a negative index counts from the end. *)
Definition seq_index {A : Type} (l : list A) (n : Z) : result A :=
  let i := if (0 <=? n)%Z then n else (Z.of_nat (length l) + n)%Z in
  if (i <? 0)%Z then Raise IndexError
  else match nth_error l (Z.to_nat i) with
       | Some v => Ok v
       | None => Raise IndexError
       end.

(** [x[i]]: a tuple or a list takes an integer index and raises [TypeError]
    on any other index ("tuple indices must be integers or slices, not
    str"); a dictionary takes a string key. *)
Definition py_getitem (x i : PyVal) : result PyVal :=
  match x, i with
  | PyTuple l, PyNum (n # 1) | PyList l, PyNum (n # 1) => seq_index l n
  | PyDict d, PyStr k =>
      match dict_get d k with
      | Some v => Ok v
      | None => Raise KeyError
      end
  | _, _ => Raise TypeError
  end.

(** [d.items()] *)
Definition py_items (x : PyVal) : result (list PyVal) :=
  match x with
  | PyDict d => Ok (map (fun kv => PyTuple [PyStr (fst kv); snd kv]) d)
  | _ => Raise TypeError
  end.

Definition as_num (x : PyVal) : option Q :=
  match x with
  | PyNum q => Some q
  | _ => None
  end.

(** [sorted(l, key=key, reverse=True)].  The key is evaluated on every
    element first, so an exception of the key function is the exception of
    the call; the keys are then compared.  Only numbers are ordered here
    (the code sorts on nothing else): with other keys a list of two or more
    elements raises [TypeError], a shorter one needs no comparison. *)
Definition py_sorted_reverse (key : PyVal -> result PyVal) (l : list PyVal)
  : result (list PyVal) :=
  keys ← mapM key l;
  match mapM as_num keys with
  | Some nums => Ok (map snd (sort_desc fst (combine nums l)))
  | None => if (length l <? 2)%nat then Ok l else Raise TypeError
  end.

(** [l[:n]] for an integer [n], negative values counting from the end. *)
Definition slice_to {A : Type} (n : Z) (l : list A) : list A :=
  if (0 <=? n)%Z then firstn (Z.to_nat n) l
  else firstn (length l - Z.to_nat (- n)) l.

End Py.

(** ** The WES composite scorer ([wes_calculator.py]) *)

Module WES.
Local Open Scope Q_scope.

(** [WESWeights]: the seven configurable weights, with the defaults of the
    dataclass. *)
Record WESWeights : Type := mkWESWeights {
  time : Q;
  detour : Q;
  errors : Q;
  hesitations : Q;
  visual_integration : Q;
  signage : Q;
  accessibility : Q
}.

Definition default_weights : WESWeights :=
  mkWESWeights 15 10 20 10 20 15 10.

Definition total (w : WESWeights) : Q :=
  time w + detour w + errors w + hesitations w +
  visual_integration w + signage w + accessibility w.

(** [WESWeights.validate]: [abs(total - 100.0) < 0.01]. *)
Definition validate (w : WESWeights) : bool :=
  Qlt_bool (Qabs (total w - 100)) (1 # 100).

(** [_normalize_weights].  Every field is divided by [total]; Python raises
    [ZeroDivisionError] when [total] is zero, which is the [None] here. *)
Definition _normalize_weights (w : WESWeights) : option WESWeights :=
  let t := total w in
  if Qeq_bool t 0 then None
  else Some {| time := (time w / t) * 100;
               detour := (detour w / t) * 100;
               errors := (errors w / t) * 100;
               hesitations := (hesitations w / t) * 100;
               visual_integration := (visual_integration w / t) * 100;
               signage := (signage w / t) * 100;
               accessibility := (accessibility w / t) * 100 |}.

(** [WESCalculator.__init__], reduced to the stored weights: they are
    renormalised only when [validate] fails.  [None] is a raised exception. *)
Definition init (w : WESWeights) : option WESWeights :=
  if validate w then Some w else _normalize_weights w.

(** The keys of the [normalized_metrics] dictionary, in the order in which
    [_normalize_metrics] inserts them. *)
Inductive Metric : Type :=
  | Time | Detour | Errors | Hesitations
  | VisualIntegration | Signage | Accessibility.

Definition all_metrics : list Metric :=
  [Time; Detour; Errors; Hesitations; VisualIntegration; Signage; Accessibility].

Definition metric_name (m : Metric) : string :=
  match m with
  | Time => "time"
  | Detour => "detour"
  | Errors => "errors"
  | Hesitations => "hesitations"
  | VisualIntegration => "visual_integration"
  | Signage => "signage"
  | Accessibility => "accessibility"
  end.

(** A dictionary with exactly the seven keys. *)
Record NormalizedMetrics : Type := mkNormalized {
  nm_time : Q;
  nm_detour : Q;
  nm_errors : Q;
  nm_hesitations : Q;
  nm_visual_integration : Q;
  nm_signage : Q;
  nm_accessibility : Q
}.

(** [normalized_metrics[k]] *)
Definition nm_get (nm : NormalizedMetrics) (k : Metric) : Q :=
  match k with
  | Time => nm_time nm
  | Detour => nm_detour nm
  | Errors => nm_errors nm
  | Hesitations => nm_hesitations nm
  | VisualIntegration => nm_visual_integration nm
  | Signage => nm_signage nm
  | Accessibility => nm_accessibility nm
  end.

(** [normalized_metrics.items()] *)
Definition items (nm : NormalizedMetrics) : list (Metric * Q) :=
  map (fun k => (k, nm_get nm k)) all_metrics.

(** [getattr(self.weights, metric)] for a key of the dictionary. *)
Definition weight_of (w : WESWeights) (k : Metric) : Q :=
  match k with
  | Time => time w
  | Detour => detour w
  | Errors => errors w
  | Hesitations => hesitations w
  | VisualIntegration => visual_integration w
  | Signage => signage w
  | Accessibility => accessibility w
  end.

(** The vector whose seven entries all equal [v]. *)
Definition all_equal (v : Q) : NormalizedMetrics :=
  mkNormalized v v v v v v v.

(** [_compute_wes_score] *)
Definition _compute_wes_score (w : WESWeights) (nm : NormalizedMetrics) : Q :=
  let time_penalty := time w * (1 - nm_time nm) in
  let detour_penalty := detour w * (1 - nm_detour nm) in
  let error_penalty := errors w * (1 - nm_errors nm) in
  let hesitation_penalty := hesitations w * (1 - nm_hesitations nm) in
  let vi_bonus := visual_integration w * nm_visual_integration nm in
  let signage_bonus := signage w * nm_signage nm in
  let accessibility_bonus := accessibility w * nm_accessibility nm in
  let wes :=
    100 - (time_penalty + detour_penalty + error_penalty + hesitation_penalty) in
  let wes := wes + (vi_bonus + signage_bonus + accessibility_bonus) in
  py_max 0 (py_min 100 wes).

(** [_get_grade] *)
Definition _get_grade (wes_score : Q) : string :=
  if Qle_bool 90 wes_score then "A+"
  else if Qle_bool 85 wes_score then "A"
  else if Qle_bool 80 wes_score then "A-"
  else if Qle_bool 75 wes_score then "B+"
  else if Qle_bool 70 wes_score then "B"
  else if Qle_bool 65 wes_score then "B-"
  else if Qle_bool 60 wes_score then "C+"
  else if Qle_bool 55 wes_score then "C"
  else if Qle_bool 50 wes_score then "C-"
  else if Qle_bool 45 wes_score then "D"
  else "F".

(** One entry of the improvement-priorities list. *)
Record Priority : Type := mkPriority {
  metric : Metric;
  current_normalized : Q;
  improvement_potential : Q;
  impact_on_wes : Q;
  priority : string
}.

Definition priority_label (impact_score : Q) : string :=
  if Qlt_bool 5 impact_score then "HIGH"
  else if Qlt_bool 2 impact_score then "MEDIUM"
  else "LOW".

(** Body of the loop of [_identify_improvement_priorities]: [None] is the
    [continue] taken when the value is already at least 0.9. *)
Definition priority_entry (w : WESWeights) (kv : Metric * Q) : option Priority :=
  let (k, value) := kv in
  if Qle_bool (9 # 10) value then None
  else
    let current_score := value in
    let potential_improvement := 1 - current_score in
    let weight := weight_of w k in
    let impact_score := potential_improvement * weight * (9 # 10) in
    Some (mkPriority k current_score potential_improvement impact_score
                     (priority_label impact_score)).

(** [_identify_improvement_priorities] *)
Definition _identify_improvement_priorities
    (w : WESWeights) (nm : NormalizedMetrics) : list Priority :=
  sort_desc impact_on_wes (omap (priority_entry w) (items nm)).

(** *** Statements used by the properties below *)

(** Every weight is non-negative. *)
Definition weights_nonneg (w : WESWeights) : Prop :=
  forall k, 0 <= weight_of w k.

(** Two vectors agree on every dimension except possibly [d]. *)
Definition agree_except (d : Metric) (m1 m2 : NormalizedMetrics) : Prop :=
  forall k, k <> d -> nm_get m1 k == nm_get m2 k.

(** The impact the specification announces for a dimension whose current
    normalized value is [current]: [(0.9 - current) * weight]. *)
Definition announced_impact (w : WESWeights) (k : Metric) (current : Q) : Q :=
  ((9 # 10) - current) * weight_of w k.

(** What the specification announces for the constructor: it does not raise,
    the stored weights sum to 100 and each one is the original weight scaled
    by [100 / total]. *)
Definition renormalized_as_announced (w : WESWeights) : Prop :=
  exists w', init w = Some w' /\ total w' == 100 /\
    forall k, weight_of w' k == weight_of w k * (100 / total w).

(** Seven weights summing to 100.005: off 100, but inside the tolerance of
    [validate]. *)
Definition weights_within_tolerance : WESWeights :=
  mkWESWeights (15005 # 1000) 10 20 10 20 15 10.

(** The default weights doubled: they sum to 200. *)
Definition weights_doubled : WESWeights :=
  mkWESWeights 30 20 40 20 40 30 20.

(** Only the travel-time dimension is below 0.9, at 0.6. *)
Definition only_time_low : NormalizedMetrics :=
  mkNormalized (6 # 10) 1 1 1 1 1 1.

(** *** Raw metrics, benchmarks and the rest of the pipeline *)

(** [NormalizationBenchmarks], with the defaults of the dataclass. *)
Record NormalizationBenchmarks : Type := mkBenchmarks {
  max_acceptable_time : Q;
  max_acceptable_detour : Q;
  max_acceptable_errors : Q;
  max_acceptable_hesitations : Q;
  min_visual_integration : Q;
  max_visual_integration : Q;
  min_signage_score : Q;
  max_signage_score : Q;
  min_accessibility_score : Q;
  max_accessibility_score : Q
}.

Definition default_benchmarks : NormalizationBenchmarks :=
  mkBenchmarks 300 1.5 3 5 0.3 0.9 40 95 0.5 1.

(** The dictionary returned by [_extract_raw_metrics]: keys [mean_time],
    [mean_detour], [mean_errors], [mean_hesitations], [visual_integration],
    [signage_score], [accessibility]. *)
Record RawMetrics : Type := mkRaw {
  r_mean_time : Q;
  r_mean_detour : Q;
  r_mean_errors : Q;
  r_mean_hesitations : Q;
  r_visual_integration : Q;
  r_signage_score : Q;
  r_accessibility : Q
}.

(** Division of two floats.  A zero divisor gives no finite number: [inf]
    or [nan], with a warning, when the dividend is a [numpy.float64] (the
    means that [_extract_raw_metrics] takes over the scenarios), and
    [ZeroDivisionError] when both operands are Python floats (its constants
    for no scenario).  [None] stands for both: the quotient is not a finite
    number. *)
Definition qdiv (x y : Q) : option Q :=
  if Qeq_bool y 0 then None else Some (x / y).

(** A penalty normalised against its maximum:
    [0.0 if raw >= bench else 1.0 - raw / bench]. *)
Definition inverse_score (raw bench : Q) : option Q :=
  if Qle_bool bench raw then Some 0
  else q ← qdiv raw bench; Some (1 - q).

(** A bonus normalised between its minimum and maximum:
    [0.0] at or below the minimum, [1.0] at or above the maximum,
    [(raw - lo) / (hi - lo)] between. *)
Definition direct_score (raw lo hi : Q) : option Q :=
  let range := hi - lo in
  if Qle_bool raw lo then Some 0
  else if Qle_bool hi raw then Some 1
  else qdiv (raw - lo) range.

(** [_normalize_metrics].  [None]: the dictionary is not made of finite
    numbers (an entry is infinite, or the division raised; see [qdiv]). *)
Definition _normalize_metrics (b : NormalizationBenchmarks) (raw : RawMetrics)
  : option NormalizedMetrics :=
  n_time ←
    (if Qle_bool (r_mean_time raw) 0 then Some 1
     else inverse_score (r_mean_time raw) (max_acceptable_time b));
  let detour_excess := py_max 0 (r_mean_detour raw - 1) in
  let max_excess := max_acceptable_detour b - 1 in
  n_detour ← inverse_score detour_excess max_excess;
  n_errors ← inverse_score (r_mean_errors raw) (max_acceptable_errors b);
  n_hesitations ←
    inverse_score (r_mean_hesitations raw) (max_acceptable_hesitations b);
  n_vi ← direct_score (r_visual_integration raw)
                      (min_visual_integration b) (max_visual_integration b);
  n_signage ← direct_score (r_signage_score raw)
                           (min_signage_score b) (max_signage_score b);
  n_access ← direct_score (r_accessibility raw)
                          (min_accessibility_score b) (max_accessibility_score b);
  Some (mkNormalized n_time n_detour n_errors n_hesitations
                     n_vi n_signage n_access).

(** [_interpret_wes] *)
Definition _interpret_wes (wes_score : Q) : string :=
  if Qle_bool 90 wes_score then
    "ممتاز - تصميم استثنائي يتجاوز المعايير البحثية | Excellent - Exceptional design exceeding research standards"
  else if Qle_bool 75 wes_score then
    "جيد - أداء قوي مع إمكانية تحسينات طفيفة | Good - Strong performance with minor improvement opportunities"
  else if Qle_bool 60 wes_score then
    "مقبول - أداء معقول مع وجود مشاكل ملحوظة | Acceptable - Reasonable performance with notable issues"
  else if Qle_bool 45 wes_score then
    "ضعيف - مشاكل كبيرة تتطلب إعادة تصميم | Poor - Significant problems requiring redesign"
  else
    "حرج - قصور جوهري يتطلب إصلاح شامل | Critical - Fundamental deficiencies requiring comprehensive overhaul".

(** [_calculate_component_contributions]: the dictionary, in insertion order
    ([time_impact], ..., [accessibility_impact]). *)
Definition _calculate_component_contributions
    (w : WESWeights) (nm : NormalizedMetrics) : list (Metric * Q) :=
  [(Time, - time w * (1 - nm_time nm));
   (Detour, - detour w * (1 - nm_detour nm));
   (Errors, - errors w * (1 - nm_errors nm));
   (Hesitations, - hesitations w * (1 - nm_hesitations nm));
   (VisualIntegration, visual_integration w * nm_visual_integration nm);
   (Signage, signage w * nm_signage nm);
   (Accessibility, accessibility w * nm_accessibility nm)].

(** One entry of [_compare_to_benchmarks].  The four penalty entries carry
    [benchmark] and [percentage_of_benchmark], the three bonus entries
    [min_benchmark] and [max_benchmark]. *)
Record Comparison : Type := mkComparison {
  c_value : Q;
  c_benchmark : Q;
  c_max_benchmark : option Q;
  meets_standard : bool;
  percentage_of_benchmark : option Q
}.

Record ComparisonSummary : Type := mkSummary {
  total_benchmarks : nat;
  met_benchmarks : nat;
  compliance_percentage : Q
}.

Definition penalty_comparison (raw bench : Q) : option Comparison :=
  q ← qdiv raw bench;
  Some (mkComparison raw bench None (Qle_bool raw bench) (Some (q * 100))).

Definition bonus_comparison (raw lo hi : Q) : Comparison :=
  mkComparison raw lo (Some hi) (Qle_bool lo raw) None.

(** [_compare_to_benchmarks]: the seven entries and the summary.  [None]: a
    percentage is not a finite number ([inf] or [nan] for a mean over
    scenarios, [ZeroDivisionError] for the constants of no scenario). *)
Definition _compare_to_benchmarks (b : NormalizationBenchmarks) (raw : RawMetrics)
  : option (list (Metric * Comparison) * ComparisonSummary) :=
  c_time ← penalty_comparison (r_mean_time raw) (max_acceptable_time b);
  c_detour ← penalty_comparison (r_mean_detour raw) (max_acceptable_detour b);
  c_errors ← penalty_comparison (r_mean_errors raw) (max_acceptable_errors b);
  c_hes ← penalty_comparison (r_mean_hesitations raw)
                             (max_acceptable_hesitations b);
  let comparison :=
    [(Time, c_time); (Detour, c_detour); (Errors, c_errors);
     (Hesitations, c_hes);
     (VisualIntegration,
      bonus_comparison (r_visual_integration raw)
                       (min_visual_integration b) (max_visual_integration b));
     (Signage,
      bonus_comparison (r_signage_score raw)
                       (min_signage_score b) (max_signage_score b));
     (Accessibility,
      bonus_comparison (r_accessibility raw)
                       (min_accessibility_score b) (max_accessibility_score b))] in
  let total := length comparison in
  let met := length (filter (fun kc => meets_standard (snd kc) = true) comparison) in
  pct ← qdiv (inject_Z (Z.of_nat met)) (inject_Z (Z.of_nat total));
  Some (comparison, mkSummary total met (pct * 100)).

(** One scenario of [agent_simulation_results['scenarios']], as
    [_extract_raw_metrics] reads it: [detour_index] is optional. *)
Record ScenarioMetrics : Type := mkScenarioMetrics {
  s_mean_time : Q;
  s_detour_index : option Q;
  s_mean_errors : Q;
  s_mean_hesitations : Q
}.

(** [np.mean] of a non-empty list. *)
Definition np_mean (l : list Q) : Q :=
  Qsum l / inject_Z (Z.of_nat (length l)).

(** [_extract_raw_metrics], on the values it looks up: the scenarios, and the
    three optional entries [mean_visual_integration],
    [composite_signage_score] and [mean_integration]. *)
Definition _extract_raw_metrics (scenarios : list ScenarioMetrics)
    (mean_visual_integration composite_signage_score mean_integration : option Q)
  : RawMetrics :=
  let '(mean_time, mean_detour, mean_errors, mean_hesitations) :=
    match scenarios with
    | [] => (0, 1, 0, 0)
    | _ =>
        (np_mean (map s_mean_time scenarios),
         np_mean (map (fun s => default 1 (s_detour_index s)) scenarios),
         np_mean (map s_mean_errors scenarios),
         np_mean (map s_mean_hesitations scenarios))
    end in
  mkRaw mean_time mean_detour mean_errors mean_hesitations
        (default 0.5 mean_visual_integration)
        (default 50 composite_signage_score)
        (default 0.5 mean_integration).

(** The result of [calculate_wes]. *)
Record WESResult : Type := mkWESResult {
  wes_score : Q;
  interpretation : string;
  grade : string;
  normalized_metrics : NormalizedMetrics;
  raw_metrics : RawMetrics;
  component_contributions : list (Metric * Q);
  improvement_priorities : list Priority;
  benchmark_comparison : list (Metric * Comparison) * ComparisonSummary;
  weights_used : WESWeights
}.

(** [calculate_wes], from the raw metrics on.  [None]: the result is not
    made of finite numbers. *)
Definition calculate_wes (w : WESWeights) (b : NormalizationBenchmarks)
    (raw : RawMetrics) : option WESResult :=
  normalized ← _normalize_metrics b raw;
  let score := _compute_wes_score w normalized in
  let interpretation := _interpret_wes score in
  let priorities := _identify_improvement_priorities w normalized in
  comparison ← _compare_to_benchmarks b raw;
  Some (mkWESResult score interpretation (_get_grade score) normalized raw
                    (_calculate_component_contributions w normalized)
                    priorities comparison w).

(** Every normalized value lies in [0, 1]. *)
Definition in_unit_range (nm : NormalizedMetrics) : Prop :=
  forall k, 0 <= nm_get nm k <= 1.

(** [raw2] is at least as good as [raw1] in every dimension: no larger in
    the four penalties, no smaller in the three bonuses. *)
Definition no_worse (raw1 raw2 : RawMetrics) : Prop :=
  r_mean_time raw2 <= r_mean_time raw1 /\
  r_mean_detour raw2 <= r_mean_detour raw1 /\
  r_mean_errors raw2 <= r_mean_errors raw1 /\
  r_mean_hesitations raw2 <= r_mean_hesitations raw1 /\
  r_visual_integration raw1 <= r_visual_integration raw2 /\
  r_signage_score raw1 <= r_signage_score raw2 /\
  r_accessibility raw1 <= r_accessibility raw2.

(** The sample inputs of the module's own test, averaged over its two
    scenarios. *)
Definition sample_raw : RawMetrics :=
  mkRaw (21285 # 100) 1.3 2.1 2.7 0.72 68.5 0.68.

Definition better_raw : RawMetrics :=
  mkRaw 120 1.1 1 1 0.8 80 0.9.

End WES.

(** ** The Space Syntax engine ([space_syntax.py]) *)

Module SpaceSyntax.
Import Py.

(** A circulation graph: named nodes and weighted undirected edges (the
    [weight] attribute is the traversal distance, non-negative). *)
Record Graph : Type := mkGraph {
  nodes : list string;
  edges : list (string * string * Q)
}.

Definition number_of_nodes (g : Graph) : nat := length (nodes g).

(** *** Shortest-path lengths

    [nx.single_source_dijkstra_path_length(G, node, weight='weight')] and
    [nx.single_source_shortest_path_length(G, node)] are library calls; they
    return a dictionary from every node reachable from [node] (the node
    itself included, at distance 0) to its distance, counted in edge weights
    or in hops.  They are modelled by rounds of edge relaxation. *)

Definition relax (dist : gmap string Q) (u v : string) (w : Q) : gmap string Q :=
  match dist !! u with
  | None => dist
  | Some du =>
      match dist !! v with
      | Some dv => if Qlt_bool (du + w) dv then <[v := (du + w)%Q]> dist else dist
      | None => <[v := (du + w)%Q]> dist
      end
  end.

Definition relax_round (weighted : bool) (g : Graph) (dist : gmap string Q)
  : gmap string Q :=
  foldl (fun d e =>
           let '(u, v, w) := e in
           let len := if weighted then w else 1%Q in
           relax (relax d u v len) v u len)
        dist (edges g).

Definition path_lengths (weighted : bool) (g : Graph) (node : string)
  : gmap string Q :=
  Nat.iter (number_of_nodes g) (relax_round weighted g) {[ node := 0%Q ]}.

(** [list(lengths.values())] *)
Definition values (lengths : gmap string Q) : list Q :=
  (map_to_list lengths).*2.

(** *** Integration *)

Local Open Scope R_scope.

(** [_get_dk_value] *)
Definition _get_dk_value (k : nat) : R :=
  if (k <? 3)%nat then 1
  else if (k <=? 10)%nat then INR k / 3
  else if (k <=? 100)%nat then 2 * sqrt (INR k - 1)
  else 2 * ln (INR k).

(** Division of floats.  A zero divisor gives no finite number ([inf] or
    [nan] under numpy, [ZeroDivisionError] under Python): that is [None]. *)
Definition fdiv (x y : R) : option R :=
  if Req_dec_T y 0 then None else Some (x / y).

(** The per-node entry of the integration dictionary. *)
Record IntegrationEntry : Type := mkEntry {
  value : R;
  ra : R;
  rra : R;
  mean_depth : R
}.

(** Body of the loop of [_calculate_integration] for one node.  [None]
    stands for an entry that is not made of finite numbers. *)
Definition integration_of_node (weighted : bool) (g : Graph) (node : string)
  : option IntegrationEntry :=
  let k := number_of_nodes g in
  let d_k := _get_dk_value k in
  let lengths := path_lengths weighted g node in
  let depths := values lengths in
  if (1 <? length depths)%nat then
    md ← fdiv (Q2R (Qsum depths)) (INR (length depths));
    if (2 <? k)%nat then
      ra ← fdiv (2 * (md - 1)) (INR k - 2);
      rra ← (if Rlt_dec 0 d_k then fdiv ra d_k else Some ra);
      integ ← (if Rlt_dec 0 rra then fdiv 1 rra else Some 0);
      Some (mkEntry integ ra rra md)
    else
      Some (mkEntry 0 0 0 md)
  else
    Some (mkEntry 0 0 0 0).

(** [_calculate_integration]: one entry per node of the graph. *)
Definition _calculate_integration (weighted : bool) (g : Graph)
  : list (string * option IntegrationEntry) :=
  map (fun node => (node, integration_of_node weighted g node)) (nodes g).

(** *** Integration as the specification words it *)

(** Mean shortest-path length from [node] to all other nodes. *)
Definition announced_mean_depth (weighted : bool) (g : Graph) (node : string) : R :=
  let others := values (delete node (path_lengths weighted g node)) in
  Q2R (Qsum others) / INR (length others).

Definition announced_dk (k : nat) : R :=
  if (k <=? 10)%nat then INR k / 3
  else if (k <=? 100)%nat then 2 * sqrt (INR k - 1)
  else 2 * ln (INR k).

Definition announced_real_asymmetry (weighted : bool) (g : Graph) (node : string) : R :=
  2 * (announced_mean_depth weighted g node - 1) / (INR (number_of_nodes g) - 2).

(** Integration = 1 / RRA, with 0 when k <= 2 or the asymmetry is 0. *)
Definition announced_integration (weighted : bool) (g : Graph) (node : string) : R :=
  let k := number_of_nodes g in
  let ra := announced_real_asymmetry weighted g node in
  if (k <=? 2)%nat then 0
  else if Req_dec_T ra 0 then 0
  else 1 / (ra / announced_dk k).

(** The corridor a - b - c with two edges of half a metre. *)
Definition short_corridor : Graph :=
  mkGraph ["a"; "b"; "c"]%string
          [("a", "b", 1 # 2); ("b", "c", 1 # 2)]%string.

(** The two-edge route of the specification: entrance - node_1 (10 m),
    node_1 - emergency (8 m). *)
Definition entrance_route : Graph :=
  mkGraph ["entrance"; "node_1"; "emergency"]%string
          [("entrance", "node_1", 10 # 1); ("node_1", "emergency", 8 # 1)]%string.

Local Close Scope R_scope.

(** *** Critical nodes *)

(** [identify_critical_nodes(top_n)] over [self.metrics], a dictionary of
    dictionaries.  The result is the dictionary [critical], in insertion
    order. *)
Definition identify_critical_nodes
    (metrics : list (string * PyVal)) (top_n : Z)
  : result (list (string * PyVal)) :=
  let critical := [] in
  critical ←
    (match dict_get metrics "betweenness" with
     | Some betweenness =>
         its ← py_items betweenness;
         sorted_bet ← py_sorted_reverse (fun x => py_getitem x (PyNum 1)) its;
         Ok (critical ++ [("high_betweenness"%string,
                           PyList (slice_to top_n sorted_bet))])
     | None => Ok critical
     end);
  critical ←
    (match dict_get metrics "integration" with
     | Some integration =>
         its ← py_items integration;
         sorted_integ ←
           py_sorted_reverse (fun x => py_getitem x (PyStr "value")) its;
         pairs ← mapM (fun nd =>
                         match nd with
                         | PyTuple [node; data] =>
                             v ← py_getitem data (PyStr "value");
                             Ok (PyTuple [node; v])
                         | _ => Raise ValueError
                         end)
                      (slice_to top_n sorted_integ);
         Ok (critical ++ [("high_integration"%string, PyList pairs)])
     | None => Ok critical
     end);
  critical ←
    (match dict_get metrics "degree" with
     | Some degree =>
         its ← py_items degree;
         sorted_deg ← py_sorted_reverse (fun x => py_getitem x (PyNum 1)) its;
         Ok (critical ++ [("high_degree"%string,
                           PyList (slice_to top_n sorted_deg))])
     | None => Ok critical
     end);
  Ok critical.

(** A dictionary whose values are all numbers (betweenness, degree). *)
Definition numeric_values (d : list (string * PyVal)) : Prop :=
  Forall (fun kv => exists q, snd kv = PyNum q) d.

(** What [analyze] stores for [entrance_route], restricted to the three
    dictionaries that the ranking reads: betweenness 1 for the middle node,
    degrees 1, 2, 1, and the integration entries of the three nodes. *)
Definition integration_entry (v r rr md : Q) : PyVal :=
  PyDict [("value", PyNum v); ("ra", PyNum r); ("rra", PyNum rr);
          ("mean_depth", PyNum md)]%string.

Definition entrance_route_metrics : list (string * PyVal) :=
  [("degree", PyDict [("entrance", PyNum 1); ("node_1", PyNum 2);
                      ("emergency", PyNum 1)]);
   ("betweenness", PyDict [("entrance", PyNum 0); ("node_1", PyNum 1);
                           ("emergency", PyNum 0)]);
   ("integration",
    PyDict [("entrance", integration_entry (3 # 50) (50 # 3) (50 # 3) (28 # 3));
            ("node_1", integration_entry (1 # 10) 10 10 6);
            ("emergency", integration_entry (3 # 46) (46 # 3) (46 # 3) (26 # 3))])
  ]%string.

End SpaceSyntax.

(** ** The visibility field engine ([vga_isovists.py]) *)

Module VGA.
Import Py.

(** A sample point: the grid generator emits [(float(x), float(y))] for
    integer pixel positions. *)
Abbreviation Point := (Z * Z)%type.

(** A shapely [LineString]: its sequence of coordinates. *)
Definition LineString : Type := list (Q * Q).

(** [LineString([p1, p2])] *)
Definition segment (p1 p2 : Point) : LineString :=
  [(inject_Z (fst p1), inject_Z (snd p1)); (inject_Z (fst p2), inject_Z (snd p2))].

(** [_analyze_isovist]'s result. *)
Record IsovistProps : Type := mkProps {
  p_area : Q;
  p_perimeter : Q;
  p_max_radial : Q;
  p_mean_radial : Q;
  p_compactness : Q
}.

(** The geometric library below the engine: shapely's [intersects]
    predicate, its polygons, and the two routines that cast rays and measure
    the polygon with it (trigonometry, areas, centroids).  Either routine may
    raise. *)
Class Geometry : Type := {
  intersects : LineString -> LineString -> bool;
  Polygon : Type;
  _compute_isovist_polygon :
    list LineString -> Point -> nat -> Q -> result Polygon;
  _analyze_isovist : Polygon -> result IsovistProps
}.

(** One entry of the [isovists] dictionary.  The fallback entry written
    when a routine raises has no polygon and no compactness. *)
Record IsovistEntry `{Geometry} : Type := mkIsovist {
  polygon : option Polygon;
  area : Q;
  perimeter : Q;
  max_radial : Q;
  mean_radial : Q;
  compactness : option Q
}.
Arguments mkIsovist {_} polygon area perimeter max_radial mean_radial compactness.

(** The visibility graph, as networkx stores it: every node is a key of the
    adjacency dictionary, mapped to the dictionary of its neighbours; the
    attribute of an edge is kept under both endpoints. *)
Abbreviation VGraph := (gmap Point (gmap Point Z)).

Definition add_node (p : Point) (vg : VGraph) : VGraph :=
  match vg !! p with
  | Some _ => vg
  | None => <[p := ∅]> vg
  end.

Definition add_edge (u v : Point) (weight : Z) (vg : VGraph) : VGraph :=
  let vg := add_node v (add_node u vg) in
  let vg := <[u := <[v := weight]> (default ∅ (vg !! u))]> vg in
  <[v := <[u := weight]> (default ∅ (vg !! v))]> vg.

(** [vg.has_edge(p, q)] *)
Definition has_edge (vg : VGraph) (p q : Point) : bool :=
  match vg !! p with
  | Some nbrs => bool_decide (is_Some (nbrs !! q))
  | None => false
  end.

(** [len(list(vg.neighbors(node)))] *)
Definition count_neighbors (vg : VGraph) (node : Point) : nat :=
  size (default ∅ (vg !! node)).

(** [(p1[0]-p2[0])**2 + (p1[1]-p2[1])**2], an integer on pixel positions. *)
Definition dist_sq (p1 p2 : Point) : Z :=
  ((fst p1 - fst p2) ^ 2 + (snd p1 - snd p2) ^ 2)%Z.

(** The Euclidean distance [np.sqrt(...)]. *)
Definition dist (p1 p2 : Point) : R := sqrt (IZR (dist_sq p1 p2)).

Definition threshold_distance : Z := 50.

(** [dist < threshold_distance], decided on the squares (both sides are
    non-negative); [within_threshold_dist] below relates it to [dist]. *)
Definition within_threshold (p1 p2 : Point) : bool :=
  (dist_sq p1 p2 <? threshold_distance * threshold_distance)%Z.

Section Engine.
Context `{Geometry}.

(** [self.obstacles] *)
Variable obstacles : list LineString.

(** [_has_line_of_sight]: false at the first obstacle that the segment
    intersects. *)
Definition _has_line_of_sight (p1 p2 : Point) : bool :=
  forallb (fun obstacle => negb (intersects (segment p1 p2) obstacle)) obstacles.

(** The two tests that guard [add_edge]. *)
Definition checked (p1 p2 : Point) : Prop :=
  within_threshold p1 p2 = true /\ _has_line_of_sight p1 p2 = true.

(** The inner loop of [_build_visibility_graph] for one [p1]. *)
Definition connect_from (p1 : Point) (others : list Point) (vg : VGraph) : VGraph :=
  foldl (fun vg p2 =>
           if within_threshold p1 p2 then
             if _has_line_of_sight p1 p2
             then add_edge p1 p2 (dist_sq p1 p2) vg
             else vg
           else vg)
        vg others.

(** The outer loop: [p1] runs over [points[:500]] and [p2] over the points
    after it, [points[i+1:500]]. *)
Fixpoint connect_all (pts : list Point) (vg : VGraph) : VGraph :=
  match pts with
  | [] => vg
  | p1 :: rest => connect_all rest (connect_from p1 rest vg)
  end.

(** [_build_visibility_graph].  The edge attribute [weight] is the distance;
    the model keeps its square. *)
Definition _build_visibility_graph (points : list Point) : VGraph :=
  let vg := foldl (fun vg point => add_node point vg) ∅ points in
  connect_all (take 500 points) vg.

Definition n_rays : nat := 72.
Definition max_distance : Q := 1000.

Definition failed_isovist : IsovistEntry :=
  mkIsovist None 0 0 0 0 None.

(** The body of the loop of [_calculate_isovists]: the try block, and the
    entry of the except block. *)
Definition isovist_entry (point : Point) : IsovistEntry :=
  match (isovist_polygon ← _compute_isovist_polygon obstacles point n_rays max_distance;
         properties ← _analyze_isovist isovist_polygon;
         Ok (isovist_polygon, properties)) with
  | Ok (isovist_polygon, properties) =>
      mkIsovist (Some isovist_polygon) (p_area properties)
                (p_perimeter properties) (p_max_radial properties)
                (p_mean_radial properties) (Some (p_compactness properties))
  | Raise _ => failed_isovist
  end.

(** [_calculate_isovists]: the loop runs over [sample_points[:1000]]. *)
Definition _calculate_isovists (sample_points : list Point)
  : gmap Point IsovistEntry :=
  foldl (fun isovists point => <[point := isovist_entry point]> isovists)
        ∅ (take 1000 sample_points).

(** One entry of the metrics dictionary. *)
Record VGAMetrics : Type := mkMetrics {
  visual_integration : Q;
  visible_neighbors : nat;
  isovist_area : Q;
  isovist_perimeter : Q;
  m_max_radial : Q;
  m_mean_radial : Q
}.

(** The body of the loop of [_calculate_vga_metrics].
    [isovists.get(node, {})] followed by [.get(key, 0)] is the entry's field
    when the node has an entry and 0 otherwise; on numbers nothing in the
    try block raises. *)
Definition vga_metrics_entry (vg : VGraph) (isovists : gmap Point IsovistEntry)
    (node : Point) : VGAMetrics :=
  let n := count_neighbors vg node in
  let isovist_data := isovists !! node in
  let isovist_area := from_option area 0%Q isovist_data in
  let vi := (0.5 * inject_Z (Z.of_nat n) + 0.5 * (isovist_area / 10000))%Q in
  mkMetrics vi n isovist_area
            (from_option perimeter 0%Q isovist_data)
            (from_option max_radial 0%Q isovist_data)
            (from_option mean_radial 0%Q isovist_data).

(** [_calculate_vga_metrics]: one entry per node of the graph. *)
Definition _calculate_vga_metrics (vg : VGraph) (isovists : gmap Point IsovistEntry)
  : gmap Point VGAMetrics :=
  map_imap (fun node _ => Some (vga_metrics_entry vg isovists node)) vg.

End Engine.

(** *** A concrete geometry, for running the definitions *)

Definition cross (a b c : Q * Q) : Q :=
  ((fst b - fst a) * (snd c - snd a) - (snd b - snd a) * (fst c - fst a))%Q.

Definition between (a b x : Q) : bool :=
  (Qle_bool a x && Qle_bool x b) || (Qle_bool b x && Qle_bool x a).

(** [c] lies on the closed segment [a b], given that it is collinear. *)
Definition on_segment (a b c : Q * Q) : bool :=
  between (fst a) (fst b) (fst c) && between (snd a) (snd b) (snd c).

Definition Qsign (x : Q) : Z := Z.sgn (Qnum x).

(** Two closed segments share a point. *)
Definition segments_intersect (a b c d : Q * Q) : bool :=
  let d1 := Qsign (cross c d a) in
  let d2 := Qsign (cross c d b) in
  let d3 := Qsign (cross a b c) in
  let d4 := Qsign (cross a b d) in
  ((d1 * d2 <? 0)%Z && (d3 * d4 <? 0)%Z)
  || ((d1 =? 0)%Z && on_segment c d a)
  || ((d2 =? 0)%Z && on_segment c d b)
  || ((d3 =? 0)%Z && on_segment a b c)
  || ((d4 =? 0)%Z && on_segment a b d).

Definition two_point_intersects (l1 l2 : LineString) : bool :=
  match l1, l2 with
  | [a; b], [c; d] => segments_intersect a b c d
  | _, _ => false
  end.

(** With no obstacle in reach every ray ends at [max_distance]; four rays
    give the square with that half-diagonal. *)
Definition open_field_polygon (origin : Point) (r : Q) : list (Q * Q) :=
  let x := inject_Z (fst origin) in
  let y := inject_Z (snd origin) in
  [(x + r, y); (x, y + r); (x - r, y); (x, y - r)]%Q.

Definition shoelace_area (poly : list (Q * Q)) : Q :=
  match poly with
  | [a; b; c; d] =>
      Qabs (cross a b c + cross a c d) / 2
  | _ => 0
  end.

#[export] Instance open_field : Geometry := {|
  intersects := two_point_intersects;
  Polygon := list (Q * Q);
  _compute_isovist_polygon := fun obstacles origin _ r =>
    match obstacles with
    | [] => Ok (open_field_polygon origin r)
    | _ => Raise ValueError
    end;
  _analyze_isovist := fun poly =>
    Ok (mkProps (shoelace_area poly) 0 0 0 0)
|}.

(** A row of 1001 sample points at unit spacing. *)
Definition long_row : list Point :=
  map (fun i => (Z.of_nat i, 0%Z)) (seq 0 1001).

(** Three points in a row and a wall crossing between the last two. *)
Definition three_points : list Point := [(0, 0); (10, 0); (20, 0)]%Z.
Definition one_wall : list LineString := [[(15, -5); (15, 5)]%Q].

(** *** Sampling the floor plan *)

(** A floor-plan image after conversion to grey levels: [shape[:2]] and the
    pixel [gray[y, x]]. *)
Record Image : Type := mkImage {
  height : Z;
  width : Z;
  gray : Z -> Z -> Z
}.

(** [_is_free_space] *)
Definition _is_free_space (x y : Z) (image : Image) : bool :=
  if ((x <? 0) || (width image <=? x) || (y <? 0) || (height image <=? y))%Z
  then false
  else (128 <? gray image y x)%Z.

(** [int(q)]: truncation towards zero. *)
Definition py_int (q : Q) : Z := Z.quot (Qnum q) (Z.pos (Qden q)).

(** [range(0, stop, step)] for a positive step. *)
Definition range_step (stop step : Z) : list Z :=
  map (fun i => (Z.of_nat i * step)%Z)
      (seq 0 (Z.to_nat ((stop + step - 1) / step))).

(** The step of the lattice in pixels, at least 1. *)
Definition grid_step_px (grid_size scale : Q) : Z :=
  let step := py_int (grid_size * scale) in
  if (step <? 1)%Z then 1%Z else step.

(** The two nested loops of [_generate_sample_grid]: the free lattice
    points, row by row. *)
Definition lattice_points (grid_size : Q) (image : Image) (scale : Q)
  : list Point :=
  let step := grid_step_px grid_size scale in
  flat_map (fun y =>
              omap (fun x => if _is_free_space x y image
                             then Some (x, y) else None)
                   (range_step (width image) step))
           (range_step (height image) step).

(** [np.random.choice(n, k, replace=False)]: [k] indices drawn from
    [range(n)] by the process-global generator, whose state the draw reads
    and advances. *)
Class Subsampler : Type := {
  sampler_state : Type;
  choice_without_replacement :
    nat -> nat -> sampler_state -> list nat * sampler_state
}.

(** [_generate_sample_grid].  More than 5000 points are cut down to the
    points [points[i]] at 5000 drawn indices; an index out of range raises
    [IndexError]. *)
Definition _generate_sample_grid `{Subsampler} (grid_size : Q) (image : Image)
    (scale : Q) (s : sampler_state) : result (list Point) * sampler_state :=
  let points := lattice_points grid_size image scale in
  if (5000 <? length points)%nat then
    let (indices, s') := choice_without_replacement (length points) 5000 s in
    (mapM (fun i => match points !! i with
                    | Some p => Ok p
                    | None => Raise IndexError
                    end) indices, s')
  else (Ok points, s).

(** Two samplers deliver the same indices: from related states they draw
    the same list and leave related states. *)
Definition same_choices (S1 S2 : Subsampler)
    (ssim : @sampler_state S1 -> @sampler_state S2 -> Prop) : Prop :=
  forall n k s1 s2, ssim s1 s2 ->
    fst (@choice_without_replacement S1 n k s1)
    = fst (@choice_without_replacement S2 n k s2) /\
    ssim (snd (@choice_without_replacement S1 n k s1))
         (snd (@choice_without_replacement S2 n k s2)).

(** *** Critical points and summary *)

(** [sorted(l, key=key)]: a stable sort in ascending order of the key. *)
Fixpoint insert_asc {A : Type} (key : A -> Q) (x : A) (l : list A) : list A :=
  match l with
  | [] => [x]
  | y :: l' =>
      if Qle_bool (key x) (key y) then x :: y :: l'
      else y :: insert_asc key x l'
  end.

Definition sort_asc {A : Type} (key : A -> Q) (l : list A) : list A :=
  fold_right (insert_asc key) [] l.

(** The three lists returned by [_identify_critical_visibility_points]:
    pairs of a point and the value it was ranked on. *)
Record CriticalPoints : Type := mkCritical {
  high_visual_integration : list (Point * Q);
  blind_spots : list (Point * Q);
  wide_view_points : list (Point * Q)
}.

Section Reports.
Context `{Geometry}.

(** [_identify_critical_visibility_points], on the items of the metrics
    dictionary in their insertion order. *)
Definition _identify_critical_visibility_points
    (vga_metrics : list (Point * VGAMetrics)) : CriticalPoints :=
  let high_integration :=
    take 20 (sort_desc (fun x => visual_integration (snd x)) vga_metrics) in
  let low_integration :=
    take 20 (sort_asc (fun x => visual_integration (snd x)) vga_metrics) in
  let large_isovist :=
    take 20 (sort_desc (fun x => isovist_area (snd x)) vga_metrics) in
  mkCritical
    (map (fun x => (fst x, visual_integration (snd x))) high_integration)
    (map (fun x => (fst x, visual_integration (snd x))) low_integration)
    (map (fun x => (fst x, isovist_area (snd x))) large_isovist).

End Reports.

(** [np.min] and [np.max] of a non-empty list. *)
Definition np_min (l : list Q) : Q :=
  match l with
  | [] => 0
  | x :: l' => fold_left (fun m y => if Qlt_bool y m then y else m) l' x
  end.

Definition np_max (l : list Q) : Q :=
  match l with
  | [] => 0
  | x :: l' => fold_left (fun m y => if Qlt_bool m y then y else m) l' x
  end.

(** [np.std]: the square root of the mean squared deviation. *)
Definition np_std (l : list Q) : R :=
  sqrt (Q2R (WES.np_mean (map (fun x => (x - WES.np_mean l) * (x - WES.np_mean l))%Q l))).

(** The dictionary returned by [_generate_visibility_summary]. *)
Record VisibilitySummary : Type := mkVisSummary {
  mean_visual_integration : Q;
  std_visual_integration : R;
  min_visual_integration : Q;
  max_visual_integration : Q;
  mean_isovist_area : Q;
  std_isovist_area : R;
  blind_spots_count : nat
}.

Section Summary.
Context `{Geometry}.

(** [_generate_visibility_summary]; [None] is the empty dictionary returned
    for empty metrics. *)
Definition _generate_visibility_summary
    (vga_metrics : list (Point * VGAMetrics)) : option VisibilitySummary :=
  match vga_metrics with
  | [] => None
  | _ =>
      let visual_integrations :=
        map (fun m => visual_integration (snd m)) vga_metrics in
      let isovist_areas := map (fun m => isovist_area (snd m)) vga_metrics in
      Some (mkVisSummary
              (WES.np_mean visual_integrations)
              (np_std visual_integrations)
              (np_min visual_integrations)
              (np_max visual_integrations)
              (WES.np_mean isovist_areas)
              (np_std isovist_areas)
              (length (filter (fun v => Qlt_bool v 0.2 = true)
                              visual_integrations)))
  end.

End Summary.

(** The metrics of [three_points] behind [one_wall]: the first two points
    see each other, the third sees nobody. *)
Definition three_point_metrics : list (Point * VGAMetrics) :=
  [((0, 0)%Z, mkMetrics 0.5 1 0 0 0 0);
   ((10, 0)%Z, mkMetrics 0.5 1 0 0 0 0);
   ((20, 0)%Z, mkMetrics 0 0 0 0 0 0)].

(** A sampler that returns the first [k] indices. *)
#[export] Instance first_indices : Subsampler := {|
  sampler_state := unit;
  choice_without_replacement := fun n k s => (seq 0 k, s)
|}.

(** The same sampler with a state that counts its draws. *)
Definition counted_first_indices : Subsampler := {|
  sampler_state := nat;
  choice_without_replacement := fun n k s => (seq 0 k, S s)
|}.

(** A 3 x 2 image, white except for the pixel at x = 1, y = 0. *)
Definition small_image : Image :=
  mkImage 2 3 (fun y x => if ((x =? 1) && (y =? 0))%Z then 0%Z else 255%Z).

End VGA.

(** ** The agent-based simulator ([agent_simulation.py]) *)

Module AgentSim.
Import Py.
Local Open Scope Q_scope.

(** The circulation graph, as for the Space Syntax engine. *)
Abbreviation Graph := SpaceSyntax.Graph.
Abbreviation nodes := SpaceSyntax.nodes.
Abbreviation edges := SpaceSyntax.edges.

Inductive AgentType : Type :=
  | FAMILIAR | FIRST_TIME | ELDERLY | MOBILITY_IMPAIRED.

(** The fields of [Agent] that a journey writes, and its identity.  ([id] is
    the index [i] of ["agent_" + i]; the two positions are constants of the
    scenario and are left out.)  [path] stays [None] when the journey fails
    before a path is chosen. *)
Record Agent : Type := mkAgent {
  id : nat;
  agent_type : AgentType;
  path : option (list string);
  errors : nat;
  hesitations : nat;
  sign_usages : nat;
  time_elapsed : Q;
  distance_traveled : Q;
  success : bool
}.

(** *** numpy's process-global random generator

    The simulator draws from [np.random] and from nothing else.  The
    generator is a state outside the simulator: every draw reads it and
    advances it, and [np.random.seed] replaces it by a state that depends on
    the seed only. *)
Class RandomState : Type := {
  rng : Type;
  (** [np.random.seed(s)]: the state after seeding. *)
  seeded : nat -> rng;
  (** [np.random.random()]: a float in [0, 1). *)
  random : rng -> Q * rng;
  (** the index drawn by [np.random.choice(a)] for [len(a) = n] *)
  randint : nat -> rng -> nat * rng
}.

(** Computations that draw from the generator. *)
Definition Rand `{RandomState} (A : Type) : Type := rng -> A * rng.

#[export] Instance Rand_ret `{RandomState} : MRet Rand :=
  fun A a s => (a, s).
#[export] Instance Rand_bind `{RandomState} : MBind Rand :=
  fun A B f m s => let (a, s') := m s in f a s'.

(** [np.random.choice(a, p=p)]: one uniform draw [u], then the first index
    whose cumulative probability exceeds [u]. *)
Fixpoint pick_by_cdf {A : Type} (dist : list (A * Q)) (acc u : Q) (default : A) : A :=
  match dist with
  | [] => default
  | [(a, _)] => a
  | (a, p) :: dist' =>
      if Qlt_bool u (acc + p) then a else pick_by_cdf dist' (acc + p) u default
  end.

Definition choice_p `{RandomState} {A : Type} (dist : list (A * Q)) (default : A)
  : Rand A :=
  u ← random; mret (pick_by_cdf dist 0 u default).

(** [np.random.choice(a)] on a non-empty list. *)
Definition choice `{RandomState} (a : list string) : Rand string :=
  i ← randint (length a); mret (nth i a ""%string).

(** *** The graph as networkx serves it *)

(** The first occurrence of every element, in order. *)
Fixpoint nub (l : list string) : list string :=
  match l with
  | [] => []
  | x :: l' => x :: filter (fun y => y ≠ x) (nub l')
  end.

(** [list(graph.neighbors(n))], in the order in which the edges were added. *)
Definition neighbors (g : Graph) (n : string) : list string :=
  nub (omap (fun e => let '(u, v, _) := e in
                      if decide (u = n) then Some v
                      else if decide (v = n) then Some u else None)
            (edges g)).

(** [graph.degree(n)]; a self-loop counts twice. *)
Definition degree (g : Graph) (n : string) : nat :=
  length (neighbors g n) + (if bool_decide (n ∈ neighbors g n) then 1 else 0).

(** [graph[a][b].get('weight', 1)] when the edge exists: the attribute given
    when the edge was last added. *)
Definition edge_weight (g : Graph) (a b : string) : option Q :=
  (fun e => snd e) <$>
  last (filter (fun e => (fst (fst e) = a /\ snd (fst e) = b) \/
                         (fst (fst e) = b /\ snd (fst e) = a))
               (edges g)).

(** [nx.shortest_path(graph, source, target, weight='weight')], a library
    call: a path of minimum total weight, [NodeNotFound] for an unknown
    endpoint and [NetworkXNoPath] when the target cannot be reached.  It is
    modelled by rounds of edge relaxation that carry the path along; where
    several paths are shortest, networkx returns one of them and the model
    the first it finds. *)
Definition relax_path (best : gmap string (Q * list string)) (u v : string) (w : Q)
  : gmap string (Q * list string) :=
  match best !! u with
  | None => best
  | Some (du, pu) =>
      match best !! v with
      | Some (dv, _) =>
          if Qlt_bool (du + w) dv then <[v := (du + w, pu ++ [v])]> best else best
      | None => <[v := (du + w, pu ++ [v])]> best
      end
  end.

Definition relax_paths (g : Graph) (best : gmap string (Q * list string))
  : gmap string (Q * list string) :=
  foldl (fun b e => let '(u, v, w) := e in relax_path (relax_path b u v w) v u w)
        best (edges g).

Definition shortest_path (g : Graph) (source target : string) : result (list string) :=
  if negb (bool_decide (source ∈ nodes g)) then Raise NodeNotFound
  else if negb (bool_decide (target ∈ nodes g)) then Raise NodeNotFound
  else
    match Nat.iter (length (nodes g)) (relax_paths g)
                   {[ source := (0, [source]) ]} !! target with
    | Some (_, p) => Ok p
    | None => Raise NetworkXNoPath
    end.

(** *** One simulator instance *)

Section Simulator.
Context `{RandomState}.

(** [self.graph], [self.signage_locations], [self.landmarks] *)
Variable graph : Graph.
Variable signage_locations : list string.
Variable landmarks : list string.

Definition _has_signage_at (node : string) : bool :=
  bool_decide (node ∈ signage_locations).

Definition _has_landmark_at (node : string) : bool :=
  bool_decide (node ∈ landmarks).

Definition _signage_visible_at (current next_node : string) : bool :=
  bool_decide (current ∈ signage_locations)
  || bool_decide (next_node ∈ signage_locations).

(** [_get_error_probability] *)
Definition _get_error_probability (agent : Agent) (node : string) : Q :=
  let prob :=
    match agent_type agent with
    | FAMILIAR => 0.05
    | FIRST_TIME => 0.25
    | ELDERLY => 0.35
    | MOBILITY_IMPAIRED => 0.30
    end in
  let degree := degree graph node in
  let prob :=
    if (4 <=? degree)%nat then prob * 1.5
    else if (3 <=? degree)%nat then prob * 1.2
    else prob in
  let prob := if _has_signage_at node then prob * 0.5 else prob in
  let prob := if _has_landmark_at node then prob * 0.6 else prob in
  py_min prob 0.9.

(** The loop of [_apply_agent_strategy] over [optimal_path[1:]]; the
    counters of the agent are updated in place. *)
Fixpoint strategy_loop (destination : string) (rest : list string)
    (current : string) (actual_path : list string) (agent : Agent)
  : Rand (list string * Agent) :=
  match rest with
  | [] => mret (actual_path, agent)
  | next_node :: rest' =>
      let error_prob := _get_error_probability agent current in
      u ← random;
      if Qlt_bool u error_prob then
        let agent :=
          mkAgent (id agent) (agent_type agent) (path agent)
                  (S (errors agent)) (hesitations agent) (sign_usages agent)
                  (time_elapsed agent) (distance_traveled agent) (success agent) in
        let nbrs := neighbors graph current in
        match nbrs with
        | [] => strategy_loop destination rest' current actual_path agent
        | _ =>
            wrong_choice ← choice nbrs;
            let actual_path := actual_path ++ [wrong_choice] in
            if bool_decide (wrong_choice ≠ next_node) then
              let agent :=
                mkAgent (id agent) (agent_type agent) (path agent)
                        (errors agent) (S (hesitations agent)) (sign_usages agent)
                        (time_elapsed agent) (distance_traveled agent)
                        (success agent) in
              match shortest_path graph wrong_choice destination with
              | Ok correction_path =>
                  mret (actual_path ++ tail correction_path, agent)
              | Raise _ => mret (actual_path, agent)
              end
            else strategy_loop destination rest' wrong_choice actual_path agent
        end
      else
        let agent :=
          if _signage_visible_at current next_node then
            mkAgent (id agent) (agent_type agent) (path agent)
                    (errors agent) (hesitations agent) (S (sign_usages agent))
                    (time_elapsed agent) (distance_traveled agent) (success agent)
          else agent in
        strategy_loop destination rest' next_node (actual_path ++ [next_node]) agent
  end.

(** [_apply_agent_strategy]; [optimal_path[0]] raises on an empty path. *)
Definition _apply_agent_strategy (agent : Agent) (optimal_path : list string)
    (destination : string) : Rand (result (list string * Agent)) :=
  match optimal_path with
  | [] => mret (Raise IndexError)
  | first :: rest =>
      r ← strategy_loop destination rest first [first] agent; mret (Ok r)
  end.

(** [_calculate_path_length] *)
Fixpoint _calculate_path_length (path : list string) : Q :=
  match path with
  | a :: (b :: _) as path' =>
      (if bool_decide (a ∈ nodes graph) && bool_decide (b ∈ nodes graph) then
         match edge_weight graph a b with
         | Some w => w
         | None => 0
         end
       else 0) + _calculate_path_length path'
  | _ => 0
  end.

(** [_estimate_travel_time] *)
Definition _estimate_travel_time (agent : Agent) (path : list string) : Q :=
  let distance := _calculate_path_length path in
  let speed :=
    match agent_type agent with
    | FAMILIAR => 1.4
    | FIRST_TIME => 1.0
    | ELDERLY => 0.8
    | MOBILITY_IMPAIRED => 0.6
    end in
  let base_time := distance / speed in
  let hesitation_time := inject_Z (Z.of_nat (hesitations agent)) * 5 in
  let error_time := inject_Z (Z.of_nat (errors agent)) * 10 in
  base_time + hesitation_time + error_time.

Definition failed (agent : Agent) : Agent :=
  mkAgent (id agent) (agent_type agent) (path agent) (errors agent)
          (hesitations agent) (sign_usages agent) (time_elapsed agent)
          (distance_traveled agent) false.

(** [_simulate_agent_journey]: every exception of the try block ends in
    [agent.success = False]. *)
Definition _simulate_agent_journey (agent : Agent) (origin destination : string)
  : Rand Agent :=
  if negb (bool_decide (origin ∈ nodes graph))
     || negb (bool_decide (destination ∈ nodes graph))
  then mret (failed agent)
  else
    match shortest_path graph origin destination with
    | Raise _ => mret (failed agent)
    | Ok shortest =>
        r ← _apply_agent_strategy agent shortest destination;
        match r with
        | Raise _ => mret (failed agent)
        | Ok (actual_path, agent) =>
            let distance := _calculate_path_length actual_path in
            let agent :=
              mkAgent (id agent) (agent_type agent) (Some actual_path)
                      (errors agent) (hesitations agent) (sign_usages agent)
                      (time_elapsed agent) distance (success agent) in
            let time := _estimate_travel_time agent actual_path in
            mret (mkAgent (id agent) (agent_type agent) (Some actual_path)
                          (errors agent) (hesitations agent) (sign_usages agent)
                          time distance
                          (match last actual_path with
                           | Some n => bool_decide (n = destination)
                           | None => false
                           end))
        end
    end.

Definition agent_types_dist : list (AgentType * Q) :=
  [(FIRST_TIME, 0.6); (FAMILIAR, 0.2); (ELDERLY, 0.15); (MOBILITY_IMPAIRED, 0.05)].

(** The loop of [_run_scenario]: the agents, in the order of their
    creation.  The statistics that [_run_scenario] returns are computed from
    this list alone. *)
Fixpoint run_agents (origin destination : string) (n_agents i : nat)
  : Rand (list Agent) :=
  match n_agents with
  | O => mret []
  | S n =>
      agent_type ← choice_p agent_types_dist MOBILITY_IMPAIRED;
      agent ← _simulate_agent_journey
                (mkAgent i agent_type None 0 0 0 0 0 false) origin destination;
      agents ← run_agents origin destination n (S i);
      mret (agent :: agents)
  end.

Definition _run_scenario_agents (origin destination : string) (n_agents : nat)
  : Rand (list Agent) :=
  run_agents origin destination n_agents 0.

End Simulator.

(** *** Two runs in one process *)

(** The caller seeds numpy once and runs the same scenario twice: the second
    run draws from the state that the first one left. *)
Definition seed_then_run_twice `{RandomState} (seed : nat) (graph : Graph)
    (signage_locations landmarks : list string)
    (origin destination : string) (n_agents : nat)
  : list Agent * list Agent :=
  let run := _run_scenario_agents graph signage_locations landmarks
                                  origin destination n_agents in
  let (first, s) := run (seeded seed) in
  let (second, _) := run s in
  (first, second).

(** The caller seeds numpy with the same seed before each of the two runs. *)
Definition seed_before_each_run `{RandomState} (seed : nat) (graph : Graph)
    (signage_locations landmarks : list string)
    (origin destination : string) (n_agents : nat)
  : list Agent * list Agent :=
  let run := _run_scenario_agents graph signage_locations landmarks
                                  origin destination n_agents in
  let (first, _) := run (seeded seed) in
  let (second, _) := run (seeded seed) in
  (first, second).

(** *** Generators that deliver the same draws *)

(** [m1] and [m2], run from related states, return the same value and leave
    related states. *)
Definition related {R1 R2 : RandomState} (sim : @rng R1 -> @rng R2 -> Prop)
    {A : Type} (m1 : @Rand R1 A) (m2 : @Rand R2 A) : Prop :=
  forall s1 s2, sim s1 s2 ->
    fst (m1 s1) = fst (m2 s2) /\ sim (snd (m1 s1)) (snd (m2 s2)).

(** Every draw of one generator is the draw of the other. *)
Definition same_draws (R1 R2 : RandomState) (sim : @rng R1 -> @rng R2 -> Prop)
  : Prop :=
  related sim (@random R1) (@random R2) /\
  forall n, related sim (@randint R1 n) (@randint R2 n).

(** *** A generator for running the definitions

    The state is the stream of uniform draws still to come; an index is
    drawn by scaling one of them.  Seeding with [s] starts a stream that
    cycles through the values below from position [s]. *)
Definition draw_table : list Q := [0.1; 0.95; 0.95; 0.7; 0.95; 0.95; 0.02; 0.5].

Definition stream_from (s len : nat) : list Q :=
  map (fun i => nth ((s + i) mod length draw_table) draw_table 0) (seq 0 len).

#[export] Instance draw_stream : RandomState := {|
  rng := list Q;
  seeded := fun s => stream_from s 64;
  random := fun st => match st with
                      | u :: st' => (u, st')
                      | [] => (0, [])
                      end;
  randint := fun n st =>
    match st with
    | u :: st' => (Z.to_nat (Qfloor (u * inject_Z (Z.of_nat n))), st')
    | [] => (O, [])
    end
|}.

(** The same generator with a state that also counts the draws made so
    far. *)
Definition counted_stream : RandomState := {|
  rng := list Q * nat;
  seeded := fun s => (stream_from s 64, O);
  random := fun st => match fst st with
                      | u :: st' => (u, (st', S (snd st)))
                      | [] => (0, ([], S (snd st)))
                      end;
  randint := fun n st =>
    match fst st with
    | u :: st' =>
        (Z.to_nat (Qfloor (u * inject_Z (Z.of_nat n))), (st', S (snd st)))
    | [] => (O, ([], S (snd st)))
    end
|}.

(** *** The outcomes of an agent *)

(** Two agents with the same outcomes: type, path, errors, hesitations,
    sign usages, distance, time and success. *)
Definition same_outcome (a b : Agent) : Prop :=
  agent_type a = agent_type b /\
  path a = path b /\
  errors a = errors b /\
  hesitations a = hesitations b /\
  sign_usages a = sign_usages b /\
  distance_traveled a = distance_traveled b /\
  time_elapsed a = time_elapsed b /\
  success a = success b.

(** *** The statistics of a scenario *)

Definition qnat (n : nat) : Q := inject_Z (Z.of_nat n).

(** The dictionary returned by [_aggregate_scenario_results] for a non-empty
    list of agents. *)
Record ScenarioStats : Type := mkStats {
  n_agents : nat;
  success_rate : Q;
  first_pass_success : Q;
  mean_time : Q;
  std_time : R;
  mean_distance : Q;
  mean_errors : Q;
  mean_hesitations : Q;
  mean_sign_usage : Q;
  hesitation_rate : Q
}.

(** [_aggregate_scenario_results]; [None] is the empty dictionary returned
    for no agent. *)
Definition _aggregate_scenario_results (agents : list Agent) : option ScenarioStats :=
  let successful := filter (fun a => success a = true) agents in
  match agents with
  | [] => None
  | _ =>
      Some (mkStats
        (length agents)
        (qnat (length successful) / qnat (length agents))
        (qnat (length (filter (fun a => success a = true /\ errors a = 0%nat) agents))
         / qnat (length agents))
        (match successful with
         | [] => 0
         | _ => WES.np_mean (map time_elapsed successful)
         end)
        (match successful with
         | [] => 0%R
         | _ => VGA.np_std (map time_elapsed successful)
         end)
        (match successful with
         | [] => 0
         | _ => WES.np_mean (map distance_traveled successful)
         end)
        (WES.np_mean (map (fun a => qnat (errors a)) agents))
        (WES.np_mean (map (fun a => qnat (hesitations a)) agents))
        (WES.np_mean (map (fun a => qnat (sign_usages a)) agents))
        (WES.np_mean
           (map (fun a => if Qlt_bool 0 (distance_traveled a)
                          then qnat (hesitations a) / distance_traveled a
                          else 0)
                agents)))
  end.

(** [_run_scenario] *)
Definition _run_scenario `{RandomState} (graph : Graph)
    (signage_locations landmarks : list string)
    (origin destination : string) (n_agents : nat)
  : Rand (option ScenarioStats) :=
  agents ← _run_scenario_agents graph signage_locations landmarks
                                origin destination n_agents;
  mret (_aggregate_scenario_results agents).

(** *** A simulation of several scenarios *)

(** A scenario as [simulate] reads it: [origin], [destination], and an
    optional [name]. *)
Record Scenario : Type := mkScenario {
  sc_origin : string;
  sc_destination : string;
  sc_name : option string
}.

(** An element of [all_results]: the three entries written by [simulate],
    and the statistics spread into the same dictionary ([None] when the
    scenario returned the empty dictionary). *)
Record ScenarioResult : Type := mkScenarioResult {
  scenario : string;
  origin : string;
  destination : string;
  stats : option ScenarioStats
}.

(** [r.get(key, default)] for a key of the statistics. *)
Definition get (key : ScenarioStats -> Q) (default : Q) (r : ScenarioResult) : Q :=
  match stats r with
  | Some st => key st
  | None => default
  end.

(** [max(l, key=key)] and [min(l, key=key)]: the first element whose key is
    largest (smallest); [ValueError] on an empty list. *)
Definition py_max_key {A : Type} (key : A -> Q) (l : list A) : result A :=
  match l with
  | [] => Raise ValueError
  | x :: l' =>
      Ok (fold_left (fun best y => if Qlt_bool (key best) (key y) then y else best) l' x)
  end.

Definition py_min_key {A : Type} (key : A -> Q) (l : list A) : result A :=
  match l with
  | [] => Raise ValueError
  | x :: l' =>
      Ok (fold_left (fun best y => if Qlt_bool (key y) (key best) then y else best) l' x)
  end.

Record OverallStats : Type := mkOverall {
  overall_success_rate : Q;
  overall_mean_time : Q;
  overall_mean_errors : Q;
  best_scenario : string;
  worst_scenario : string
}.

(** [_calculate_overall_stats] *)
Definition _calculate_overall_stats (all_results : list ScenarioResult)
  : result OverallStats :=
  let all_success_rates := map (get success_rate 0) all_results in
  let all_times := map (get mean_time 0) all_results in
  let all_errors := map (get mean_errors 0) all_results in
  best ← py_max_key (get success_rate 0) all_results;
  worst ← py_min_key (get success_rate 0) all_results;
  mret (mkOverall (WES.np_mean all_success_rates) (WES.np_mean all_times)
                  (WES.np_mean all_errors) (scenario best) (scenario worst)).

(** [', '.join([r['scenario'] for r in l[:3]])] *)
Definition join_scenarios (l : list ScenarioResult) : string :=
  String.concat ", " (map scenario (take 3 l)).

Definition no_critical_recommendation : string :=
  "الأداء جيد بشكل عام - لا توصيات حرجة".

(** [_generate_recommendations] *)
Definition _generate_recommendations (all_results : list ScenarioResult)
  : list string :=
  let low_success :=
    List.filter (fun r => Qlt_bool (get success_rate 1 r) 0.7) all_results in
  let high_time :=
    List.filter (fun r => Qlt_bool 180 (get mean_time 0 r)) all_results in
  let high_errors :=
    List.filter (fun r => Qlt_bool 1.5 (get mean_errors 0 r)) all_results in
  let recommendations :=
    (match low_success with
     | [] => []
     | _ => [String.append "تحسين مسارات: "
               (String.append (join_scenarios low_success) " (معدل نجاح < 70%)")]
     end)
    ++ (match high_time with
        | [] => []
        | _ => [String.append "تقليل زمن السفر في: " (join_scenarios high_time)]
        end)
    ++ (match high_errors with
        | [] => []
        | _ => [String.append "إضافة إشارات عند: " (join_scenarios high_errors)]
        end) in
  match recommendations with
  | [] => [no_critical_recommendation]
  | _ => recommendations
  end.

(** The dictionary returned by [simulate]. *)
Record SimulationResult : Type := mkSimulation {
  scenarios : list ScenarioResult;
  overall : OverallStats;
  recommendations : list string
}.

(** The loop of [simulate] over the scenarios. *)
Fixpoint run_scenarios `{RandomState} (graph : Graph)
    (signage_locations landmarks : list string)
    (scs : list Scenario) (n_agents_per_scenario : nat)
  : Rand (list ScenarioResult) :=
  match scs with
  | [] => mret []
  | sc :: scs' =>
      let scenario_name :=
        match sc_name sc with
        | Some name => name
        | None => String.append (sc_origin sc) (String.append "->" (sc_destination sc))
        end in
      scenario_results ← _run_scenario graph signage_locations landmarks
                            (sc_origin sc) (sc_destination sc) n_agents_per_scenario;
      all_results ← run_scenarios graph signage_locations landmarks
                                  scs' n_agents_per_scenario;
      mret (mkScenarioResult scenario_name (sc_origin sc) (sc_destination sc)
                             scenario_results :: all_results)
  end.

(** [simulate]: [signage_locations or []] and [landmarks or []] replace a
    missing list; an exception is logged and raised again. *)
Definition simulate `{RandomState} (graph : Graph) (scs : list Scenario)
    (n_agents_per_scenario : nat)
    (signage_locations landmarks : option (list string))
  : Rand (result SimulationResult) :=
  all_results ← run_scenarios graph (default [] signage_locations)
                              (default [] landmarks) scs n_agents_per_scenario;
  mret (overall_stats ← _calculate_overall_stats all_results;
        mret (mkSimulation all_results overall_stats
                           (_generate_recommendations all_results))).

(** *** What a computation returns on every state of the generator *)

(** [m] returns a value that satisfies [P], whatever the generator holds. *)
Definition ensures `{RandomState} {A : Type} (m : Rand A) (P : A -> Prop) : Prop :=
  forall s, P (fst (m s)).

(** *** Paths in the graph *)

(** Every node of the path is a neighbour of the node before it. *)
Fixpoint is_walk (g : Graph) (p : list string) : Prop :=
  match p with
  | a :: (b :: _) as p' => b ∈ neighbors g a /\ is_walk g p'
  | _ => True
  end.

(** The paths carried by the relaxation start at the source, end at their
    key and follow edges. *)
Definition paths_well_formed (g : Graph) (source : string)
    (best : gmap string (Q * list string)) : Prop :=
  forall v d p, best !! v = Some (d, p) ->
    head p = Some source /\ last p = Some v /\ is_walk g p.

End AgentSim.

(** ** Depth and control measures ([space_syntax.py])

    These measures read the graph through [graph.neighbors] and
    [graph.degree], modelled with the simulator above. *)

Module SpaceSyntaxMeasures.
Import AgentSim.
Local Open Scope Q_scope.

(** *** Control *)

(** Body of the loop of [_calculate_control] for one node. *)
Definition control_of_node (g : Graph) (node : string) : Q :=
  fold_left (fun control_value neighbor =>
               let neighbor_degree := degree g neighbor in
               if (0 <? neighbor_degree)%nat
               then control_value + 1 / qnat neighbor_degree
               else control_value)
            (neighbors g node) 0.

(** [_calculate_control] *)
Definition _calculate_control (g : Graph) : list (string * Q) :=
  map (fun node => (node, control_of_node g node)) (nodes g).

(** Body of the loop of [_calculate_controllability] for one node; [sum]
    adds from the left, starting at 0. *)
Definition controllability_of_node (g : Graph) (node : string) : Q :=
  let neighbors := neighbors g node in
  let n := length neighbors in
  if (0 <? n)%nat then
    let total :=
      fold_left Qplus
        (map (fun u => 1 / qnat (degree g u))
             (List.filter (fun u => (0 <? degree g u)%nat) neighbors)) 0 in
    total / qnat n
  else 0.

(** [_calculate_controllability] *)
Definition _calculate_controllability (g : Graph) : list (string * Q) :=
  map (fun node => (node, controllability_of_node g node)) (nodes g).

(** *** Depth from the entrances *)

(** [_identify_entrances]: the nodes of degree at most 2, the first node
    when there is none, and at most five of them. *)
Definition _identify_entrances (g : Graph) : list string :=
  let entrances := filter (fun node => (degree g node <= 2)%nat) (nodes g) in
  let entrances :=
    match entrances, nodes g with
    | [], first :: _ => [first]
    | _, _ => entrances
    end in
  take 5 entrances.

(** The dictionary [depth[node]]: the entries [from_<entrance>], in the
    order of their insertion, and the entry [average]. *)
Record DepthEntry : Type := mkDepth {
  from_entrance : list (string * Q);
  average : option Q
}.

(** [list(depth[node].values())], up to the order *)
Definition depth_values (en : DepthEntry) : list Q :=
  map snd (from_entrance en)
  ++ match average en with
     | Some a => [a]
     | None => []
     end.

(** [d[k] = v] on a dictionary kept as a list. *)
Fixpoint dict_set {V : Type} (d : list (string * V)) (k : string) (v : V)
  : list (string * V) :=
  match d with
  | [] => [(k, v)]
  | (k', v') :: d' =>
      if decide (k' = k) then (k, v) :: d' else (k', v') :: dict_set d' k v
  end.

(** One round of the loop over the entrances, on the entry of [node]
    ([None]: [node not in depth]): the depth from [entrance] is stored when
    the node is reached from it, then the average is recomputed from all the
    values of the entry. *)
Definition depth_round (g : Graph) (node : string) (entry : option DepthEntry)
    (entrance : string) : option DepthEntry :=
  let entry :=
    match SpaceSyntax.path_lengths false g entrance !! node with
    | Some d =>
        let en := default (mkDepth [] None) entry in
        Some (mkDepth (dict_set (from_entrance en) entrance d) (average en))
    | None => entry
    end in
  match entry with
  | Some en =>
      if bool_decide (node ∈ nodes g)
      then Some (mkDepth (from_entrance en) (Some (WES.np_mean (depth_values en))))
      else Some en
  | None => None
  end.

(** [_calculate_depth], at one node: the entry [depth[node]] of the
    dictionary it returns. *)
Definition _calculate_depth (g : Graph) (node : string) : option DepthEntry :=
  foldl (depth_round g node) None (_identify_entrances g).

(** Two rooms joined by one door. *)
Definition two_rooms : Graph :=
  SpaceSyntax.mkGraph ["hall"; "ward"]%string [("hall", "ward", 4 # 1)]%string.

End SpaceSyntaxMeasures.

(** * Properties *)

(** ** Rational comparisons *)

Lemma Qlt_bool_iff (x y : Q) : Qlt_bool x y = true <-> (x < y)%Q.
Proof.
  unfold Qlt_bool. rewrite negb_true_iff.
  split; intros H.
  - apply Qnot_le_lt. intros Hle. apply Qle_bool_iff in Hle. congruence.
  - destruct (Qle_bool y x) eqn:E; [|reflexivity].
    apply Qle_bool_iff in E. exfalso. apply (Qlt_not_le _ _ H E).
Qed.

Lemma Qlt_bool_false_iff (x y : Q) : Qlt_bool x y = false <-> (y <= x)%Q.
Proof.
  unfold Qlt_bool. rewrite negb_false_iff. apply Qle_bool_iff.
Qed.

Lemma py_max_lub (a b : Q) : (a <= py_max a b /\ b <= py_max a b)%Q.
Proof.
  unfold py_max. destruct (Qlt_bool a b) eqn:E.
  - apply Qlt_bool_iff in E. split; [apply Qlt_le_weak, E | apply Qle_refl].
  - apply Qlt_bool_false_iff in E. split; [apply Qle_refl | exact E].
Qed.

Lemma py_max_mono (a b c : Q) : (b <= c)%Q -> (py_max a b <= py_max a c)%Q.
Proof.
  intros H. unfold py_max at 1. destruct (Qlt_bool a b) eqn:E.
  - eapply Qle_trans; [exact H | apply py_max_lub].
  - apply py_max_lub.
Qed.

Lemma py_min_glb (a b : Q) : (py_min a b <= a /\ py_min a b <= b)%Q.
Proof.
  unfold py_min. destruct (Qlt_bool b a) eqn:E.
  - apply Qlt_bool_iff in E. split; [apply Qlt_le_weak, E | apply Qle_refl].
  - apply Qlt_bool_false_iff in E. split; [apply Qle_refl | exact E].
Qed.

Lemma py_min_mono (a b c : Q) : (b <= c)%Q -> (py_min a b <= py_min a c)%Q.
Proof.
  intros H. unfold py_min at 2. destruct (Qlt_bool c a) eqn:E.
  - unfold py_min. destruct (Qlt_bool b a) eqn:E'; [exact H|].
    apply Qlt_bool_iff in E. apply Qlt_bool_false_iff in E'.
    exfalso. apply (Qlt_not_le _ _ E). eapply Qle_trans; eassumption.
  - apply py_min_glb.
Qed.


(** ** The WES composite scorer *)

Section WES_properties.
Import WES.
Local Open Scope Q_scope.

(** The score before clamping, written as the docstring does. *)
Lemma compute_wes_score_unfold (w : WESWeights) (nm : NormalizedMetrics) :
  _compute_wes_score w nm =
  py_max 0 (py_min 100
    (100 - (time w * (1 - nm_time nm) + detour w * (1 - nm_detour nm) +
            errors w * (1 - nm_errors nm) +
            hesitations w * (1 - nm_hesitations nm)) +
     (visual_integration w * nm_visual_integration nm +
      signage w * nm_signage nm + accessibility w * nm_accessibility nm))).
Proof. reflexivity. Qed.

(** The score always lies in [0, 100]. *)
Lemma compute_wes_score_range (w : WESWeights) (nm : NormalizedMetrics) :
  0 <= _compute_wes_score w nm <= 100.
Proof.
  rewrite compute_wes_score_unfold.
  set (raw := (_ + _)%Q).
  split; [apply py_max_lub|].
  unfold py_max. destruct (Qlt_bool 0 (py_min 100 raw)).
  - apply py_min_glb.
  - discriminate.
Qed.

(** C1 (as the code behaves): with the default weights, seven normalized
    metrics equal to 1.0 give the score 100 and the grade "A+"; seven
    normalized metrics equal to 0.0 give the score 45 (the four penalty
    weights sum to 55) and the grade "D". *)
Theorem wes_extremes_default_weights :
  _compute_wes_score default_weights (all_equal 1) == 100 /\
  _get_grade (_compute_wes_score default_weights (all_equal 1)) = "A+"%string /\
  _compute_wes_score default_weights (all_equal 0) == 45 /\
  _get_grade (_compute_wes_score default_weights (all_equal 0)) = "D"%string.
Proof. repeat split; vm_compute; reflexivity. Qed.

(** C1 as stated fails: the all-zero vector does not give score 0 and
    grade "F". *)
Lemma wes_all_zero_is_not_zero_F :
  ~ (_compute_wes_score default_weights (all_equal 0) == 0 /\
     _get_grade (_compute_wes_score default_weights (all_equal 0)) = "F"%string).
Proof. intros [H _]. vm_compute in H. discriminate H. Qed.

(** *** Monotonicity *)

Lemma clamp_mono (a b : Q) :
  a <= b -> py_max 0 (py_min 100 a) <= py_max 0 (py_min 100 b).
Proof. intros H. apply py_max_mono, py_min_mono, H. Qed.

(** C6: for non-negative weights (the default ones in particular), raising
    one normalized value, bonus or penalty dimension alike, while the six
    others stay fixed never lowers the WES score. *)
Theorem wes_monotone (w : WESWeights) (d : Metric) (m1 m2 : NormalizedMetrics) :
  weights_nonneg w ->
  agree_except d m1 m2 ->
  nm_get m1 d < nm_get m2 d ->
  _compute_wes_score w m1 <= _compute_wes_score w m2.
Proof.
  intros Hw Hag Hlt.
  rewrite !compute_wes_score_unfold. apply clamp_mono.
  pose proof (Hw d) as Hd.
  assert (Hprod : weight_of w d * nm_get m1 d <= weight_of w d * nm_get m2 d).
  { rewrite !(Qmult_comm (weight_of w d)).
    apply Qmult_le_compat_r; [apply Qlt_le_weak, Hlt | exact Hd]. }
  destruct d; simpl in Hprod;
    repeat match goal with
    | |- context [nm_time m1] =>
        rewrite (Hag Time ltac:(discriminate) : nm_time m1 == nm_time m2)
    | |- context [nm_detour m1] =>
        rewrite (Hag Detour ltac:(discriminate) : nm_detour m1 == nm_detour m2)
    | |- context [nm_errors m1] =>
        rewrite (Hag Errors ltac:(discriminate) : nm_errors m1 == nm_errors m2)
    | |- context [nm_hesitations m1] =>
        rewrite (Hag Hesitations ltac:(discriminate)
                 : nm_hesitations m1 == nm_hesitations m2)
    | |- context [nm_visual_integration m1] =>
        rewrite (Hag VisualIntegration ltac:(discriminate)
                 : nm_visual_integration m1 == nm_visual_integration m2)
    | |- context [nm_signage m1] =>
        rewrite (Hag Signage ltac:(discriminate) : nm_signage m1 == nm_signage m2)
    | |- context [nm_accessibility m1] =>
        rewrite (Hag Accessibility ltac:(discriminate)
                 : nm_accessibility m1 == nm_accessibility m2)
    end;
    lra.
Qed.

Lemma default_weights_nonneg : weights_nonneg default_weights.
Proof. intros k. destruct k; vm_compute; discriminate. Qed.

Lemma wes_monotone_witness :
  _compute_wes_score default_weights only_time_low <=
  _compute_wes_score default_weights (all_equal 1).
Proof.
  apply (wes_monotone default_weights Time only_time_low (all_equal 1)).
  - exact default_weights_nonneg.
  - intros k Hk. destruct k; try reflexivity. congruence.
  - vm_compute. reflexivity.
Defined.

(** *** Weight renormalisation *)

Lemma validate_true_iff (w : WESWeights) :
  validate w = true <-> Qabs (total w - 100) < 1 # 100.
Proof. unfold validate. apply Qlt_bool_iff. Qed.

Lemma validate_false_iff (w : WESWeights) :
  validate w = false <-> 1 # 100 <= Qabs (total w - 100).
Proof. unfold validate. apply Qlt_bool_false_iff. Qed.

(** Weights whose sum is within 0.01 of 100 are stored as given. *)
Lemma init_within_tolerance (w : WESWeights) :
  Qabs (total w - 100) < 1 # 100 -> init w = Some w.
Proof.
  intros H. unfold init. apply validate_true_iff in H. rewrite H. reflexivity.
Qed.

(** A zero total outside the tolerance makes the division raise. *)
Lemma init_zero_total_raises (w : WESWeights) :
  total w == 0 -> init w = None.
Proof.
  intros H. unfold init.
  assert (Hv : validate w = false).
  { apply validate_false_iff. rewrite H. vm_compute. discriminate. }
  rewrite Hv. unfold _normalize_weights.
  apply Qeq_bool_iff in H. rewrite H. reflexivity.
Qed.

Lemma normalize_weights_total (w w' : WESWeights) :
  _normalize_weights w = Some w' ->
  total w' == 100 /\
  forall k, weight_of w' k == weight_of w k * (100 / total w).
Proof.
  unfold _normalize_weights.
  destruct (Qeq_bool (total w) 0) eqn:E; [discriminate|].
  intros [= <-].
  assert (Hne : ~ total w == 0).
  { intros H. apply Qeq_bool_iff in H. congruence. }
  split.
  - unfold total at 1. simpl.
    transitivity (total w / total w * 100); [|field; exact Hne].
    unfold total at 8. field. exact Hne.
  - intros k. destruct k; simpl; field; exact Hne.
Qed.

(** C8 (as the code behaves): when the seven weights sum to a non-zero
    total that is at least 0.01 away from 100, the constructor does not
    raise, the stored weights sum to 100 and each one is the original weight
    scaled by 100 / total. *)
Theorem init_renormalizes (w : WESWeights) :
  ~ total w == 0 ->
  1 # 100 <= Qabs (total w - 100) ->
  renormalized_as_announced w.
Proof.
  intros Hne Htol. unfold renormalized_as_announced, init.
  apply validate_false_iff in Htol. rewrite Htol.
  destruct (_normalize_weights w) as [w'|] eqn:E.
  - exists w'. split; [reflexivity|]. apply normalize_weights_total, E.
  - exfalso. unfold _normalize_weights in E.
    destruct (Qeq_bool (total w) 0) eqn:E0; [|discriminate].
    apply Qeq_bool_iff in E0. contradiction.
Qed.

Lemma init_renormalizes_witness : renormalized_as_announced weights_doubled.
Proof.
  apply (init_renormalizes weights_doubled).
  - vm_compute. discriminate.
  - vm_compute. discriminate.
Defined.

(** C8 as stated fails: seven weights summing to 100.005 differ from 100 in
    sum, yet they are stored unchanged and still sum to 100.005. *)
Lemma init_keeps_sum_within_tolerance :
  ~ total weights_within_tolerance == 100 /\
  ~ renormalized_as_announced weights_within_tolerance.
Proof.
  split.
  - vm_compute. discriminate.
  - intros (w' & Hinit & Hsum & _).
    rewrite init_within_tolerance in Hinit by (vm_compute; reflexivity).
    injection Hinit as <-. vm_compute in Hsum. discriminate Hsum.
Qed.

(** *** Improvement priorities *)

Lemma insert_desc_In {A : Type} (key : A -> Q) (x y : A) (l : list A) :
  In y (insert_desc key x l) <-> y = x \/ In y l.
Proof.
  induction l as [|z l IH]; simpl.
  - intuition.
  - destruct (Qle_bool (key z) (key x)); simpl; [intuition|].
    rewrite IH. intuition.
Qed.

Lemma sort_desc_In {A : Type} (key : A -> Q) (y : A) (l : list A) :
  In y (sort_desc key l) <-> In y l.
Proof.
  induction l as [|x l IH]; simpl; [reflexivity|].
  rewrite insert_desc_In, IH. intuition.
Qed.

(** Descending order of the key. *)
Lemma insert_desc_sorted {A : Type} (key : A -> Q) (x : A) (l : list A) :
  Sorted (fun a b => key b <= key a) l ->
  Sorted (fun a b => key b <= key a) (insert_desc key x l).
Proof.
  induction l as [|z l IH]; simpl; intros Hs.
  - repeat constructor.
  - destruct (Qle_bool (key z) (key x)) eqn:E.
    + apply Qle_bool_iff in E. constructor; [exact Hs|]. constructor. exact E.
    + assert (Hzx : key x <= key z).
      { apply Qlt_le_weak, Qnot_le_lt. intros H. apply Qle_bool_iff in H.
        congruence. }
      inversion Hs as [|? ? Hs' Hhd]; subst.
      constructor; [apply IH, Hs'|].
      destruct l as [|u l]; simpl.
      * constructor. exact Hzx.
      * destruct (Qle_bool (key u) (key x)); constructor; [exact Hzx|].
        inversion Hhd; subst. assumption.
Qed.

Lemma sort_desc_sorted {A : Type} (key : A -> Q) (l : list A) :
  Sorted (fun a b => key b <= key a) (sort_desc key l).
Proof.
  induction l as [|x l IH]; simpl; [constructor|].
  apply insert_desc_sorted, IH.
Qed.

(** The list is ranked by the impact the code computes, and it holds exactly
    the dimensions below 0.9. *)
Lemma priorities_sorted (w : WESWeights) (nm : NormalizedMetrics) :
  Sorted (fun a b => impact_on_wes b <= impact_on_wes a)
         (_identify_improvement_priorities w nm).
Proof. apply sort_desc_sorted. Qed.

Lemma priorities_members (w : WESWeights) (nm : NormalizedMetrics) (p : Priority) :
  In p (_identify_improvement_priorities w nm) <->
  exists k, nm_get nm k < 9 # 10 /\
    p = mkPriority k (nm_get nm k) (1 - nm_get nm k)
          ((1 - nm_get nm k) * weight_of w k * (9 # 10))
          (priority_label ((1 - nm_get nm k) * weight_of w k * (9 # 10))).
Proof.
  unfold _identify_improvement_priorities. rewrite sort_desc_In.
  rewrite <- list_elem_of_In, list_elem_of_omap. split.
  - intros ([k v] & Hin & Hp).
    apply list_elem_of_In in Hin. unfold items in Hin.
    apply in_map_iff in Hin as (k' & [= <- <-] & _).
    unfold priority_entry in Hp.
    destruct (Qle_bool (9 # 10) (nm_get nm k')) eqn:E; [discriminate|].
    injection Hp as <-. exists k'. split; [|reflexivity].
    apply Qlt_bool_iff. unfold Qlt_bool. rewrite E. reflexivity.
  - intros (k & Hlt & ->). exists (k, nm_get nm k). split.
    + apply list_elem_of_In. unfold items. apply in_map_iff. exists k.
      split; [reflexivity|]. destruct k; simpl; tauto.
    + unfold priority_entry.
      apply Qlt_bool_iff in Hlt. unfold Qlt_bool in Hlt.
      apply negb_true_iff in Hlt. rewrite Hlt. reflexivity.
Qed.

(** The computed impact exceeds the announced one by 0.1 * current * weight:
    the two agree only where that product is zero. *)
Lemma impact_gap (w : WESWeights) (k : Metric) (current : Q) (p : Priority) :
  priority_entry w (k, current) = Some p ->
  impact_on_wes p ==
  announced_impact w k current + (1 # 10) * current * weight_of w k.
Proof.
  unfold priority_entry, announced_impact.
  destruct (Qle_bool (9 # 10) current); [discriminate|].
  intros [= <-]. cbn [impact_on_wes]. ring.
Qed.

(** C3 at a concrete vector: with the default weights and travel time at 0.6
    (every other dimension at 1.0) the code reports the impact
    (1 - 0.6) * 15 * 0.9 = 5.4 and the label HIGH, where
    (0.9 - 0.6) * 15 = 4.5 and the label MEDIUM are announced. *)
Theorem priorities_impact_at_only_time_low :
  exists p,
    _identify_improvement_priorities default_weights only_time_low = [p] /\
    metric p = Time /\
    impact_on_wes p == 27 # 5 /\
    priority p = "HIGH"%string /\
    announced_impact default_weights Time (nm_time only_time_low) == 9 # 2 /\
    priority_label (announced_impact default_weights Time (nm_time only_time_low))
      = "MEDIUM"%string /\
    ~ impact_on_wes p ==
      announced_impact default_weights Time (nm_time only_time_low).
Proof.
  eexists. split; [vm_compute; reflexivity|].
  repeat split; try (vm_compute; reflexivity).
  vm_compute. discriminate.
Qed.

End WES_properties.

(** ** The WES pipeline: normalisation, comparison, interpretation *)

Section WES_pipeline_properties.
Import WES.
Local Open Scope Q_scope.

Lemma qdiv_Some (x y : Q) : ~ y == 0 -> qdiv x y = Some (x / y).
Proof.
  intros H. unfold qdiv. destruct (Qeq_bool y 0) eqn:E; [|reflexivity].
  apply Qeq_bool_iff in E. contradiction.
Qed.

Lemma qdiv_None (x y : Q) : qdiv x y = None <-> y == 0.
Proof.
  unfold qdiv. destruct (Qeq_bool y 0) eqn:E.
  - apply Qeq_bool_iff in E. tauto.
  - split; [discriminate|]. intros H. apply Qeq_bool_iff in H. congruence.
Qed.

Lemma Qle_bool_false (x y : Q) : Qle_bool x y = false <-> y < x.
Proof.
  split; intros H.
  - apply Qnot_le_lt. intros Hle. apply Qle_bool_iff in Hle. congruence.
  - destruct (Qle_bool x y) eqn:E; [|reflexivity].
    apply Qle_bool_iff in E. exfalso. apply (Qlt_not_le _ _ H E).
Qed.

(** Quotients by a positive number. *)
Lemma Qdiv_unit (x m : Q) : 0 < m -> 0 <= x -> x <= m -> 0 <= x / m <= 1.
Proof.
  intros Hm H0 H1. split.
  - apply Qle_shift_div_l; [exact Hm|]. lra.
  - apply Qle_shift_div_r; [exact Hm|]. lra.
Qed.

Lemma Qdiv_mono (x y m : Q) : 0 < m -> x <= y -> x / m <= y / m.
Proof.
  intros Hm Hxy. unfold Qdiv. apply Qmult_le_compat_r; [exact Hxy|].
  apply Qlt_le_weak, Qinv_lt_0_compat, Hm.
Qed.

(** *** The two interpolations *)

Lemma inverse_score_range (raw bench : Q) :
  0 <= raw ->
  exists v, inverse_score raw bench = Some v /\ 0 <= v <= 1.
Proof.
  intros H0. unfold inverse_score.
  destruct (Qle_bool bench raw) eqn:E.
  - exists 0. split; [reflexivity|]. lra.
  - apply Qle_bool_false in E.
    assert (Hb : 0 < bench) by lra.
    rewrite qdiv_Some by lra. cbn.
    eexists. split; [reflexivity|].
    pose proof (Qdiv_unit raw bench Hb H0 ltac:(lra)). lra.
Qed.

Lemma inverse_score_antitone (r1 r2 bench v1 v2 : Q) :
  0 <= r2 -> r2 <= r1 ->
  inverse_score r1 bench = Some v1 ->
  inverse_score r2 bench = Some v2 ->
  v1 <= v2.
Proof.
  intros H0 Hle H1 H2.
  destruct (inverse_score_range r2 bench H0) as (v & Hv & Hr).
  rewrite Hv in H2. injection H2 as <-.
  unfold inverse_score in H1, Hv.
  destruct (Qle_bool bench r1) eqn:E1.
  - injection H1 as <-. lra.
  - apply Qle_bool_false in E1.
    destruct (Qle_bool bench r2) eqn:E2.
    + apply Qle_bool_iff in E2. lra.
    + assert (Hb : 0 < bench) by lra.
      rewrite qdiv_Some in H1, Hv by lra. cbn in H1, Hv.
      injection H1 as <-. injection Hv as <-.
      pose proof (Qdiv_mono r2 r1 bench Hb Hle). lra.
Qed.

Lemma direct_score_range (raw lo hi : Q) :
  exists v, direct_score raw lo hi = Some v /\ 0 <= v <= 1.
Proof.
  unfold direct_score.
  destruct (Qle_bool raw lo) eqn:E1; [exists 0; split; [reflexivity|lra]|].
  destruct (Qle_bool hi raw) eqn:E2; [exists 1; split; [reflexivity|lra]|].
  apply Qle_bool_false in E1, E2.
  rewrite qdiv_Some by lra. eexists. split; [reflexivity|].
  apply Qdiv_unit; lra.
Qed.

Lemma direct_score_monotone (r1 r2 lo hi v1 v2 : Q) :
  r1 <= r2 ->
  direct_score r1 lo hi = Some v1 ->
  direct_score r2 lo hi = Some v2 ->
  v1 <= v2.
Proof.
  intros Hle H1 H2.
  destruct (direct_score_range r1 lo hi) as (u1 & Hu1 & Hr1).
  destruct (direct_score_range r2 lo hi) as (u2 & Hu2 & Hr2).
  rewrite Hu1 in H1. rewrite Hu2 in H2.
  injection H1 as <-. injection H2 as <-.
  unfold direct_score in Hu1, Hu2.
  destruct (Qle_bool r1 lo) eqn:E1; [injection Hu1 as <-; lra|].
  destruct (Qle_bool r2 lo) eqn:F1.
  { apply Qle_bool_false in E1. apply Qle_bool_iff in F1. lra. }
  destruct (Qle_bool hi r2) eqn:F2; [injection Hu2 as <-; lra|].
  destruct (Qle_bool hi r1) eqn:E2.
  { apply Qle_bool_false in F2. apply Qle_bool_iff in E2. lra. }
  apply Qle_bool_false in E1, E2, F1, F2.
  rewrite qdiv_Some in Hu1, Hu2 by lra.
  injection Hu1 as <-. injection Hu2 as <-.
  apply Qdiv_mono; lra.
Qed.

Lemma py_max_0_nonneg (x : Q) : 0 <= py_max 0 x.
Proof. apply py_max_lub. Qed.

(** *** Normalisation *)

(** Shape of a successful normalisation. *)
Lemma normalize_metrics_Some (b : NormalizationBenchmarks) (raw : RawMetrics)
    (nm : NormalizedMetrics) :
  _normalize_metrics b raw = Some nm ->
  (if Qle_bool (r_mean_time raw) 0 then Some 1
   else inverse_score (r_mean_time raw) (max_acceptable_time b))
    = Some (nm_time nm) /\
  inverse_score (py_max 0 (r_mean_detour raw - 1)) (max_acceptable_detour b - 1)
    = Some (nm_detour nm) /\
  inverse_score (r_mean_errors raw) (max_acceptable_errors b)
    = Some (nm_errors nm) /\
  inverse_score (r_mean_hesitations raw) (max_acceptable_hesitations b)
    = Some (nm_hesitations nm) /\
  direct_score (r_visual_integration raw)
               (min_visual_integration b) (max_visual_integration b)
    = Some (nm_visual_integration nm) /\
  direct_score (r_signage_score raw) (min_signage_score b) (max_signage_score b)
    = Some (nm_signage nm) /\
  direct_score (r_accessibility raw)
               (min_accessibility_score b) (max_accessibility_score b)
    = Some (nm_accessibility nm).
Proof.
  unfold _normalize_metrics. intros H.
  destruct (if Qle_bool (r_mean_time raw) 0 then _ else _) as [t|];
    [|discriminate].
  destruct (inverse_score (py_max _ _) _) as [d|]; [|discriminate].
  destruct (inverse_score (r_mean_errors raw) _) as [e|]; [|discriminate].
  destruct (inverse_score (r_mean_hesitations raw) _) as [h|]; [|discriminate].
  destruct (direct_score (r_visual_integration raw) _ _) as [v|]; [|discriminate].
  destruct (direct_score (r_signage_score raw) _ _) as [s|]; [|discriminate].
  destruct (direct_score (r_accessibility raw) _ _) as [a|]; [|discriminate].
  cbn in H. injection H as <-. cbn. repeat split.
Qed.

Lemma time_score_range (raw bench : Q) :
  exists v,
    (if Qle_bool raw 0 then Some 1 else inverse_score raw bench) = Some v /\
    0 <= v <= 1.
Proof.
  destruct (Qle_bool raw 0) eqn:E.
  - exists 1. split; [reflexivity|]. lra.
  - apply Qle_bool_false in E. apply inverse_score_range. lra.
Qed.

(** X1: for every set of benchmarks, raw metrics whose error and hesitation
    counts are not negative are normalised without a division by zero, and
    each of the seven normalized values lies in [0, 1]. *)
Theorem normalize_metrics_range (b : NormalizationBenchmarks) (raw : RawMetrics) :
  0 <= r_mean_errors raw ->
  0 <= r_mean_hesitations raw ->
  exists nm, _normalize_metrics b raw = Some nm /\ in_unit_range nm.
Proof.
  intros He Hh. unfold _normalize_metrics.
  destruct (time_score_range (r_mean_time raw) (max_acceptable_time b))
    as (t & -> & Ht).
  destruct (inverse_score_range (py_max 0 (r_mean_detour raw - 1))
              (max_acceptable_detour b - 1) (py_max_0_nonneg _))
    as (d & -> & Hd).
  destruct (inverse_score_range _ (max_acceptable_errors b) He) as (e & -> & He').
  destruct (inverse_score_range _ (max_acceptable_hesitations b) Hh)
    as (h & -> & Hh').
  destruct (direct_score_range (r_visual_integration raw)
              (min_visual_integration b) (max_visual_integration b))
    as (v & -> & Hv).
  destruct (direct_score_range (r_signage_score raw)
              (min_signage_score b) (max_signage_score b)) as (s & -> & Hs).
  destruct (direct_score_range (r_accessibility raw)
              (min_accessibility_score b) (max_accessibility_score b))
    as (a & -> & Ha).
  cbn. eexists. split; [reflexivity|].
  intros k. destruct k; cbn; assumption.
Qed.

Lemma normalize_metrics_range_witness :
  exists nm, _normalize_metrics default_benchmarks sample_raw = Some nm /\
             in_unit_range nm.
Proof.
  apply (normalize_metrics_range default_benchmarks sample_raw).
  - vm_compute. discriminate.
  - vm_compute. discriminate.
Defined.

Lemma inverse_score_None (raw bench : Q) :
  inverse_score raw bench = None <-> raw < 0 /\ bench == 0.
Proof.
  unfold inverse_score. destruct (Qle_bool bench raw) eqn:E.
  - apply Qle_bool_iff in E. split; [discriminate|]. intros [H0 Hb]. lra.
  - apply Qle_bool_false in E. destruct (qdiv raw bench) eqn:Ed.
    + cbn. split; [discriminate|]. intros [_ Hb].
      pose proof (proj2 (qdiv_None raw bench) Hb). congruence.
    + cbn. apply qdiv_None in Ed. split; [|reflexivity]. intros _. split; lra.
Qed.

(** X2: normalisation divides by zero exactly when a negative error or
    hesitation count meets a benchmark of zero (the entry is then infinite
    for a mean over scenarios, and the division raises for Python floats);
    in every other case all seven values are finite, and the time, detour
    and bonus dimensions never divide by zero, whatever their benchmarks
    are. *)
Theorem normalize_metrics_not_finite (b : NormalizationBenchmarks) (raw : RawMetrics) :
  _normalize_metrics b raw = None <->
  (r_mean_errors raw < 0 /\ max_acceptable_errors b == 0) \/
  (r_mean_hesitations raw < 0 /\ max_acceptable_hesitations b == 0).
Proof.
  unfold _normalize_metrics.
  destruct (time_score_range (r_mean_time raw) (max_acceptable_time b))
    as (t & -> & _).
  destruct (inverse_score_range (py_max 0 (r_mean_detour raw - 1))
              (max_acceptable_detour b - 1) (py_max_0_nonneg _))
    as (d & -> & _).
  destruct (direct_score_range (r_visual_integration raw)
              (min_visual_integration b) (max_visual_integration b))
    as (v & Hv & _).
  destruct (direct_score_range (r_signage_score raw)
              (min_signage_score b) (max_signage_score b)) as (s & Hs & _).
  destruct (direct_score_range (r_accessibility raw)
              (min_accessibility_score b) (max_accessibility_score b))
    as (a & Ha & _).
  cbn.
  destruct (inverse_score (r_mean_errors raw) (max_acceptable_errors b))
    as [e|] eqn:Ee; cbn.
  - destruct (inverse_score (r_mean_hesitations raw)
                (max_acceptable_hesitations b)) as [h|] eqn:Eh; cbn.
    + rewrite Hv, Hs, Ha. cbn. split; [discriminate|].
      intros [H|H]; apply inverse_score_None in H; congruence.
    + split; [|reflexivity]. intros _. right.
      apply inverse_score_None, Eh.
  - split; [|reflexivity]. intros _. left. apply inverse_score_None, Ee.
Qed.

(** *** The score as a function of the raw metrics *)

Lemma compute_wes_score_pointwise (w : WESWeights) (m1 m2 : NormalizedMetrics) :
  weights_nonneg w ->
  (forall k, nm_get m1 k <= nm_get m2 k) ->
  _compute_wes_score w m1 <= _compute_wes_score w m2.
Proof.
  intros Hw Hle. rewrite !compute_wes_score_unfold. apply clamp_mono.
  assert (Hp : forall k, weight_of w k * nm_get m1 k <= weight_of w k * nm_get m2 k).
  { intros k. rewrite !(Qmult_comm (weight_of w k)).
    apply Qmult_le_compat_r; [apply Hle | apply Hw]. }
  pose proof (Hp Time) as H1. pose proof (Hp Detour) as H2.
  pose proof (Hp Errors) as H3. pose proof (Hp Hesitations) as H4.
  pose proof (Hp VisualIntegration) as H5. pose proof (Hp Signage) as H6.
  pose proof (Hp Accessibility) as H7.
  cbn in H1, H2, H3, H4, H5, H6, H7. lra.
Qed.

Lemma normalize_metrics_pointwise (b : NormalizationBenchmarks)
    (raw1 raw2 : RawMetrics) (m1 m2 : NormalizedMetrics) :
  0 <= r_mean_errors raw2 ->
  0 <= r_mean_hesitations raw2 ->
  no_worse raw1 raw2 ->
  _normalize_metrics b raw1 = Some m1 ->
  _normalize_metrics b raw2 = Some m2 ->
  forall k, nm_get m1 k <= nm_get m2 k.
Proof.
  intros He Hh (Ht & Hd & Hee & Hhh & Hv & Hs & Ha) H1 H2.
  apply normalize_metrics_Some in H1 as (T1 & D1 & E1 & S1 & V1 & G1 & A1).
  apply normalize_metrics_Some in H2 as (T2 & D2 & E2 & S2 & V2 & G2 & A2).
  intros k. destruct k; cbn.
  - destruct (time_score_range (r_mean_time raw1) (max_acceptable_time b))
      as (u1 & Hu1 & Hr1).
    rewrite Hu1 in T1. injection T1 as <-.
    destruct (Qle_bool (r_mean_time raw2) 0) eqn:F2.
    + injection T2 as <-. lra.
    + apply Qle_bool_false in F2.
      destruct (Qle_bool (r_mean_time raw1) 0) eqn:F1.
      { apply Qle_bool_iff in F1. lra. }
      eapply (inverse_score_antitone (r_mean_time raw1) (r_mean_time raw2));
        [lra | exact Ht | exact Hu1 | exact T2].
  - eapply (inverse_score_antitone _ _ _ _ _ (py_max_0_nonneg _) _ D1 D2).
    Unshelve. apply py_max_mono. lra.
  - eapply (inverse_score_antitone _ _ _ _ _ He Hee E1 E2).
  - eapply (inverse_score_antitone _ _ _ _ _ Hh Hhh S1 S2).
  - eapply (direct_score_monotone _ _ _ _ _ _ Hv V1 V2).
  - eapply (direct_score_monotone _ _ _ _ _ _ Hs G1 G2).
  - eapply (direct_score_monotone _ _ _ _ _ _ Ha A1 A2).
Qed.

Lemma calculate_wes_score (w : WESWeights) (b : NormalizationBenchmarks)
    (raw : RawMetrics) (r : WESResult) :
  calculate_wes w b raw = Some r ->
  _normalize_metrics b raw = Some (normalized_metrics r) /\
  wes_score r = _compute_wes_score w (normalized_metrics r) /\
  grade r = _get_grade (wes_score r) /\
  interpretation r = _interpret_wes (wes_score r) /\
  _compare_to_benchmarks b raw = Some (benchmark_comparison r) /\
  component_contributions r
    = _calculate_component_contributions w (normalized_metrics r).
Proof.
  unfold calculate_wes. intros H.
  destruct (_normalize_metrics b raw) as [nm|]; [|discriminate]. cbn in H.
  destruct (_compare_to_benchmarks b raw) as [c|]; [|discriminate]. cbn in H.
  injection H as <-. cbn. repeat split.
Qed.

(** X3: with non-negative weights, raw metrics that are no worse in any of
    the seven dimensions (no more time, detour, errors or hesitations, no
    less visual integration, signage or accessibility) never get a lower WES
    score. *)
Theorem wes_improves_with_raw (w : WESWeights) (b : NormalizationBenchmarks)
    (raw1 raw2 : RawMetrics) (r1 r2 : WESResult) :
  weights_nonneg w ->
  0 <= r_mean_errors raw2 ->
  0 <= r_mean_hesitations raw2 ->
  no_worse raw1 raw2 ->
  calculate_wes w b raw1 = Some r1 ->
  calculate_wes w b raw2 = Some r2 ->
  wes_score r1 <= wes_score r2.
Proof.
  intros Hw He Hh Hnw H1 H2.
  apply calculate_wes_score in H1 as (N1 & -> & _).
  apply calculate_wes_score in H2 as (N2 & -> & _).
  apply compute_wes_score_pointwise; [exact Hw|].
  eapply normalize_metrics_pointwise; eassumption.
Qed.

Lemma wes_improves_with_raw_witness :
  exists r1 r2,
    calculate_wes default_weights default_benchmarks sample_raw = Some r1 /\
    calculate_wes default_weights default_benchmarks better_raw = Some r2 /\
    wes_score r1 <= wes_score r2.
Proof.
  eexists. eexists. split; [reflexivity|]. split; [reflexivity|].
  apply (wes_improves_with_raw default_weights default_benchmarks
           sample_raw better_raw).
  - exact default_weights_nonneg.
  - vm_compute. discriminate.
  - vm_compute. discriminate.
  - unfold no_worse. repeat split; vm_compute; discriminate.
  - reflexivity.
  - reflexivity.
Defined.

(** *** Contributions *)

Lemma clamp_compat (a b : Q) :
  a == b -> py_max 0 (py_min 100 a) == py_max 0 (py_min 100 b).
Proof.
  intros H. apply Qle_antisym; apply clamp_mono; rewrite H; apply Qle_refl.
Qed.

(** X4: the WES score is 100 plus the sum of the seven signed component
    contributions, clamped to [0, 100]. *)
Theorem score_from_contributions (w : WESWeights) (nm : NormalizedMetrics) :
  _compute_wes_score w nm ==
  py_max 0 (py_min 100
    (100 + Qsum (map snd (_calculate_component_contributions w nm)))).
Proof.
  rewrite compute_wes_score_unfold. apply clamp_compat.
  unfold _calculate_component_contributions. cbn. ring.
Qed.

(** X5: with non-negative weights and normalized values in [0, 1], the four
    penalty contributions are never positive and the three bonus
    contributions never negative. *)
Theorem contribution_signs (w : WESWeights) (nm : NormalizedMetrics)
    (k : Metric) (c : Q) :
  weights_nonneg w ->
  in_unit_range nm ->
  In (k, c) (_calculate_component_contributions w nm) ->
  match k with
  | Time | Detour | Errors | Hesitations => c <= 0
  | VisualIntegration | Signage | Accessibility => 0 <= c
  end.
Proof.
  intros Hw Hr Hin.
  assert (Hpen : forall d, 0 <= weight_of w d * (1 - nm_get nm d)).
  { intros d. apply Qmult_le_0_compat; [apply Hw|]. specialize (Hr d). lra. }
  assert (Hbon : forall d, 0 <= weight_of w d * nm_get nm d).
  { intros d. apply Qmult_le_0_compat; [apply Hw | apply Hr]. }
  unfold _calculate_component_contributions in Hin. cbn in Hin.
  destruct Hin as [E|[E|[E|[E|[E|[E|[E|[]]]]]]]]; injection E as <- <-.
  - specialize (Hpen Time). cbn in Hpen. lra.
  - specialize (Hpen Detour). cbn in Hpen. lra.
  - specialize (Hpen Errors). cbn in Hpen. lra.
  - specialize (Hpen Hesitations). cbn in Hpen. lra.
  - exact (Hbon VisualIntegration).
  - exact (Hbon Signage).
  - exact (Hbon Accessibility).
Qed.

Lemma contribution_signs_witness :
  (- time default_weights * (1 - nm_time only_time_low)) <= 0.
Proof.
  apply (contribution_signs default_weights only_time_low Time).
  - exact default_weights_nonneg.
  - intros k. destruct k; vm_compute; split; discriminate.
  - cbn. left. reflexivity.
Defined.

(** *** Grades and interpretation *)

Ltac split_bands :=
  repeat match goal with
  | |- context [Qle_bool ?a ?b] =>
      let E := fresh "E" in
      destruct (Qle_bool a b) eqn:E;
      [apply Qle_bool_iff in E | apply Qle_bool_false in E]
  end.

(** X6: the interpretation and the letter grade come from consistent bands:
    "Excellent" goes with A+, "Good" with A, A- and B+, "Acceptable" with B,
    B- and C+, "Poor" with C, C- and D, and "Critical" with F. *)
Theorem interpretation_matches_grade (s : Q) :
  (_interpret_wes s = _interpret_wes 90 <-> _get_grade s = "A+"%string) /\
  (_interpret_wes s = _interpret_wes 75 <->
     In (_get_grade s) ["A"; "A-"; "B+"]%string) /\
  (_interpret_wes s = _interpret_wes 60 <->
     In (_get_grade s) ["B"; "B-"; "C+"]%string) /\
  (_interpret_wes s = _interpret_wes 45 <->
     In (_get_grade s) ["C"; "C-"; "D"]%string) /\
  (_interpret_wes s = _interpret_wes 0 <-> _get_grade s = "F"%string).
Proof.
  change (_interpret_wes 90) with (
    "ممتاز - تصميم استثنائي يتجاوز المعايير البحثية | Excellent - Exceptional design exceeding research standards"%string).
  change (_interpret_wes 75) with (
    "جيد - أداء قوي مع إمكانية تحسينات طفيفة | Good - Strong performance with minor improvement opportunities"%string).
  change (_interpret_wes 60) with (
    "مقبول - أداء معقول مع وجود مشاكل ملحوظة | Acceptable - Reasonable performance with notable issues"%string).
  change (_interpret_wes 45) with (
    "ضعيف - مشاكل كبيرة تتطلب إعادة تصميم | Poor - Significant problems requiring redesign"%string).
  change (_interpret_wes 0) with (
    "حرج - قصور جوهري يتطلب إصلاح شامل | Critical - Fundamental deficiencies requiring comprehensive overhaul"%string).
  unfold _interpret_wes, _get_grade.
  split_bands; try lra;
    repeat split; intros; cbn [In] in *;
    try discriminate; try reflexivity; try tauto;
    intuition discriminate.
Qed.

(** X7: with non-negative weights whose four penalty weights sum to at most
    55 (the default configuration) and normalized values in [0, 1], the score
    is at least 45: the grade is never F and the bottom band of the scale is
    never reached. *)
Theorem score_floor (w : WESWeights) (nm : NormalizedMetrics) :
  weights_nonneg w ->
  time w + detour w + errors w + hesitations w <= 55 ->
  in_unit_range nm ->
  45 <= _compute_wes_score w nm /\
  _get_grade (_compute_wes_score w nm) <> "F"%string /\
  _interpret_wes (_compute_wes_score w nm) <> _interpret_wes 0.
Proof.
  intros Hw Hp Hr.
  assert (H45 : 45 <= _compute_wes_score w nm).
  { rewrite compute_wes_score_unfold.
    assert (Hpen : forall d, weight_of w d * (1 - nm_get nm d) <= weight_of w d).
    { intros d. specialize (Hw d). specialize (Hr d).
      rewrite <- (Qmult_1_r (weight_of w d)) at 2.
      rewrite !(Qmult_comm (weight_of w d)).
      apply Qmult_le_compat_r; [lra | exact Hw]. }
    assert (Hbon : forall d, 0 <= weight_of w d * nm_get nm d).
    { intros d. apply Qmult_le_0_compat; [apply Hw | apply Hr]. }
    pose proof (Hpen Time) as P1. pose proof (Hpen Detour) as P2.
    pose proof (Hpen Errors) as P3. pose proof (Hpen Hesitations) as P4.
    pose proof (Hbon VisualIntegration) as B1. pose proof (Hbon Signage) as B2.
    pose proof (Hbon Accessibility) as B3.
    cbn in P1, P2, P3, P4, B1, B2, B3.
    set (raw := (_ + _)%Q).
    assert (Hraw : 45 <= raw) by (unfold raw; lra).
    eapply Qle_trans; [|apply py_max_lub].
    unfold py_min. destruct (Qlt_bool raw 100); [exact Hraw | lra]. }
  split; [exact H45|].
  assert (HD : Qle_bool 45 (_compute_wes_score w nm) = true)
    by (apply Qle_bool_iff, H45).
  split.
  - unfold _get_grade. rewrite HD.
    repeat match goal with
    | |- context [Qle_bool ?a ?b] => destruct (Qle_bool a b)
    end; discriminate.
  - change (_interpret_wes 0) with (
      "حرج - قصور جوهري يتطلب إصلاح شامل | Critical - Fundamental deficiencies requiring comprehensive overhaul"%string).
    unfold _interpret_wes. rewrite HD.
    repeat match goal with
    | |- context [Qle_bool ?a ?b] => destruct (Qle_bool a b)
    end; discriminate.
Qed.

Lemma score_floor_witness :
  45 <= _compute_wes_score default_weights (all_equal 0) /\
  _get_grade (_compute_wes_score default_weights (all_equal 0)) <> "F"%string /\
  _interpret_wes (_compute_wes_score default_weights (all_equal 0))
    <> _interpret_wes 0.
Proof.
  apply (score_floor default_weights (all_equal 0)).
  - exact default_weights_nonneg.
  - vm_compute. discriminate.
  - intros k. destruct k; vm_compute; split; discriminate.
Defined.

(** *** Benchmark comparison *)

Lemma penalty_comparison_Some (raw bench : Q) (c : Comparison) :
  penalty_comparison raw bench = Some c ->
  ~ bench == 0 /\ meets_standard c = Qle_bool raw bench.
Proof.
  unfold penalty_comparison. destruct (qdiv raw bench) eqn:E; [|discriminate].
  cbn. intros [= <-]. split; [|reflexivity].
  intros Hb. pose proof (proj2 (qdiv_None raw bench) Hb). congruence.
Qed.

Lemma compare_to_benchmarks_Some (b : NormalizationBenchmarks) (raw : RawMetrics)
    (cmp : list (Metric * Comparison)) (sm : ComparisonSummary) :
  _compare_to_benchmarks b raw = Some (cmp, sm) ->
  exists c1 c2 c3 c4,
    penalty_comparison (r_mean_time raw) (max_acceptable_time b) = Some c1 /\
    penalty_comparison (r_mean_detour raw) (max_acceptable_detour b) = Some c2 /\
    penalty_comparison (r_mean_errors raw) (max_acceptable_errors b) = Some c3 /\
    penalty_comparison (r_mean_hesitations raw) (max_acceptable_hesitations b)
      = Some c4 /\
    cmp = [(Time, c1); (Detour, c2); (Errors, c3); (Hesitations, c4);
           (VisualIntegration,
            bonus_comparison (r_visual_integration raw)
              (min_visual_integration b) (max_visual_integration b));
           (Signage,
            bonus_comparison (r_signage_score raw)
              (min_signage_score b) (max_signage_score b));
           (Accessibility,
            bonus_comparison (r_accessibility raw)
              (min_accessibility_score b) (max_accessibility_score b))] /\
    total_benchmarks sm = 7%nat /\
    met_benchmarks sm
      = length (filter (fun kc => meets_standard (snd kc) = true) cmp) /\
    compliance_percentage sm
      = inject_Z (Z.of_nat (met_benchmarks sm)) / inject_Z (Z.of_nat 7) * 100.
Proof.
  unfold _compare_to_benchmarks. intros H.
  destruct (penalty_comparison (r_mean_time raw) _) as [c1|]; [|discriminate].
  destruct (penalty_comparison (r_mean_detour raw) _) as [c2|]; [|discriminate].
  destruct (penalty_comparison (r_mean_errors raw) _) as [c3|]; [|discriminate].
  destruct (penalty_comparison (r_mean_hesitations raw) _) as [c4|];
    [|discriminate].
  cbn [mbind option_bind] in H.
  set (cmp0 := [(Time, c1); _; _; _; _; _; _]) in H.
  change (length cmp0) with 7%nat in H.
  rewrite qdiv_Some in H by (vm_compute; discriminate).
  cbn [mbind option_bind] in H. injection H as <- <-.
  exists c1, c2, c3, c4. repeat split.
Qed.

(** X8: the benchmark comparison divides by zero exactly when one of the
    four penalty benchmarks is zero (the percentage is then [inf] or [nan]
    for a mean over scenarios, and the division raises for the constants of
    no scenario); otherwise every number is finite, seven benchmarks are
    reported, of which at most seven are met, and the compliance lies
    between 0 and 100 percent. *)
Theorem compare_to_benchmarks_finite (b : NormalizationBenchmarks) (raw : RawMetrics) :
  (_compare_to_benchmarks b raw = None <->
     max_acceptable_time b == 0 \/ max_acceptable_detour b == 0 \/
     max_acceptable_errors b == 0 \/ max_acceptable_hesitations b == 0) /\
  (forall cmp sm, _compare_to_benchmarks b raw = Some (cmp, sm) ->
     length cmp = 7%nat /\ total_benchmarks sm = 7%nat /\
     (met_benchmarks sm <= 7)%nat /\
     0 <= compliance_percentage sm <= 100).
Proof.
  split.
  - destruct (_compare_to_benchmarks b raw) as [[cmp sm]|] eqn:E.
    + split; [discriminate|]. intros Hz.
      apply compare_to_benchmarks_Some in E
        as (c1 & c2 & c3 & c4 & H1 & H2 & H3 & H4 & _).
      apply penalty_comparison_Some in H1 as [N1 _].
      apply penalty_comparison_Some in H2 as [N2 _].
      apply penalty_comparison_Some in H3 as [N3 _].
      apply penalty_comparison_Some in H4 as [N4 _]. tauto.
    + split; [|reflexivity]. intros _.
      unfold _compare_to_benchmarks, penalty_comparison in E.
      destruct (Qeq_bool (max_acceptable_time b) 0) eqn:Z1;
        [left; apply Qeq_bool_iff, Z1|].
      destruct (Qeq_bool (max_acceptable_detour b) 0) eqn:Z2;
        [right; left; apply Qeq_bool_iff, Z2|].
      destruct (Qeq_bool (max_acceptable_errors b) 0) eqn:Z3;
        [right; right; left; apply Qeq_bool_iff, Z3|].
      destruct (Qeq_bool (max_acceptable_hesitations b) 0) eqn:Z4;
        [right; right; right; apply Qeq_bool_iff, Z4|].
      exfalso. unfold qdiv in E. rewrite Z1, Z2, Z3, Z4 in E.
      cbn [mbind option_bind] in E.
      match type of E with
      | context [length ?l] => change (length l) with 7%nat in E
      end.
      change (Qeq_bool (inject_Z (Z.of_nat 7)) 0) with false in E.
      cbn [mbind option_bind] in E. discriminate E.
  - intros cmp sm E.
    apply compare_to_benchmarks_Some in E
      as (c1 & c2 & c3 & c4 & _ & _ & _ & _ & -> & Ht & Hm & Hc).
    assert (Hle : (met_benchmarks sm <= 7)%nat).
    { rewrite Hm. etransitivity; [apply length_filter|]. reflexivity. }
    split; [reflexivity|]. split; [exact Ht|]. split; [exact Hle|].
    rewrite Hc.
    assert (H0 : 0 <= inject_Z (Z.of_nat (met_benchmarks sm))).
    { change 0 with (inject_Z 0). rewrite <- Zle_Qle. lia. }
    assert (H7 : inject_Z (Z.of_nat (met_benchmarks sm)) <= inject_Z (Z.of_nat 7)).
    { rewrite <- Zle_Qle. lia. }
    pose proof (Qdiv_unit _ (inject_Z (Z.of_nat 7)) ltac:(reflexivity) H0 H7).
    lra.
Qed.

Lemma time_score_positive (raw bench v : Q) :
  (if Qle_bool raw 0 then Some 1 else inverse_score raw bench) = Some v ->
  0 < v -> raw <= bench \/ raw <= 0.
Proof.
  destruct (Qle_bool raw 0) eqn:E.
  - apply Qle_bool_iff in E. tauto.
  - unfold inverse_score. destruct (Qle_bool bench raw) eqn:F.
    + intros [= <-]. lra.
    + apply Qle_bool_false in F. intros _ _. left. lra.
Qed.

Lemma inverse_score_positive (raw bench v : Q) :
  inverse_score raw bench = Some v -> 0 < v -> raw < bench.
Proof.
  unfold inverse_score. destruct (Qle_bool bench raw) eqn:F.
  - intros [= <-]. lra.
  - apply Qle_bool_false in F. intros _ _. exact F.
Qed.

Lemma direct_score_positive (raw lo hi v : Q) :
  direct_score raw lo hi = Some v -> 0 < v -> lo < raw.
Proof.
  unfold direct_score. destruct (Qle_bool raw lo) eqn:F.
  - intros [= <-]. lra.
  - apply Qle_bool_false in F. intros _ _. exact F.
Qed.

(** X9: normalisation and benchmark comparison agree: a dimension with a
    positive normalized value meets its benchmark, provided the travel time
    is positive (a non-positive time is normalised to 1 whatever the
    benchmark). *)
Theorem positive_score_meets_standard (b : NormalizationBenchmarks)
    (raw : RawMetrics) (nm : NormalizedMetrics)
    (cmp : list (Metric * Comparison)) (sm : ComparisonSummary)
    (k : Metric) (c : Comparison) :
  0 < r_mean_time raw ->
  _normalize_metrics b raw = Some nm ->
  _compare_to_benchmarks b raw = Some (cmp, sm) ->
  In (k, c) cmp ->
  0 < nm_get nm k ->
  meets_standard c = true.
Proof.
  intros Htime Hn Hc Hin Hpos.
  apply normalize_metrics_Some in Hn as (T & D & E & S & V & G & A).
  apply compare_to_benchmarks_Some in Hc
    as (c1 & c2 & c3 & c4 & H1 & H2 & H3 & H4 & -> & _).
  apply penalty_comparison_Some in H1 as [_ M1].
  apply penalty_comparison_Some in H2 as [_ M2].
  apply penalty_comparison_Some in H3 as [_ M3].
  apply penalty_comparison_Some in H4 as [_ M4].
  cbn [In] in Hin.
  destruct Hin as [X|[X|[X|[X|[X|[X|[X|[]]]]]]]];
    injection X as <- <-; cbn [nm_get] in Hpos.
  - rewrite M1. apply Qle_bool_iff.
    destruct (time_score_positive _ _ _ T Hpos); lra.
  - rewrite M2. apply Qle_bool_iff.
    apply inverse_score_positive in D; [|exact Hpos].
    unfold py_max in D.
    destruct (Qlt_bool 0 (r_mean_detour raw - 1)) eqn:F.
    + lra.
    + apply Qlt_bool_false_iff in F. lra.
  - rewrite M3. apply Qle_bool_iff.
    apply inverse_score_positive in E; [lra | exact Hpos].
  - rewrite M4. apply Qle_bool_iff.
    apply inverse_score_positive in S; [lra | exact Hpos].
  - cbn. apply Qle_bool_iff.
    apply direct_score_positive in V; [lra | exact Hpos].
  - cbn. apply Qle_bool_iff.
    apply direct_score_positive in G; [lra | exact Hpos].
  - cbn. apply Qle_bool_iff.
    apply direct_score_positive in A; [lra | exact Hpos].
Qed.

Lemma positive_score_meets_standard_witness :
  meets_standard
    (bonus_comparison (r_signage_score sample_raw)
       (min_signage_score default_benchmarks)
       (max_signage_score default_benchmarks)) = true.
Proof.
  eapply (positive_score_meets_standard default_benchmarks sample_raw _ _ _
            Signage).
  - vm_compute. reflexivity.
  - reflexivity.
  - reflexivity.
  - cbn [In]. do 5 right. left. reflexivity.
  - vm_compute. reflexivity.
Defined.

(** *** Construction, again *)

(** X10: the weights that a constructor call stores are accepted unchanged
    by a second call: renormalising is idempotent. *)
Theorem init_idempotent (w w' : WESWeights) :
  init w = Some w' -> init w' = Some w'.
Proof.
  unfold init. destruct (validate w) eqn:E.
  - intros [= <-]. rewrite E. reflexivity.
  - intros Hn. apply normalize_weights_total in Hn as [Ht _].
    assert (Hv : validate w' = true).
    { apply validate_true_iff.
      assert (H0 : total w' - 100 == 0) by (rewrite Ht; ring).
      rewrite H0. reflexivity. }
    rewrite Hv. reflexivity.
Qed.

Lemma init_idempotent_witness :
  exists w', init weights_doubled = Some w' /\ init w' = Some w'.
Proof.
  eexists. split; [vm_compute; reflexivity|].
  apply (init_idempotent weights_doubled).
  vm_compute. reflexivity.
Defined.

(** *** No simulated scenario *)

Lemma clamp_above (raw : Q) : 100 <= raw -> py_max 0 (py_min 100 raw) = 100.
Proof.
  intros H. unfold py_min.
  assert (E : Qlt_bool raw 100 = false) by (apply Qlt_bool_false_iff, H).
  rewrite E. reflexivity.
Qed.

Lemma inverse_score_zero (bench v : Q) :
  0 < bench -> inverse_score 0 bench = Some v -> v == 1.
Proof.
  intros Hb. unfold inverse_score.
  assert (E : Qle_bool bench 0 = false) by (apply Qle_bool_false, Hb).
  rewrite E, qdiv_Some by lra. cbn. intros [= <-]. field. lra.
Qed.

(** X11: when the simulation results hold no scenario, the four penalties
    take their best raw values (time 0, detour 1, no error, no hesitation);
    with non-negative weights and benchmarks that leave room (maximum detour
    above 1, positive error and hesitation maxima) the score is then 100 and
    the grade A+, whatever the visibility, signage and accessibility inputs
    are. *)
Theorem no_scenario_scores_100 (w : WESWeights) (b : NormalizationBenchmarks)
    (mean_visual_integration composite_signage_score mean_integration : option Q)
    (r : WESResult) :
  weights_nonneg w ->
  1 < max_acceptable_detour b ->
  0 < max_acceptable_errors b ->
  0 < max_acceptable_hesitations b ->
  calculate_wes w b
    (_extract_raw_metrics [] mean_visual_integration composite_signage_score
                          mean_integration) = Some r ->
  wes_score r = 100 /\ grade r = "A+"%string.
Proof.
  intros Hw Hd He Hh Hr.
  apply calculate_wes_score in Hr as (Hn & Hs & Hg & _).
  assert (H100 : wes_score r = 100).
  { rewrite Hs.
    apply normalize_metrics_Some in Hn as (T & D & E & S & V & G & A).
    cbn in T, D, E, S, V, G, A.
    change (Qle_bool 0 0) with true in T. injection T as T.
    change (py_max 0 (1 - 1)) with 0 in D.
    apply inverse_score_zero in D; [|lra].
    apply inverse_score_zero in E; [|exact He].
    apply inverse_score_zero in S; [|exact Hh].
    destruct (direct_score_range (default 0.5 mean_visual_integration)
                (min_visual_integration b) (max_visual_integration b))
      as (v & Hv & Rv).
    destruct (direct_score_range (default 50 composite_signage_score)
                (min_signage_score b) (max_signage_score b)) as (g & Hg' & Rg).
    destruct (direct_score_range (default 0.5 mean_integration)
                (min_accessibility_score b) (max_accessibility_score b))
      as (a & Ha & Ra).
    rewrite Hv in V. rewrite Hg' in G. rewrite Ha in A.
    injection V as V. injection G as G. injection A as A.
    rewrite compute_wes_score_unfold. apply clamp_above.
    rewrite <- T, <- V, <- G, <- A, D, E, S.
    pose proof (Qmult_le_0_compat _ _ (Hw VisualIntegration) (proj1 Rv)) as B1.
    pose proof (Qmult_le_0_compat _ _ (Hw Signage) (proj1 Rg)) as B2.
    pose proof (Qmult_le_0_compat _ _ (Hw Accessibility) (proj1 Ra)) as B3.
    cbn in B1, B2, B3. lra. }
  split; [exact H100|]. rewrite Hg, H100. reflexivity.
Qed.

Lemma no_scenario_scores_100_witness :
  exists r,
    calculate_wes default_weights default_benchmarks
      (_extract_raw_metrics [] None None None) = Some r /\
    wes_score r = 100 /\ grade r = "A+"%string.
Proof.
  eexists. split; [reflexivity|].
  apply (no_scenario_scores_100 default_weights default_benchmarks
           None None None).
  - exact default_weights_nonneg.
  - vm_compute. reflexivity.
  - vm_compute. reflexivity.
  - vm_compute. reflexivity.
  - reflexivity.
Defined.

End WES_pipeline_properties.

(** ** The Space Syntax engine *)

Section SpaceSyntax_properties.
Import Py SpaceSyntax.
Local Open Scope R_scope.

(** *** Division and the normalising constant *)

Lemma fdiv_Some (x y : R) : y <> 0 -> fdiv x y = Some (x / y).
Proof. intros H. unfold fdiv. destruct (Req_dec_T y 0); [contradiction|reflexivity]. Qed.

Lemma INR_gt_2 (k : nat) : (2 < k)%nat -> 2 < INR k.
Proof. intros H. apply lt_INR in H. simpl in H. lra. Qed.

Lemma get_dk_value_announced (k : nat) :
  (2 < k)%nat -> _get_dk_value k = announced_dk k.
Proof.
  intros H. unfold _get_dk_value, announced_dk.
  destruct (k <? 3)%nat eqn:E; [apply Nat.ltb_lt in E; lia|reflexivity].
Qed.

Lemma get_dk_value_pos (k : nat) : 0 < _get_dk_value k.
Proof.
  unfold _get_dk_value.
  destruct (k <? 3)%nat eqn:E3; [lra|].
  apply Nat.ltb_ge in E3.
  assert (H3 : 3 <= INR k) by (apply le_INR in E3; simpl in E3; lra).
  destruct (k <=? 10)%nat; [lra|].
  destruct (k <=? 100)%nat.
  - assert (0 < sqrt (INR k - 1)) by (apply sqrt_lt_R0; lra). lra.
  - assert (0 < ln (INR k)).
    { rewrite <- ln_1. apply ln_increasing; lra. }
    lra.
Qed.

(** *** Integration *)

(** The shape of an entry when the graph has more than two nodes and the
    node reaches at least one other node. *)
Lemma integration_of_node_eq (weighted : bool) (g : Graph) (node : string) :
  (2 < number_of_nodes g)%nat ->
  (1 < length (values (path_lengths weighted g node)))%nat ->
  let depths := values (path_lengths weighted g node) in
  let k := number_of_nodes g in
  let md := Q2R (Qsum depths) / INR (length depths) in
  let a := 2 * (md - 1) / (INR k - 2) in
  let r := a / _get_dk_value k in
  integration_of_node weighted g node =
    Some (mkEntry (if Rlt_dec 0 r then 1 / r else 0) a r md).
Proof.
  intros Hk Hlen depths k md a r.
  unfold integration_of_node. fold k depths.
  assert (Hlen' : (1 <? length depths)%nat = true) by (apply Nat.ltb_lt, Hlen).
  assert (Hk' : (2 <? k)%nat = true) by (apply Nat.ltb_lt, Hk).
  rewrite Hlen', Hk'.
  assert (Hl : INR (length depths) <> 0).
  { apply not_0_INR. unfold depths. lia. }
  rewrite (fdiv_Some _ _ Hl). cbn [mbind option_bind]. fold md.
  assert (Hk2 : INR k - 2 <> 0) by (pose proof (INR_gt_2 k Hk); lra).
  rewrite (fdiv_Some _ _ Hk2). cbn [mbind option_bind]. fold a.
  pose proof (get_dk_value_pos k) as Hd.
  destruct (Rlt_dec 0 (_get_dk_value k)) as [_|Hn]; [|contradiction].
  rewrite fdiv_Some by lra. cbn [mbind option_bind]. fold r.
  destruct (Rlt_dec 0 r) as [Hr|Hr].
  - rewrite fdiv_Some by lra. reflexivity.
  - reflexivity.
Qed.

(** A node that reaches no other node gets zeros throughout, and with at
    most two nodes the value is 0. *)
Lemma integration_of_node_isolated (weighted : bool) (g : Graph) (node : string) :
  (length (values (path_lengths weighted g node)) <= 1)%nat ->
  integration_of_node weighted g node = Some (mkEntry 0 0 0 0).
Proof.
  intros H. unfold integration_of_node.
  apply Nat.ltb_ge in H. rewrite H. reflexivity.
Qed.

(** C4 (as the code behaves): in a graph with k > 2 nodes, for a node that
    reaches at least one other node and with MeanDepth the mean depth of its
    entry, RealAsymmetry = 2 (MeanDepth - 1) / (k - 2),
    RelativeRealAsymmetry = RealAsymmetry / D_k with D_k = k / 3 for k <= 10,
    2 sqrt (k - 1) for k <= 100 and 2 ln k otherwise, and Integration is
    1 / RelativeRealAsymmetry when that is positive and 0 otherwise. *)
Theorem integration_formula (weighted : bool) (g : Graph) (node : string) :
  (2 < number_of_nodes g)%nat ->
  (1 < length (values (path_lengths weighted g node)))%nat ->
  exists e,
    integration_of_node weighted g node = Some e /\
    ra e = 2 * (mean_depth e - 1) / (INR (number_of_nodes g) - 2) /\
    rra e = ra e / announced_dk (number_of_nodes g) /\
    (0 < rra e -> value e = 1 / rra e) /\
    (rra e <= 0 -> value e = 0).
Proof.
  intros Hk Hlen.
  pose proof (integration_of_node_eq weighted g node Hk Hlen) as H.
  cbv zeta in H. rewrite (get_dk_value_announced _ Hk) in H.
  rewrite H. eexists. split; [reflexivity|].
  cbn [ra rra value mean_depth].
  destruct (Rlt_dec 0 _) as [Hr|Hr]; repeat split; intros; lra.
Qed.

(** C5: in a graph with more than two nodes, connected or not, the entry of
    every node is made of finite numbers and its integration value is
    non-negative. *)
Theorem integration_finite_nonneg (weighted : bool) (g : Graph) (node : string) :
  (2 < number_of_nodes g)%nat ->
  In node (nodes g) ->
  exists e, integration_of_node weighted g node = Some e /\ 0 <= value e.
Proof.
  intros Hk _.
  destruct (le_lt_dec (length (values (path_lengths weighted g node))) 1) as [Hl|Hl].
  - rewrite integration_of_node_isolated by exact Hl.
    eexists. split; [reflexivity|]. simpl. lra.
  - pose proof (integration_of_node_eq weighted g node Hk Hl) as H.
    cbv zeta in H. rewrite H. eexists. split; [reflexivity|]. cbn [value].
    destruct (Rlt_dec 0 _) as [Hr|Hr]; [|lra].
    apply Rlt_le. unfold Rdiv. rewrite Rmult_1_l. apply Rinv_0_lt_compat, Hr.
Qed.

Lemma integration_formula_witness :
  exists e,
    integration_of_node true entrance_route "entrance" = Some e /\
    ra e = 2 * (mean_depth e - 1) / (INR (number_of_nodes entrance_route) - 2) /\
    rra e = ra e / announced_dk (number_of_nodes entrance_route) /\
    (0 < rra e -> value e = 1 / rra e) /\
    (rra e <= 0 -> value e = 0).
Proof.
  apply (integration_formula true entrance_route "entrance").
  - vm_compute. lia.
  - vm_compute. lia.
Defined.

Lemma integration_finite_nonneg_witness :
  exists e, integration_of_node false entrance_route "node_1" = Some e /\
            0 <= value e.
Proof.
  apply (integration_finite_nonneg false entrance_route "node_1").
  - vm_compute. lia.
  - simpl. tauto.
Defined.

(** Evaluate the rational under [Q2R] and expose it as a quotient. *)
Ltac eval_Q2R :=
  repeat match goal with
  | |- context [Q2R ?q] =>
      let q' := eval vm_compute in q in
      change (Q2R q) with (Q2R q'); unfold Q2R at 1; cbn [Qnum Qden]
  end.

(** The half-metre corridor seen from its middle node. *)
Lemma short_corridor_depths :
  values (path_lengths true short_corridor "b") = [1 # 2; 1 # 2; 0]%Q /\
  values (delete "b"%string (path_lengths true short_corridor "b"))
    = [1 # 2; 1 # 2]%Q.
Proof. split; vm_compute; reflexivity. Qed.

(** C4 as stated fails where the asymmetry is negative.  In the corridor
    a - b - c with edges of 0.5 the middle node is at mean distance 0.5 from
    the two others: the announced RealAsymmetry is 2 (0.5 - 1) / (3 - 2) = -1,
    D_3 = 1, and the announced Integration is 1 / (-1) = -1 (k > 2 and the
    asymmetry is not 0).  The code reports a negative RelativeRealAsymmetry
    too and returns the integration value 0. *)
Lemma integration_negative_asymmetry :
  exists e,
    integration_of_node true short_corridor "b" = Some e /\
    rra e < 0 /\
    value e = 0 /\
    announced_real_asymmetry true short_corridor "b" = -1 /\
    announced_integration true short_corridor "b" = -1 /\
    value e <> announced_integration true short_corridor "b".
Proof.
  destruct short_corridor_depths as [Hd Hd'].
  assert (Hk : number_of_nodes short_corridor = 3%nat) by reflexivity.
  assert (Hdk : _get_dk_value 3 = 1).
  { unfold _get_dk_value. simpl. lra. }
  assert (Hra : announced_real_asymmetry true short_corridor "b" = -1).
  { unfold announced_real_asymmetry, announced_mean_depth.
    rewrite Hd', Hk. eval_Q2R. simpl. lra. }
  assert (Hint : announced_integration true short_corridor "b" = -1).
  { unfold announced_integration. rewrite Hra, Hk.
    change (3 <=? 2)%nat with false. cbv iota.
    destruct (Req_dec_T (-1) 0) as [E|_]; [lra|].
    unfold announced_dk. simpl. lra. }
  pose proof (integration_of_node_eq true short_corridor "b") as H.
  specialize (H ltac:(rewrite Hk; lia) ltac:(rewrite Hd; simpl; lia)).
  cbv zeta in H. rewrite Hd, Hk, Hdk in H.
  eexists. split; [exact H|].
  cbn [rra value].
  assert (Hr : 2 * (Q2R (Qsum [1 # 2; 1 # 2; 0]%Q) / INR (length [1 # 2; 1 # 2; 0]%Q) - 1)
               / (INR 3 - 2) / 1 = - (4 / 3)).
  { eval_Q2R. simpl. lra. }
  rewrite Hr.
  destruct (Rlt_dec 0 (- (4 / 3))) as [E|_]; [lra|].
  rewrite Hint. repeat split; lra.
Qed.

(** The mean depth of an entry is the mean over every node reached, the
    node itself (at depth 0) included. *)
Lemma integration_mean_depth (weighted : bool) (g : Graph) (node : string) :
  (2 < number_of_nodes g)%nat ->
  (1 < length (values (path_lengths weighted g node)))%nat ->
  exists e,
    integration_of_node weighted g node = Some e /\
    mean_depth e = Q2R (Qsum (values (path_lengths weighted g node)))
                   / INR (length (values (path_lengths weighted g node))).
Proof.
  intros Hk Hlen.
  pose proof (integration_of_node_eq weighted g node Hk Hlen) as H.
  cbv zeta in H. rewrite H. eexists. split; reflexivity.
Qed.

(** The route entrance - node_1 - emergency, in hops, seen from its first
    node: the depths are 0, 1 and 2. *)
Lemma entrance_route_depths :
  values (path_lengths false entrance_route "entrance") = [2; 0; 1]%Q /\
  values (delete "entrance"%string (path_lengths false entrance_route "entrance"))
    = [2; 1]%Q.
Proof. split; vm_compute; reflexivity. Qed.

(** On that route the entry of the first node has mean depth (0 + 1 + 2) / 3
    = 1, hence asymmetry 0 and integration 0, where the mean over the two
    other nodes is 3 / 2 and the announced integration is 1. *)
Lemma integration_mean_includes_node :
  exists e,
    integration_of_node false entrance_route "entrance" = Some e /\
    mean_depth e = 1 /\
    ra e = 0 /\
    value e = 0 /\
    announced_mean_depth false entrance_route "entrance" = 3 / 2 /\
    announced_integration false entrance_route "entrance" = 1.
Proof.
  destruct entrance_route_depths as [Hd Hd'].
  assert (Hk : number_of_nodes entrance_route = 3%nat) by reflexivity.
  assert (Hdk : _get_dk_value 3 = 1).
  { unfold _get_dk_value. simpl. lra. }
  assert (Hmd : announced_mean_depth false entrance_route "entrance" = 3 / 2).
  { unfold announced_mean_depth. rewrite Hd'. eval_Q2R. simpl. lra. }
  assert (Hra : announced_real_asymmetry false entrance_route "entrance" = 1).
  { unfold announced_real_asymmetry. rewrite Hmd, Hk. simpl. lra. }
  assert (Hint : announced_integration false entrance_route "entrance" = 1).
  { unfold announced_integration. rewrite Hra, Hk.
    change (3 <=? 2)%nat with false. cbv iota.
    destruct (Req_dec_T 1 0) as [E|_]; [lra|].
    unfold announced_dk. simpl. lra. }
  pose proof (integration_of_node_eq false entrance_route "entrance") as H.
  specialize (H ltac:(rewrite Hk; lia) ltac:(rewrite Hd; simpl; lia)).
  cbv zeta in H. rewrite Hd, Hk, Hdk in H.
  eexists. split; [exact H|]. cbn [mean_depth ra value].
  assert (Hm : Q2R (Qsum [2; 0; 1]%Q) / INR (length [2; 0; 1]%Q) = 1).
  { eval_Q2R. simpl. lra. }
  rewrite Hm.
  assert (Hr : 2 * (1 - 1) / (INR 3 - 2) = 0) by (simpl; lra).
  rewrite Hr.
  destruct (Rlt_dec 0 (0 / 1)) as [E|_]; [lra|].
  repeat split; try reflexivity; assumption.
Qed.

(** The integration entries of [entrance_route_metrics] are the ones that the
    computation gives for the weighted route. *)
Lemma entrance_route_integration :
  (exists e, integration_of_node true entrance_route "entrance" = Some e /\
     value e = 3 / 50 /\ ra e = 50 / 3 /\ rra e = 50 / 3 /\
     mean_depth e = 28 / 3) /\
  (exists e, integration_of_node true entrance_route "node_1" = Some e /\
     value e = 1 / 10 /\ ra e = 10 /\ rra e = 10 /\ mean_depth e = 6) /\
  (exists e, integration_of_node true entrance_route "emergency" = Some e /\
     value e = 3 / 46 /\ ra e = 46 / 3 /\ rra e = 46 / 3 /\
     mean_depth e = 26 / 3).
Proof.
  assert (Hk : number_of_nodes entrance_route = 3%nat) by reflexivity.
  assert (Hdk : _get_dk_value 3 = 1).
  { unfold _get_dk_value. simpl. lra. }
  assert (H1 : values (path_lengths true entrance_route "entrance")
               = [18; 0; 10]%Q) by (vm_compute; reflexivity).
  assert (H2 : values (path_lengths true entrance_route "node_1")
               = [8; 10; 0]%Q) by (vm_compute; reflexivity).
  assert (H3 : values (path_lengths true entrance_route "emergency")
               = [0; 18; 8]%Q) by (vm_compute; reflexivity).
  repeat split.
  - pose proof (integration_of_node_eq true entrance_route "entrance") as H.
    specialize (H ltac:(rewrite Hk; lia) ltac:(rewrite H1; simpl; lia)).
    cbv zeta in H. rewrite H1, Hk, Hdk in H.
    eexists. split; [exact H|]. cbn [mean_depth ra rra value].
    assert (Hm : Q2R (Qsum [18; 0; 10]%Q) / INR (length [18; 0; 10]%Q) = 28 / 3).
    { eval_Q2R. simpl. lra. }
    rewrite Hm.
    replace (2 * (28 / 3 - 1) / (INR 3 - 2)) with (50 / 3) by (simpl; lra).
    replace (50 / 3 / 1) with (50 / 3) by lra.
    destruct (Rlt_dec 0 (50 / 3)) as [_|E]; [|lra].
    repeat split; lra.
  - pose proof (integration_of_node_eq true entrance_route "node_1") as H.
    specialize (H ltac:(rewrite Hk; lia) ltac:(rewrite H2; simpl; lia)).
    cbv zeta in H. rewrite H2, Hk, Hdk in H.
    eexists. split; [exact H|]. cbn [mean_depth ra rra value].
    assert (Hm : Q2R (Qsum [8; 10; 0]%Q) / INR (length [8; 10; 0]%Q) = 6).
    { eval_Q2R. simpl. lra. }
    rewrite Hm.
    replace (2 * (6 - 1) / (INR 3 - 2)) with 10 by (simpl; lra).
    replace (10 / 1) with 10 by lra.
    destruct (Rlt_dec 0 10) as [_|E]; [|lra].
    repeat split; lra.
  - pose proof (integration_of_node_eq true entrance_route "emergency") as H.
    specialize (H ltac:(rewrite Hk; lia) ltac:(rewrite H3; simpl; lia)).
    cbv zeta in H. rewrite H3, Hk, Hdk in H.
    eexists. split; [exact H|]. cbn [mean_depth ra rra value].
    assert (Hm : Q2R (Qsum [0; 18; 8]%Q) / INR (length [0; 18; 8]%Q) = 26 / 3).
    { eval_Q2R. simpl. lra. }
    rewrite Hm.
    replace (2 * (26 / 3 - 1) / (INR 3 - 2)) with (46 / 3) by (simpl; lra).
    replace (46 / 3 / 1) with (46 / 3) by lra.
    destruct (Rlt_dec 0 (46 / 3)) as [_|E]; [|lra].
    repeat split; lra.
Qed.

(** *** Critical nodes *)

(** The integration ranking sorts the items of the dictionary, which are
    (node, entry) tuples, with the key [x["value"]]: a tuple does not take a
    string index. *)
Lemma tuple_string_index (l : list PyVal) (s : string) :
  py_getitem (PyTuple l) (PyStr s) = Raise TypeError.
Proof. reflexivity. Qed.

Lemma integration_ranking_raises (kv : string * PyVal) (d : list (string * PyVal)) :
  (its ← py_items (PyDict (kv :: d));
   py_sorted_reverse (fun x => py_getitem x (PyStr "value")) its)
  = Raise TypeError.
Proof. reflexivity. Qed.

(** The sibling key [x[1]] is defined on every item, and a dictionary with
    numeric values is ranked without an exception. *)
Lemma mapM_item_value (d : list (string * PyVal)) :
  mapM (fun x => py_getitem x (PyNum 1))
       (map (fun kv => PyTuple [PyStr (fst kv); snd kv]) d)
  = Ok (map snd d).
Proof.
  induction d as [|[k v] d IH]; [reflexivity|].
  cbn [map mapM]. cbn [map mapM] in IH. rewrite IH. reflexivity.
Qed.

Lemma mapM_as_num (l : list PyVal) :
  Forall (fun v => exists q, v = PyNum q) l ->
  exists nums, mapM as_num l = Some nums.
Proof.
  induction 1 as [|v l [q ->] _ [nums IH]]; [exists []; reflexivity|].
  exists (q :: nums). cbn [mapM] in *. rewrite IH. reflexivity.
Qed.

Lemma value_ranking_returns (d : list (string * PyVal)) :
  numeric_values d ->
  exists l,
    (its ← py_items (PyDict d);
     py_sorted_reverse (fun x => py_getitem x (PyNum 1)) its) = Ok l.
Proof.
  intros Hd. cbn [py_items mbind result_bind]. unfold py_sorted_reverse.
  rewrite mapM_item_value. cbn [mbind result_bind].
  destruct (mapM_as_num (map snd d)) as [nums Hn].
  { unfold numeric_values in Hd. rewrite Forall_map. exact Hd. }
  rewrite Hn. eexists. reflexivity.
Qed.

(** Whenever the betweenness ranking goes through and the integration
    dictionary has an entry, the call raises. *)
Lemma identify_critical_nodes_raises
    (metrics : list (string * PyVal)) (top_n : Z)
    (b : list (string * PyVal)) (kv : string * PyVal)
    (d : list (string * PyVal)) :
  dict_get metrics "betweenness" = Some (PyDict b) ->
  numeric_values b ->
  dict_get metrics "integration" = Some (PyDict (kv :: d)) ->
  identify_critical_nodes metrics top_n = Raise TypeError.
Proof.
  intros Hb Hnum Hi. unfold identify_critical_nodes. rewrite Hb, Hi.
  destruct (value_ranking_returns b Hnum) as [l Hl].
  cbn [py_items mbind result_bind] in Hl |- *. rewrite Hl. reflexivity.
Qed.

(** C2 at a concrete graph: for the metrics of the route
    entrance - node_1 - emergency, [identify_critical_nodes(10)] raises
    [TypeError] instead of returning the three rankings. *)
Theorem identify_critical_nodes_entrance_route :
  identify_critical_nodes entrance_route_metrics 10 = Raise TypeError.
Proof. vm_compute. reflexivity. Qed.

(** The betweenness and degree rankings, which index the tuple with [x[1]],
    do return: without the integration dictionary the call succeeds. *)
Lemma identify_critical_nodes_without_integration :
  identify_critical_nodes
    (filter (fun kv => negb (String.eqb (fst kv) "integration"))
            entrance_route_metrics) 2
  = Ok [("high_betweenness"%string,
         PyList [PyTuple [PyStr "node_1"; PyNum 1];
                 PyTuple [PyStr "entrance"; PyNum 0]]);
        ("high_degree"%string,
         PyList [PyTuple [PyStr "node_1"; PyNum 2];
                 PyTuple [PyStr "entrance"; PyNum 1]])].
Proof. vm_compute. reflexivity. Qed.

End SpaceSyntax_properties.

(** ** The visibility field engine *)

Section VGA_properties.
Import Py VGA.
Context `{Geometry}.

(** *** The threshold test *)

Lemma dist_sq_nonneg (p q : Point) : (0 <= dist_sq p q)%Z.
Proof. unfold dist_sq. nia. Qed.

Lemma dist_sq_sym (p q : Point) : dist_sq p q = dist_sq q p.
Proof. unfold dist_sq. ring. Qed.

Lemma dist_sym (p q : Point) : dist p q = dist q p.
Proof. unfold dist. rewrite dist_sq_sym. reflexivity. Qed.

(** Comparing the squares is comparing the distances. *)
Lemma within_threshold_dist (p q : Point) :
  within_threshold p q = true <-> (dist p q < IZR threshold_distance)%R.
Proof.
  unfold within_threshold, dist, threshold_distance.
  pose proof (dist_sq_nonneg p q) as Hd.
  assert (H50 : sqrt (IZR (50 * 50)) = 50%R).
  { rewrite mult_IZR. apply sqrt_square. lra. }
  rewrite Z.ltb_lt, <- H50. split; intros Hlt.
  - apply sqrt_lt_1; [apply IZR_le; lia | apply IZR_le; lia | apply IZR_lt, Hlt].
  - apply lt_IZR. apply sqrt_lt_0; [apply IZR_le; lia | apply IZR_le; lia | exact Hlt].
Qed.

(** *** Edges of the visibility graph *)

Lemma has_edge_empty (a b : Point) : has_edge ∅ a b = false.
Proof. unfold has_edge. rewrite lookup_empty. reflexivity. Qed.

Lemma has_edge_add_node (p : Point) (vg : VGraph) (a b : Point) :
  has_edge (add_node p vg) a b = has_edge vg a b.
Proof.
  unfold add_node. destruct (vg !! p) eqn:E; [reflexivity|].
  unfold has_edge. destruct (decide (p = a)) as [->|Hne].
  - rewrite lookup_insert_eq, E. rewrite lookup_empty.
    apply bool_decide_eq_false. intros [? ?]. discriminate.
  - rewrite lookup_insert_ne by exact Hne. reflexivity.
Qed.

Lemma has_edge_insert (vg : VGraph) (u v : Point) (w : Z) (a b : Point) :
  has_edge (<[u := <[v := w]> (default ∅ (vg !! u))]> vg) a b = true ->
  has_edge vg a b = true \/ (a = u /\ b = v).
Proof.
  unfold has_edge. destruct (decide (u = a)) as [->|Hne].
  - rewrite lookup_insert_eq. intros Hb. apply bool_decide_eq_true in Hb.
    destruct (decide (v = b)) as [->|Hvb]; [right; split; reflexivity|].
    rewrite lookup_insert_ne in Hb by exact Hvb. left.
    destruct (vg !! a) as [nbrs|]; simpl in Hb.
    + apply bool_decide_eq_true. exact Hb.
    + rewrite lookup_empty in Hb. destruct Hb. discriminate.
  - rewrite lookup_insert_ne by exact Hne. intros Hb. left. exact Hb.
Qed.

Lemma has_edge_add_edge (u v : Point) (w : Z) (vg : VGraph) (a b : Point) :
  has_edge (add_edge u v w vg) a b = true ->
  has_edge vg a b = true \/ (a = u /\ b = v) \/ (a = v /\ b = u).
Proof.
  unfold add_edge. intros Hb.
  apply has_edge_insert in Hb as [Hb|Hb]; [|tauto].
  apply has_edge_insert in Hb as [Hb|Hb]; [|tauto].
  rewrite !has_edge_add_node in Hb. tauto.
Qed.

Lemma has_edge_nodes_only (points : list Point) (vg : VGraph) (a b : Point) :
  has_edge (foldl (fun vg point => add_node point vg) vg points) a b
  = has_edge vg a b.
Proof.
  revert vg. induction points as [|p points IH]; intros vg; [reflexivity|].
  cbn [foldl]. rewrite IH. apply has_edge_add_node.
Qed.

Section Edges.
Variable obstacles : list LineString.

Lemma connect_from_edges (p1 : Point) (others : list Point) (vg : VGraph)
    (a b : Point) :
  has_edge (connect_from obstacles p1 others vg) a b = true ->
  has_edge vg a b = true \/
  exists p2, p2 ∈ others /\ checked obstacles p1 p2 /\
             ((a = p1 /\ b = p2) \/ (a = p2 /\ b = p1)).
Proof.
  unfold connect_from. revert vg.
  induction others as [|p2 others IH]; intros vg Hb; [left; exact Hb|].
  cbn [foldl] in Hb. apply IH in Hb as [Hb|(p & Hin & Hc & Ho)].
  - destruct (within_threshold p1 p2) eqn:Ew; [|left; exact Hb].
    destruct (_has_line_of_sight obstacles p1 p2) eqn:El; [|left; exact Hb].
    apply has_edge_add_edge in Hb as [Hb|Hb]; [left; exact Hb|].
    right. exists p2. split; [apply list_elem_of_here|].
    split; [split; assumption | exact Hb].
  - right. exists p. split; [apply list_elem_of_further, Hin|]. tauto.
Qed.

Lemma connect_all_edges (pts : list Point) (vg : VGraph) (a b : Point) :
  has_edge (connect_all obstacles pts vg) a b = true ->
  has_edge vg a b = true \/
  exists p1 p2, p1 ∈ pts /\ p2 ∈ pts /\ checked obstacles p1 p2 /\
                ((a = p1 /\ b = p2) \/ (a = p2 /\ b = p1)).
Proof.
  revert vg. induction pts as [|p1 rest IH]; intros vg Hb; [left; exact Hb|].
  cbn [connect_all] in Hb. apply IH in Hb as [Hb|(q1 & q2 & H1 & H2 & Hc & Ho)].
  - apply connect_from_edges in Hb as [Hb|(p2 & Hin & Hc & Ho)]; [left; exact Hb|].
    right. exists p1, p2. split; [apply list_elem_of_here|].
    split; [apply list_elem_of_further, Hin|]. tauto.
  - right. exists q1, q2.
    split; [apply list_elem_of_further, H1|].
    split; [apply list_elem_of_further, H2|]. tauto.
Qed.

Lemma has_line_of_sight_spec (p1 p2 : Point) :
  _has_line_of_sight obstacles p1 p2 = true <->
  forall o, o ∈ obstacles -> intersects (segment p1 p2) o = false.
Proof.
  unfold _has_line_of_sight. rewrite forallb_forall. split; intros Hall o Ho.
  - apply list_elem_of_In in Ho. apply Hall in Ho.
    apply negb_true_iff in Ho. exact Ho.
  - apply negb_true_iff, Hall, list_elem_of_In, Ho.
Qed.

(** C7: the visibility graph has the edge (p, q) only if both points are
    among the first 500 of the list, their Euclidean distance is below the
    threshold, and no obstacle intersects the segment between them (the
    segment that the line-of-sight test was run on joins them in the order
    in which they appear in the list). *)
Theorem visibility_edge_sound (points : list Point) (p q : Point) :
  has_edge (_build_visibility_graph obstacles points) p q = true ->
  p ∈ take 500 points /\ q ∈ take 500 points /\
  (dist p q < IZR threshold_distance)%R /\
  ((forall o, o ∈ obstacles -> intersects (segment p q) o = false) \/
   (forall o, o ∈ obstacles -> intersects (segment q p) o = false)).
Proof.
  unfold _build_visibility_graph. intros Hb.
  apply connect_all_edges in Hb as [Hb|(p1 & p2 & H1 & H2 & [Hw Hl] & Ho)].
  - rewrite has_edge_nodes_only, has_edge_empty in Hb. discriminate.
  - apply within_threshold_dist in Hw.
    pose proof (proj1 (has_line_of_sight_spec _ _) Hl) as Hl'.
    destruct Ho as [[-> ->]|[-> ->]].
    + repeat split; try assumption. left. exact Hl'.
    + repeat split; try assumption; [rewrite dist_sym; exact Hw|]. right. exact Hl'.
Qed.

End Edges.

(** *** Isovists and per-point metrics *)

Lemma foldl_insert_lookup {V : Type} (f : Point -> V) (l : list Point)
    (m : gmap Point V) (p : Point) :
  foldl (fun m x => <[x := f x]> m) m l !! p
  = if decide (p ∈ l) then Some (f p) else m !! p.
Proof.
  revert m. induction l as [|x l IH]; intros m; cbn [foldl].
  - destruct (decide (p ∈ [])) as [Hin|_]; [|reflexivity].
    apply elem_of_nil in Hin. contradiction.
  - rewrite IH. destruct (decide (p ∈ l)) as [Hin|Hnin].
    + rewrite decide_True by (apply list_elem_of_further, Hin). reflexivity.
    + destruct (decide (p = x)) as [->|Hne].
      * rewrite decide_True by apply list_elem_of_here.
        apply lookup_insert_eq.
      * rewrite decide_False.
        -- apply lookup_insert_ne. congruence.
        -- intros Hin. apply elem_of_cons in Hin as [?|?]; contradiction.
Qed.

Lemma add_node_is_Some (q : Point) (vg : VGraph) (p : Point) :
  is_Some (add_node q vg !! p) <-> p = q \/ is_Some (vg !! p).
Proof.
  unfold add_node. destruct (vg !! q) eqn:E.
  - split; [tauto|]. intros [->|Hs]; [rewrite E; eauto | exact Hs].
  - destruct (decide (q = p)) as [->|Hne].
    + rewrite lookup_insert_eq. split; eauto.
    + rewrite lookup_insert_ne by exact Hne. split; [tauto|].
      intros [->|Hs]; [contradiction | exact Hs].
Qed.

Lemma add_edge_is_Some (u v : Point) (w : Z) (vg : VGraph) (p : Point) :
  is_Some (vg !! p) -> is_Some (add_edge u v w vg !! p).
Proof.
  intros Hs. unfold add_edge.
  assert (Hs' : is_Some (add_node v (add_node u vg) !! p)).
  { apply add_node_is_Some. right. apply add_node_is_Some. right. exact Hs. }
  set (vg1 := add_node v (add_node u vg)) in *.
  set (vg2 := <[u := _]> vg1).
  assert (Hs2 : is_Some (vg2 !! p)).
  { unfold vg2. destruct (decide (u = p)) as [->|Hne].
    - rewrite lookup_insert_eq. eauto.
    - rewrite lookup_insert_ne by exact Hne. exact Hs'. }
  destruct (decide (v = p)) as [->|Hne].
  - rewrite lookup_insert_eq. eauto.
  - rewrite lookup_insert_ne by exact Hne. exact Hs2.
Qed.

Lemma nodes_only_is_Some (points : list Point) (vg : VGraph) (p : Point) :
  p ∈ points \/ is_Some (vg !! p) ->
  is_Some (foldl (fun vg point => add_node point vg) vg points !! p).
Proof.
  revert vg. induction points as [|x points IH]; intros vg Hp; cbn [foldl].
  - destruct Hp as [Hin|Hs]; [apply elem_of_nil in Hin; contradiction | exact Hs].
  - apply IH. destruct Hp as [Hin|Hs].
    + apply elem_of_cons in Hin as [->|Hin]; [|left; exact Hin].
      right. apply add_node_is_Some. left. reflexivity.
    + right. apply add_node_is_Some. right. exact Hs.
Qed.

Section Isovists.
Variable obstacles : list LineString.

Lemma connect_from_is_Some (p1 : Point) (others : list Point) (vg : VGraph)
    (p : Point) :
  is_Some (vg !! p) -> is_Some (connect_from obstacles p1 others vg !! p).
Proof.
  unfold connect_from. revert vg.
  induction others as [|p2 others IH]; intros vg Hs; [exact Hs|].
  cbn [foldl]. apply IH.
  destruct (within_threshold p1 p2); [|exact Hs].
  destruct (_has_line_of_sight obstacles p1 p2); [|exact Hs].
  apply add_edge_is_Some, Hs.
Qed.

Lemma connect_all_is_Some (pts : list Point) (vg : VGraph) (p : Point) :
  is_Some (vg !! p) -> is_Some (connect_all obstacles pts vg !! p).
Proof.
  revert vg. induction pts as [|p1 rest IH]; intros vg Hs; [exact Hs|].
  cbn [connect_all]. apply IH, connect_from_is_Some, Hs.
Qed.

(** Every sample point is a node of the visibility graph. *)
Lemma sample_point_is_node (points : list Point) (p : Point) :
  p ∈ points -> is_Some (_build_visibility_graph obstacles points !! p).
Proof.
  intros Hin. unfold _build_visibility_graph.
  apply connect_all_is_Some, nodes_only_is_Some. left. exact Hin.
Qed.

(** The isovist dictionary has an entry exactly for the first 1000 points. *)
Lemma calculate_isovists_lookup (points : list Point) (p : Point) :
  _calculate_isovists obstacles points !! p
  = if decide (p ∈ take 1000 points)
    then Some (isovist_entry obstacles p) else None.
Proof.
  unfold _calculate_isovists. rewrite foldl_insert_lookup.
  destruct (decide _); [reflexivity | apply lookup_empty].
Qed.

Lemma calculate_vga_metrics_lookup (vg : VGraph)
    (isovists : gmap Point IsovistEntry) (p : Point) :
  is_Some (vg !! p) ->
  _calculate_vga_metrics vg isovists !! p
  = Some (vga_metrics_entry vg isovists p).
Proof.
  intros [nbrs Hs]. unfold _calculate_vga_metrics.
  rewrite map_lookup_imap, Hs. reflexivity.
Qed.

(** C10: isovists are computed for the first 1000 sample points and for no
    other; a sample point that is not among them has no isovist entry, is
    still a node of the visibility graph, and its metrics have isovist area 0
    and a visual integration of half its number of visible neighbours. *)
Theorem isovists_first_1000 (points : list Point) (p : Point) :
  p ∈ points ->
  p ∉ take 1000 points ->
  let isovists := _calculate_isovists obstacles points in
  let vg := _build_visibility_graph obstacles points in
  (forall q, is_Some (isovists !! q) <-> q ∈ take 1000 points) /\
  isovists !! p = None /\
  is_Some (vg !! p) /\
  exists m,
    _calculate_vga_metrics vg isovists !! p = Some m /\
    isovist_area m = 0%Q /\
    visible_neighbors m = count_neighbors vg p /\
    (visual_integration m == 0.5 * inject_Z (Z.of_nat (visible_neighbors m)))%Q.
Proof.
  intros Hin Hnot isovists vg.
  assert (Hnone : isovists !! p = None).
  { unfold isovists. rewrite calculate_isovists_lookup.
    rewrite decide_False by exact Hnot. reflexivity. }
  assert (Hnode : is_Some (vg !! p)) by (apply sample_point_is_node, Hin).
  split; [|split; [exact Hnone | split; [exact Hnode|]]].
  - intros q. unfold isovists. rewrite calculate_isovists_lookup.
    destruct (decide (q ∈ take 1000 points)) as [Hq|Hq].
    + split; [intros _; exact Hq | eauto].
    + split; [intros [? ?]; discriminate | contradiction].
  - exists (vga_metrics_entry vg isovists p).
    split; [apply calculate_vga_metrics_lookup, Hnode|].
    unfold vga_metrics_entry. rewrite Hnone. cbn.
    split; [reflexivity|]. split; [reflexivity|].
    field.
Qed.

End Isovists.

End VGA_properties.

Section VGA_examples.
Import Py VGA.

(** The edge (0,0) - (10,0) of three points in a row, with a wall between
    the last two. *)
Lemma visibility_edge_sound_witness :
  let p := (0, 0)%Z in
  let q := (10, 0)%Z in
  p ∈ take 500 three_points /\ q ∈ take 500 three_points /\
  (dist p q < IZR threshold_distance)%R /\
  ((forall o, o ∈ one_wall ->
      intersects (segment p q) o = false) \/
   (forall o, o ∈ one_wall ->
      intersects (segment q p) o = false)).
Proof.
  apply (visibility_edge_sound (H := open_field) one_wall three_points).
  vm_compute. reflexivity.
Defined.

(** The wall hides (20,0) from (10,0), and (0,0) from (20,0). *)
Lemma wall_blocks_edge :
  has_edge (_build_visibility_graph one_wall three_points)
               (10, 0)%Z (20, 0)%Z = false /\
  has_edge (_build_visibility_graph one_wall three_points)
               (0, 0)%Z (20, 0)%Z = false.
Proof. split; vm_compute; reflexivity. Qed.

(** The last point of a row of 1001 points. *)
Lemma isovists_first_1000_witness :
  let p := (1000, 0)%Z in
  let isovists := _calculate_isovists [] long_row in
  let vg := _build_visibility_graph [] long_row in
  (forall q, is_Some (isovists !! q) <-> q ∈ take 1000 long_row) /\
  isovists !! p = None /\
  is_Some (vg !! p) /\
  exists m,
    _calculate_vga_metrics vg isovists !! p = Some m /\
    isovist_area m = 0%Q /\
    visible_neighbors m = count_neighbors vg p /\
    (visual_integration m == 0.5 * inject_Z (Z.of_nat (visible_neighbors m)))%Q.
Proof.
  apply (isovists_first_1000 (H := open_field) [] long_row (1000, 0)%Z).
  - apply (bool_decide_unpack _). vm_compute. exact I.
  - apply (bool_decide_unpack _). vm_compute. exact I.
Defined.

End VGA_examples.

(** ** The visibility graph as a whole *)

Section VGA_graph_properties.
Import Py VGA.
Context `{Geometry}.

Lemma has_edge_insert_iff (vg : VGraph) (u v : Point) (w : Z) (a b : Point) :
  has_edge (<[u := <[v := w]> (default ∅ (vg !! u))]> vg) a b = true <->
  has_edge vg a b = true \/ (a = u /\ b = v).
Proof.
  split; [apply has_edge_insert|].
  unfold has_edge. intros [Hb|[-> ->]].
  - destruct (decide (u = a)) as [->|Hne].
    + rewrite lookup_insert_eq. apply bool_decide_eq_true.
      destruct (vg !! a) as [nbrs|]; [|discriminate]. cbn.
      apply bool_decide_eq_true in Hb.
      destruct (decide (v = b)) as [->|Hvb].
      * rewrite lookup_insert_eq. eauto.
      * rewrite lookup_insert_ne by exact Hvb. exact Hb.
    + rewrite lookup_insert_ne by exact Hne. exact Hb.
  - rewrite lookup_insert_eq. apply bool_decide_eq_true.
    rewrite lookup_insert_eq. eauto.
Qed.

Lemma has_edge_add_edge_iff (u v : Point) (w : Z) (vg : VGraph) (a b : Point) :
  has_edge (add_edge u v w vg) a b = true <->
  has_edge vg a b = true \/ (a = u /\ b = v) \/ (a = v /\ b = u).
Proof.
  unfold add_edge. rewrite !has_edge_insert_iff, !has_edge_add_node. tauto.
Qed.

Lemma add_edge_is_Some_inv (u v : Point) (w : Z) (vg : VGraph) (p : Point) :
  is_Some (add_edge u v w vg !! p) -> p = u \/ p = v \/ is_Some (vg !! p).
Proof.
  unfold add_edge. intros Hs.
  destruct (decide (p = v)) as [->|Hv]; [tauto|].
  rewrite lookup_insert_ne in Hs by congruence.
  destruct (decide (p = u)) as [->|Hu]; [tauto|].
  rewrite lookup_insert_ne in Hs by congruence.
  apply add_node_is_Some in Hs as [?|Hs]; [tauto|].
  apply add_node_is_Some in Hs as [?|Hs]; tauto.
Qed.

Section Graph.
Variable obstacles : list LineString.

(** Edges are never removed. *)
Lemma connect_from_keeps (p1 : Point) (others : list Point) (vg : VGraph)
    (a b : Point) :
  has_edge vg a b = true ->
  has_edge (connect_from obstacles p1 others vg) a b = true.
Proof.
  unfold connect_from. revert vg.
  induction others as [|p2 others IH]; intros vg Hb; [exact Hb|].
  cbn [foldl]. apply IH.
  destruct (within_threshold p1 p2); [|exact Hb].
  destruct (_has_line_of_sight obstacles p1 p2); [|exact Hb].
  apply has_edge_add_edge_iff. left. exact Hb.
Qed.

Lemma connect_all_keeps (pts : list Point) (vg : VGraph) (a b : Point) :
  has_edge vg a b = true ->
  has_edge (connect_all obstacles pts vg) a b = true.
Proof.
  revert vg. induction pts as [|p1 rest IH]; intros vg Hb; [exact Hb|].
  cbn [connect_all]. apply IH, connect_from_keeps, Hb.
Qed.

Lemma connect_from_adds (p1 p2 : Point) (others : list Point) (vg : VGraph) :
  p2 ∈ others ->
  checked obstacles p1 p2 ->
  has_edge (connect_from obstacles p1 others vg) p1 p2 = true.
Proof.
  intros Hin [Hw Hl]. revert vg.
  induction others as [|x others IH]; intros vg;
    [apply elem_of_nil in Hin; contradiction|].
  apply elem_of_cons in Hin as [<-|Hin].
  - change (connect_from obstacles p1 (p2 :: others) vg)
      with (connect_from obstacles p1 others
              (if within_threshold p1 p2 then
                 if _has_line_of_sight obstacles p1 p2
                 then add_edge p1 p2 (dist_sq p1 p2) vg else vg
               else vg)).
    rewrite Hw, Hl. apply connect_from_keeps.
    apply has_edge_add_edge_iff. right. left. split; reflexivity.
  - change (connect_from obstacles p1 (x :: others) vg)
      with (connect_from obstacles p1 others
              (if within_threshold p1 x then
                 if _has_line_of_sight obstacles p1 x
                 then add_edge p1 x (dist_sq p1 x) vg else vg
               else vg)).
    apply IH, Hin.
Qed.

Lemma connect_all_adds (l1 l2 : list Point) (p q : Point) (vg : VGraph) :
  q ∈ l2 ->
  checked obstacles p q ->
  has_edge (connect_all obstacles (l1 ++ p :: l2) vg) p q = true.
Proof.
  intros Hin Hc. revert vg.
  induction l1 as [|x l1 IH]; intros vg; cbn [app connect_all].
  - apply connect_all_keeps, connect_from_adds; assumption.
  - apply IH.
Qed.

(** X12: the visibility graph is complete for the pairs it examines: if
    [p] comes before [q] among the first 500 points, their distance is below
    the threshold and the segment from [p] to [q] meets no obstacle, then the
    edge (p, q) is in the graph. *)
Theorem visibility_edge_complete (points l1 l2 : list Point) (p q : Point) :
  take 500 points = l1 ++ p :: l2 ->
  q ∈ l2 ->
  (dist p q < IZR threshold_distance)%R ->
  (forall o, o ∈ obstacles -> intersects (segment p q) o = false) ->
  has_edge (_build_visibility_graph obstacles points) p q = true.
Proof.
  intros Ht Hq Hd Hl. unfold _build_visibility_graph. rewrite Ht.
  apply connect_all_adds; [exact Hq|]. split.
  - apply within_threshold_dist, Hd.
  - apply has_line_of_sight_spec, Hl.
Qed.

Lemma connect_from_sym (p1 : Point) (others : list Point) (vg : VGraph) :
  (forall a b, has_edge vg a b = true -> has_edge vg b a = true) ->
  forall a b, has_edge (connect_from obstacles p1 others vg) a b = true ->
              has_edge (connect_from obstacles p1 others vg) b a = true.
Proof.
  unfold connect_from. revert vg.
  induction others as [|p2 others IH]; intros vg Hs; [exact Hs|].
  cbn [foldl]. apply IH.
  destruct (within_threshold p1 p2); [|exact Hs].
  destruct (_has_line_of_sight obstacles p1 p2); [|exact Hs].
  intros a b Hb. apply has_edge_add_edge_iff.
  apply has_edge_add_edge_iff in Hb as [Hb|[Hb|Hb]]; [left; apply Hs, Hb| |];
    tauto.
Qed.

Lemma connect_all_sym (pts : list Point) (vg : VGraph) :
  (forall a b, has_edge vg a b = true -> has_edge vg b a = true) ->
  forall a b, has_edge (connect_all obstacles pts vg) a b = true ->
              has_edge (connect_all obstacles pts vg) b a = true.
Proof.
  revert vg. induction pts as [|p1 rest IH]; intros vg Hs; [exact Hs|].
  cbn [connect_all]. apply IH, connect_from_sym, Hs.
Qed.

(** X13: the visibility graph is undirected: it has the edge (p, q) exactly
    when it has the edge (q, p). *)
Theorem visibility_graph_symmetric (points : list Point) (p q : Point) :
  has_edge (_build_visibility_graph obstacles points) p q
  = has_edge (_build_visibility_graph obstacles points) q p.
Proof.
  assert (Hs : forall a b,
             has_edge (_build_visibility_graph obstacles points) a b = true ->
             has_edge (_build_visibility_graph obstacles points) b a = true).
  { unfold _build_visibility_graph. apply connect_all_sym.
    intros a b Hb. rewrite has_edge_nodes_only, has_edge_empty in Hb.
    discriminate. }
  destruct (has_edge _ p q) eqn:E1, (has_edge _ q p) eqn:E2; try reflexivity.
  - apply Hs in E1. congruence.
  - apply Hs in E2. congruence.
Qed.

Lemma nodes_only_is_Some_inv (points : list Point) (vg : VGraph) (p : Point) :
  is_Some (foldl (fun vg point => add_node point vg) vg points !! p) ->
  p ∈ points \/ is_Some (vg !! p).
Proof.
  revert vg. induction points as [|x points IH]; intros vg Hs; cbn [foldl] in Hs.
  - right. exact Hs.
  - apply IH in Hs as [Hin|Hs]; [left; apply list_elem_of_further, Hin|].
    apply add_node_is_Some in Hs as [->|Hs];
      [left; apply list_elem_of_here | right; exact Hs].
Qed.

Lemma connect_from_is_Some_inv (p1 : Point) (others : list Point) (vg : VGraph)
    (p : Point) :
  is_Some (connect_from obstacles p1 others vg !! p) ->
  p = p1 \/ p ∈ others \/ is_Some (vg !! p).
Proof.
  unfold connect_from. revert vg.
  induction others as [|p2 others IH]; intros vg Hs; [tauto|].
  cbn [foldl] in Hs. apply IH in Hs as [?|[Hin|Hs]]; [tauto| |].
  - right. left. apply list_elem_of_further, Hin.
  - destruct (within_threshold p1 p2); [|tauto].
    destruct (_has_line_of_sight obstacles p1 p2); [|tauto].
    apply add_edge_is_Some_inv in Hs as [?|[->|?]]; [tauto| |tauto].
    right. left. apply list_elem_of_here.
Qed.

Lemma connect_all_is_Some_inv (pts : list Point) (vg : VGraph) (p : Point) :
  is_Some (connect_all obstacles pts vg !! p) ->
  p ∈ pts \/ is_Some (vg !! p).
Proof.
  revert vg. induction pts as [|p1 rest IH]; intros vg Hs; [tauto|].
  cbn [connect_all] in Hs. apply IH in Hs as [Hin|Hs].
  - left. apply list_elem_of_further, Hin.
  - apply connect_from_is_Some_inv in Hs as [->|[Hin|Hs]].
    + left. apply list_elem_of_here.
    + left. apply list_elem_of_further, Hin.
    + right. exact Hs.
Qed.

(** X14: the nodes of the visibility graph are exactly the sample points:
    no point is lost and none is invented. *)
Theorem visibility_graph_nodes (points : list Point) (p : Point) :
  is_Some (_build_visibility_graph obstacles points !! p) <-> p ∈ points.
Proof.
  split; [|apply sample_point_is_node].
  unfold _build_visibility_graph. intros Hs.
  apply connect_all_is_Some_inv in Hs as [Hin|Hs].
  - eapply subseteq_take, Hin.
  - apply nodes_only_is_Some_inv in Hs as [Hin|Hs]; [exact Hin|].
    rewrite lookup_empty in Hs. destruct Hs. discriminate.
Qed.

(** X15: a sample point that is not among the first 500 has no visible
    neighbour; if it is not among the first 1000 either, its visual
    integration is 0. *)
Theorem late_points_are_isolated (points : list Point) (p : Point) :
  p ∈ points ->
  p ∉ take 500 points ->
  let vg := _build_visibility_graph obstacles points in
  let isovists := _calculate_isovists obstacles points in
  count_neighbors vg p = 0%nat /\
  (forall q, has_edge vg p q = false /\ has_edge vg q p = false) /\
  (p ∉ take 1000 points ->
   exists m, _calculate_vga_metrics vg isovists !! p = Some m /\
             visible_neighbors m = 0%nat /\
             (visual_integration m == 0)%Q).
Proof.
  intros Hin Hnot vg isovists.
  assert (Hno : forall q, has_edge vg p q = false).
  { intros q. destruct (has_edge vg p q) eqn:E; [|reflexivity].
    unfold vg, _build_visibility_graph in E.
    apply connect_all_edges in E as [E|(p1 & p2 & H1 & H2 & _ & Ho)].
    - rewrite has_edge_nodes_only, has_edge_empty in E. discriminate.
    - exfalso. destruct Ho as [[-> _]|[-> _]]; contradiction. }
  assert (Hcount : count_neighbors vg p = 0%nat).
  { unfold count_neighbors. destruct (vg !! p) as [nbrs|] eqn:E; cbn;
      [|apply map_size_empty].
    apply map_size_empty_iff, map_empty. intros q.
    specialize (Hno q). unfold has_edge in Hno. rewrite E in Hno.
    apply bool_decide_eq_false in Hno.
    destruct (nbrs !! q) eqn:Eq; [|reflexivity].
    exfalso. apply Hno. eauto. }
  split; [exact Hcount|]. split.
  - intros q. split; [apply Hno|].
    destruct (has_edge vg q p) eqn:E; [|reflexivity].
    unfold vg, _build_visibility_graph in E.
    apply connect_all_edges in E as [E|(p1 & p2 & H1 & H2 & _ & Ho)].
    + rewrite has_edge_nodes_only, has_edge_empty in E. discriminate.
    + exfalso. destruct Ho as [[_ ->]|[_ ->]]; contradiction.
  - intros Hnot'.
    exists (vga_metrics_entry vg isovists p). split.
    + apply calculate_vga_metrics_lookup, sample_point_is_node, Hin.
    + unfold vga_metrics_entry. rewrite Hcount.
      assert (Hnone : isovists !! p = None).
      { unfold isovists. rewrite calculate_isovists_lookup.
        rewrite decide_False by exact Hnot'. reflexivity. }
      rewrite Hnone. cbn. split; [reflexivity|]. reflexivity.
Qed.

End Graph.

End VGA_graph_properties.

Section VGA_graph_examples.
Import Py VGA.

Lemma visibility_edge_complete_witness :
  has_edge (_build_visibility_graph one_wall three_points) (0, 0)%Z (10, 0)%Z
  = true.
Proof.
  apply (visibility_edge_complete (H := open_field) one_wall three_points
           [] [(10, 0); (20, 0)]%Z).
  - reflexivity.
  - apply list_elem_of_here.
  - apply within_threshold_dist. vm_compute. reflexivity.
  - intros o Ho. apply list_elem_of_In in Ho. cbn in Ho.
    destruct Ho as [<-|[]]. vm_compute. reflexivity.
Defined.

Lemma late_points_are_isolated_witness :
  let p := (1000, 0)%Z in
  let vg := _build_visibility_graph [] long_row in
  let isovists := _calculate_isovists [] long_row in
  count_neighbors vg p = 0%nat /\
  (forall q, has_edge vg p q = false /\ has_edge vg q p = false) /\
  (p ∉ take 1000 long_row ->
   exists m, _calculate_vga_metrics vg isovists !! p = Some m /\
             visible_neighbors m = 0%nat /\
             (visual_integration m == 0)%Q).
Proof.
  apply (late_points_are_isolated (H := open_field) [] long_row (1000, 0)%Z).
  - apply (bool_decide_unpack _). vm_compute. exact I.
  - apply (bool_decide_unpack _). vm_compute. exact I.
Defined.

End VGA_graph_examples.

(** ** Sampling the floor plan *)

Section VGA_grid_properties.
Import Py VGA.

Lemma grid_step_px_pos (grid_size scale : Q) : (1 <= grid_step_px grid_size scale)%Z.
Proof.
  unfold grid_step_px. destruct (_ <? 1)%Z eqn:E; [lia|].
  apply Z.ltb_ge in E. exact E.
Qed.

Lemma range_step_spec (stop step x : Z) :
  (1 <= step)%Z ->
  x ∈ range_step stop step <->
  (0 <= x < stop)%Z /\ exists i, x = (Z.of_nat i * step)%Z.
Proof.
  intros Hs. unfold range_step. rewrite list_elem_of_fmap. split.
  - intros (i & -> & Hi). apply elem_of_seq in Hi.
    split; [|eauto]. destruct Hi as [_ Hi]. cbn in Hi.
    assert (Hq : (Z.of_nat i < (stop + step - 1) / step)%Z) by lia.
    split; [nia|].
    assert (Z.of_nat i + 1 <= (stop + step - 1) / step)%Z by lia.
    pose proof (Z.mul_div_le (stop + step - 1) step ltac:(lia)). nia.
  - intros ([H0 H1] & i & ->). exists i. split; [reflexivity|].
    apply elem_of_seq. split; [lia|]. cbn.
    assert (Z.of_nat i + 1 <= (stop + step - 1) / step)%Z; [|lia].
    apply Z.div_le_lower_bound; [lia|]. nia.
Qed.

Lemma range_step_NoDup (stop step : Z) :
  (1 <= step)%Z -> NoDup (range_step stop step).
Proof.
  intros Hs. unfold range_step. apply NoDup_fmap_2; [|apply NoDup_seq].
  intros i j Hij. nia.
Qed.

Lemma is_free_space_spec (x y : Z) (image : Image) :
  _is_free_space x y image = true <->
  (0 <= x < width image)%Z /\ (0 <= y < height image)%Z /\
  (128 < gray image y x)%Z.
Proof.
  unfold _is_free_space.
  destruct (x <? 0)%Z eqn:E1, (width image <=? x)%Z eqn:E2,
           (y <? 0)%Z eqn:E3, (height image <=? y)%Z eqn:E4; cbn;
    rewrite ?Z.ltb_lt in *; rewrite ?Z.ltb_ge in *;
    rewrite ?Z.leb_le in *; rewrite ?Z.leb_gt in *;
    try (split; [discriminate | lia]).
  split; [intros; repeat split; lia | tauto].
Qed.

Lemma lattice_points_spec (grid_size : Q) (image : Image) (scale : Q) (p : Point) :
  p ∈ lattice_points grid_size image scale <->
  fst p ∈ range_step (width image) (grid_step_px grid_size scale) /\
  snd p ∈ range_step (height image) (grid_step_px grid_size scale) /\
  _is_free_space (fst p) (snd p) image = true.
Proof.
  unfold lattice_points. rewrite list_elem_of_In, in_flat_map.
  destruct p as [x y]. cbn [fst snd]. split.
  - intros (y' & Hy & Hin). apply list_elem_of_In in Hy, Hin.
    apply list_elem_of_omap in Hin as (x' & Hx & Hp).
    destruct (_is_free_space x' y' image) eqn:E; [|discriminate].
    injection Hp as <- <-. tauto.
  - intros (Hx & Hy & Hf). exists y. split; [apply list_elem_of_In, Hy|].
    apply list_elem_of_In, list_elem_of_omap. exists x. rewrite Hf. tauto.
Qed.

Lemma lattice_points_NoDup (grid_size : Q) (image : Image) (scale : Q) :
  NoDup (lattice_points grid_size image scale).
Proof.
  unfold lattice_points.
  pose proof (grid_step_px_pos grid_size scale) as Hs.
  pose proof (range_step_NoDup (height image) _ Hs) as Hy.
  pose proof (range_step_NoDup (width image) _ Hs) as Hx.
  set (xs := range_step (width image) _) in *.
  induction Hy as [|y ys Hny Hys IH]; cbn [flat_map]; [constructor|].
  apply NoDup_app. split; [|split; [|exact IH]].
  - clear -Hx. induction Hx as [|x xs' Hn Hxs IH]; simpl; [constructor|].
    destruct (_is_free_space x y image); [|exact IH].
    constructor; [|exact IH].
    intros Hin. apply list_elem_of_omap in Hin as (x' & Hx' & Hp).
    destruct (_is_free_space x' y image); [|discriminate].
    injection Hp as ->. contradiction.
  - intros [x' y'] Hin Hin'.
    apply list_elem_of_omap in Hin as (x1 & _ & Hp).
    destruct (_is_free_space x1 y image); [|discriminate].
    injection Hp as <- <-.
    apply list_elem_of_In, in_flat_map in Hin' as (y2 & Hy2 & Hin').
    apply list_elem_of_In, list_elem_of_omap in Hin' as (x2 & _ & Hp).
    destruct (_is_free_space x2 y2 image); [|discriminate].
    injection Hp as <- <-. apply Hny, list_elem_of_In, Hy2.
Qed.

Lemma mapM_lookup_Ok (points : list Point) (indices : list nat) (pts : list Point) :
  mapM (fun i => match points !! i with
                 | Some p => Ok p
                 | None => Raise IndexError
                 end) indices = Ok pts ->
  pts = omap (fun i => points !! i) indices /\
  Forall (fun i => (i < length points)%nat) indices /\
  length pts = length indices.
Proof.
  revert pts. induction indices as [|i indices IH]; intros pts Hm.
  - cbn in Hm. injection Hm as <-. repeat split. constructor.
  - cbn [mapM] in Hm. cbn [mapM] in IH.
    destruct (points !! i) as [p|] eqn:Ei; [|discriminate]. cbn in Hm.
    match type of Hm with
    | context [mbind _ ?m] => destruct m as [rest|] eqn:Er
    end; [|discriminate].
    cbn in Hm. injection Hm as <-.
    destruct (IH rest eq_refl) as (-> & Hf & Hl).
    simpl. rewrite Ei. simpl. repeat split.
    + constructor; [|exact Hf]. eapply lookup_lt_Some, Ei.
    + rewrite <- Hl. reflexivity.
Qed.

Section Grid.
Context `{Subsampler}.

(** X16: whatever the random generator does, every sample point that the grid
    generator returns is a lattice point (both coordinates are multiples of
    the step, which is at least one pixel) inside the image whose pixel is
    brighter than 128. *)
Theorem sample_grid_sound (grid_size : Q) (image : Image) (scale : Q)
    (s : sampler_state) (points : list Point) (p : Point) :
  fst (_generate_sample_grid grid_size image scale s) = Ok points ->
  p ∈ points ->
  (1 <= grid_step_px grid_size scale)%Z /\
  (0 <= fst p < width image)%Z /\ (0 <= snd p < height image)%Z /\
  (128 < gray image (snd p) (fst p))%Z /\
  (exists i, fst p = (Z.of_nat i * grid_step_px grid_size scale)%Z) /\
  (exists j, snd p = (Z.of_nat j * grid_step_px grid_size scale)%Z).
Proof.
  intros Hg Hin.
  pose proof (grid_step_px_pos grid_size scale) as Hs.
  assert (Hl : p ∈ lattice_points grid_size image scale).
  { unfold _generate_sample_grid in Hg.
    destruct (5000 <? length _)%nat.
    - destruct (choice_without_replacement _ _ s) as [indices s'].
      cbn [fst] in Hg. apply mapM_lookup_Ok in Hg as (-> & _).
      apply list_elem_of_omap in Hin as (i & _ & Hi).
      eapply list_elem_of_lookup_2, Hi.
    - cbn [fst] in Hg. injection Hg as <-. exact Hin. }
  apply lattice_points_spec in Hl as (Hx & Hy & Hf).
  apply (range_step_spec _ _ _ Hs) in Hx as [_ Hx].
  apply (range_step_spec _ _ _ Hs) in Hy as [_ Hy].
  apply is_free_space_spec in Hf. tauto.
Qed.

(** X17: the grid generator returns at most 5000 points and no point twice,
    provided [np.random.choice(n, k, replace=False)] keeps its contract
    ([k] distinct indices below [n]); up to 5000 free lattice points are
    returned as they are, without a draw. *)
Theorem sample_grid_capped (grid_size : Q) (image : Image) (scale : Q)
    (s : sampler_state) :
  (forall n k s, (k <= n)%nat ->
     let l := fst (choice_without_replacement n k s) in
     length l = k /\ NoDup l /\ Forall (fun i => (i < n)%nat) l) ->
  exists points,
    fst (_generate_sample_grid grid_size image scale s) = Ok points /\
    (length points <= 5000)%nat /\ NoDup points /\
    ((length (lattice_points grid_size image scale) <= 5000)%nat ->
     points = lattice_points grid_size image scale /\
     snd (_generate_sample_grid grid_size image scale s) = s).
Proof.
  intros Hc. unfold _generate_sample_grid.
  pose proof (lattice_points_NoDup grid_size image scale) as Hnd.
  set (pts := lattice_points grid_size image scale) in *.
  destruct (5000 <? length pts)%nat eqn:E.
  - apply Nat.ltb_lt in E.
    specialize (Hc (length pts) 5000%nat s ltac:(lia)). cbv zeta in Hc.
    destruct (choice_without_replacement (length pts) 5000 s) as [indices s'].
    cbn [fst] in Hc |- *. destruct Hc as (Hlen & Hnd' & Hlt).
    assert (Hok : forall idx, Forall (fun i => (i < length pts)%nat) idx ->
              NoDup idx ->
              exists out,
                mapM (fun i => match pts !! i with
                               | Some p => Ok p
                               | None => Raise IndexError
                               end) idx = Ok out /\
                length out = length idx /\
                (forall p, p ∈ out -> exists i, i ∈ idx /\ pts !! i = Some p) /\
                NoDup out).
    { clear -Hnd. induction idx as [|i idx IH]; intros Hf Hn.
      - exists []. split; [reflexivity|]. split; [reflexivity|].
        split; [|constructor].
        intros p Hp. apply elem_of_nil in Hp. contradiction.
      - apply Forall_cons in Hf as [Hi Hf]. apply NoDup_cons in Hn as [Hni Hn].
        destruct (IH Hf Hn) as (out & Hm & Hl & Hsrc & Hnd').
        destruct (lookup_lt_is_Some_2 pts i Hi) as [p Hp].
        exists (p :: out). cbn [mapM] in Hm |- *. rewrite Hp. cbn.
        rewrite Hm. cbn. split; [reflexivity|].
        split; [rewrite Hl; reflexivity|]. split.
        + intros q Hq. apply elem_of_cons in Hq as [->|Hq].
          * exists i. split; [apply list_elem_of_here | exact Hp].
          * destruct (Hsrc q Hq) as (j & Hj & Hpj).
            exists j. split; [apply list_elem_of_further, Hj | exact Hpj].
        + constructor; [|exact Hnd'].
          intros Hq. destruct (Hsrc p Hq) as (j & Hj & Hpj).
          assert (i = j) by (apply (NoDup_lookup pts i j p Hnd Hp Hpj)).
          subst j. contradiction. }
    destruct (Hok indices Hlt Hnd') as (out & Hm & Hl & _ & Hndo).
    exists out. split; [exact Hm|]. split; [lia|]. split; [exact Hndo|].
    intros Hle. lia.
  - apply Nat.ltb_ge in E. exists pts. cbn [fst snd].
    split; [reflexivity|]. split; [exact E|]. split; [exact Hnd|].
    intros _. split; reflexivity.
Qed.

End Grid.

End VGA_grid_properties.

Section VGA_grid_examples.
Import Py VGA.

Lemma sample_grid_sound_witness :
  let p := (2, 0)%Z in
  (1 <= grid_step_px 0.5 2)%Z /\
  (0 <= fst p < width small_image)%Z /\ (0 <= snd p < height small_image)%Z /\
  (128 < gray small_image (snd p) (fst p))%Z /\
  (exists i, fst p = (Z.of_nat i * grid_step_px 0.5 2)%Z) /\
  (exists j, snd p = (Z.of_nat j * grid_step_px 0.5 2)%Z).
Proof.
  apply (sample_grid_sound (H := first_indices) 0.5 small_image 2 tt
           [(0, 0); (2, 0); (0, 1); (1, 1); (2, 1)]%Z (2, 0)%Z).
  - vm_compute. reflexivity.
  - apply (bool_decide_unpack _). vm_compute. exact I.
Defined.

Lemma sample_grid_capped_witness :
  exists points,
    fst (_generate_sample_grid 0.5 small_image 2 tt) = Ok points /\
    (length points <= 5000)%nat /\ NoDup points /\
    ((length (lattice_points 0.5 small_image 2) <= 5000)%nat ->
     points = lattice_points 0.5 small_image 2 /\
     snd (_generate_sample_grid 0.5 small_image 2 tt) = tt).
Proof.
  apply (sample_grid_capped (H := first_indices) 0.5 small_image 2 tt).
  intros n k s Hk. cbn. split; [apply length_seq|].
  split; [apply NoDup_seq|].
  apply Forall_forall. intros i Hi. apply elem_of_seq in Hi. lia.
Defined.

End VGA_grid_examples.

(** ** Critical points and the visibility summary *)

Section Sorting_properties.
Local Open Scope Q_scope.

Lemma insert_desc_perm {A : Type} (key : A -> Q) (x : A) (l : list A) :
  insert_desc key x l ≡ₚ x :: l.
Proof.
  induction l as [|y l IH]; cbn [insert_desc]; [reflexivity|].
  destruct (Qle_bool (key y) (key x)); [reflexivity|].
  rewrite IH. apply perm_swap.
Qed.

Lemma sort_desc_perm {A : Type} (key : A -> Q) (l : list A) :
  sort_desc key l ≡ₚ l.
Proof.
  induction l as [|x l IH]; [reflexivity|].
  cbn [sort_desc fold_right]. fold (sort_desc key l).
  rewrite insert_desc_perm, IH. reflexivity.
Qed.

Lemma insert_asc_perm {A : Type} (key : A -> Q) (x : A) (l : list A) :
  VGA.insert_asc key x l ≡ₚ x :: l.
Proof.
  induction l as [|y l IH]; cbn [VGA.insert_asc]; [reflexivity|].
  destruct (Qle_bool (key x) (key y)); [reflexivity|].
  rewrite IH. apply perm_swap.
Qed.

Lemma sort_asc_perm {A : Type} (key : A -> Q) (l : list A) :
  VGA.sort_asc key l ≡ₚ l.
Proof.
  induction l as [|x l IH]; [reflexivity|].
  cbn [VGA.sort_asc fold_right]. fold (VGA.sort_asc key l).
  rewrite insert_asc_perm, IH. reflexivity.
Qed.

Lemma insert_asc_sorted {A : Type} (key : A -> Q) (x : A) (l : list A) :
  Sorted (fun a b => key a <= key b) l ->
  Sorted (fun a b => key a <= key b) (VGA.insert_asc key x l).
Proof.
  induction l as [|z l IH]; cbn [VGA.insert_asc]; intros Hs.
  - repeat constructor.
  - destruct (Qle_bool (key x) (key z)) eqn:E.
    + apply Qle_bool_iff in E. constructor; [exact Hs|]. constructor. exact E.
    + assert (Hzx : key z <= key x).
      { apply Qlt_le_weak, Qnot_le_lt. intros Hle. apply Qle_bool_iff in Hle.
        congruence. }
      inversion Hs as [|? ? Hs' Hhd]; subst.
      constructor; [apply IH, Hs'|].
      destruct l as [|u l]; cbn [VGA.insert_asc].
      * constructor. exact Hzx.
      * destruct (Qle_bool (key x) (key u)); constructor; [exact Hzx|].
        inversion Hhd; subst. assumption.
Qed.

Lemma sort_asc_sorted {A : Type} (key : A -> Q) (l : list A) :
  Sorted (fun a b => key a <= key b) (VGA.sort_asc key l).
Proof.
  induction l as [|x l IH]; [constructor|].
  cbn [VGA.sort_asc fold_right]. apply insert_asc_sorted, IH.
Qed.

(** In a sorted list every element of a prefix is related to every element
    of the rest. *)
Lemma sorted_take_drop {A : Type} (R : A -> A -> Prop) (l : list A) (k : nat)
    (x y : A) :
  Transitive R -> Sorted R l -> x ∈ take k l -> y ∈ drop k l -> R x y.
Proof.
  intros HT Hs. apply Sorted_StronglySorted in Hs; [|exact HT].
  revert k. induction Hs as [|a l Hs IH Hall]; intros k Hx Hy.
  - rewrite take_nil in Hx. apply elem_of_nil in Hx. contradiction.
  - destruct k as [|k]; [apply elem_of_nil in Hx; contradiction|].
    cbn [take drop] in Hx, Hy. apply elem_of_cons in Hx as [->|Hx].
    + rewrite Forall_forall in Hall. apply Hall.
      eapply subseteq_drop, Hy.
    + eapply IH; eassumption.
Qed.

(** The first [k] of a descending sort dominate every other element. *)
Lemma top_k_desc {A : Type} (key : A -> Q) (l : list A) (k : nat) (x : A) :
  x ∈ l ->
  x ∈ take k (sort_desc key l) \/
  forall y, y ∈ take k (sort_desc key l) -> key x <= key y.
Proof.
  intros Hin. rewrite <- (sort_desc_perm key l) in Hin.
  rewrite <- (take_drop k (sort_desc key l)) in Hin at 1.
  apply elem_of_app in Hin as [Hin|Hin]; [left; exact Hin|].
  right. intros y Hy.
  apply (sorted_take_drop (fun a b => key b <= key a) (sort_desc key l) k y x);
    [|apply sort_desc_sorted|exact Hy|exact Hin].
  intros a b c Hab Hbc. eapply Qle_trans; eassumption.
Qed.

Lemma bottom_k_asc {A : Type} (key : A -> Q) (l : list A) (k : nat) (x : A) :
  x ∈ l ->
  x ∈ take k (VGA.sort_asc key l) \/
  forall y, y ∈ take k (VGA.sort_asc key l) -> key y <= key x.
Proof.
  intros Hin. rewrite <- (sort_asc_perm key l) in Hin.
  rewrite <- (take_drop k (VGA.sort_asc key l)) in Hin at 1.
  apply elem_of_app in Hin as [Hin|Hin]; [left; exact Hin|].
  right. intros y Hy.
  apply (sorted_take_drop (fun a b => key a <= key b) (VGA.sort_asc key l) k y x);
    [|apply sort_asc_sorted|exact Hy|exact Hin].
  intros a b c Hab Hbc. eapply Qle_trans; eassumption.
Qed.

End Sorting_properties.

Section VGA_report_properties.
Import Py VGA.
Context `{Geometry}.
Local Open Scope Q_scope.

(** X18: each of the three critical-point lists has min(20, n) entries taken
    from the metrics; a point left out of the high-integration list has a
    visual integration no larger than any listed one, a point left out of
    the blind spots one no smaller than any listed one, and likewise for
    the isovist area of the wide-view points. *)
Theorem critical_points_dominate (vga_metrics : list (Point * VGAMetrics)) :
  let c := _identify_critical_visibility_points vga_metrics in
  let n := length vga_metrics in
  length (high_visual_integration c) = Nat.min 20 n /\
  length (blind_spots c) = Nat.min 20 n /\
  length (wide_view_points c) = Nat.min 20 n /\
  (forall p m, (p, m) ∈ vga_metrics ->
     ((p, visual_integration m) ∈ high_visual_integration c \/
      forall q v, (q, v) ∈ high_visual_integration c ->
                  visual_integration m <= v) /\
     ((p, visual_integration m) ∈ blind_spots c \/
      forall q v, (q, v) ∈ blind_spots c -> v <= visual_integration m) /\
     ((p, isovist_area m) ∈ wide_view_points c \/
      forall q v, (q, v) ∈ wide_view_points c -> isovist_area m <= v)).
Proof.
  cbv zeta. unfold _identify_critical_visibility_points.
  cbn [high_visual_integration blind_spots wide_view_points].
  rewrite !length_map, !length_take.
  rewrite (Permutation_length (sort_desc_perm _ vga_metrics)).
  rewrite (Permutation_length (sort_asc_perm _ vga_metrics)).
  rewrite (Permutation_length (sort_desc_perm _ vga_metrics)).
  split; [reflexivity|]. split; [reflexivity|]. split; [reflexivity|].
  intros p m Hin. split; [|split].
  - destruct (top_k_desc (fun x => visual_integration (snd x)) vga_metrics
                20 (p, m) Hin) as [Ht|Hd].
    + left. apply (list_elem_of_fmap_2
                     (fun x => (fst x, visual_integration (snd x))) _ (p, m) Ht).
    + right. intros q v Hq.
      apply list_elem_of_fmap in Hq as ([q' m'] & [= -> ->] & Hq).
      apply (Hd _ Hq).
  - destruct (bottom_k_asc (fun x => visual_integration (snd x)) vga_metrics
                20 (p, m) Hin) as [Ht|Hd].
    + left. apply (list_elem_of_fmap_2
                     (fun x => (fst x, visual_integration (snd x))) _ (p, m) Ht).
    + right. intros q v Hq.
      apply list_elem_of_fmap in Hq as ([q' m'] & [= -> ->] & Hq).
      apply (Hd _ Hq).
  - destruct (top_k_desc (fun x => isovist_area (snd x)) vga_metrics
                20 (p, m) Hin) as [Ht|Hd].
    + left. apply (list_elem_of_fmap_2
                     (fun x => (fst x, isovist_area (snd x))) _ (p, m) Ht).
    + right. intros q v Hq.
      apply list_elem_of_fmap in Hq as ([q' m'] & [= -> ->] & Hq).
      apply (Hd _ Hq).
Qed.

(** X19: with at most 20 points every point is on all three lists: it is
    reported as a high-integration point and as a blind spot at once. *)
Theorem few_points_all_critical (vga_metrics : list (Point * VGAMetrics))
    (p : Point) (m : VGAMetrics) :
  (length vga_metrics <= 20)%nat ->
  (p, m) ∈ vga_metrics ->
  let c := _identify_critical_visibility_points vga_metrics in
  (p, visual_integration m) ∈ high_visual_integration c /\
  (p, visual_integration m) ∈ blind_spots c /\
  (p, isovist_area m) ∈ wide_view_points c.
Proof.
  intros Hn Hin. cbv zeta. unfold _identify_critical_visibility_points.
  cbn [high_visual_integration blind_spots wide_view_points].
  rewrite !take_ge.
  - split; [|split].
    + apply (list_elem_of_fmap_2
               (fun x => (fst x, visual_integration (snd x))) _ (p, m)).
      rewrite sort_desc_perm. exact Hin.
    + apply (list_elem_of_fmap_2
               (fun x => (fst x, visual_integration (snd x))) _ (p, m)).
      rewrite sort_asc_perm. exact Hin.
    + apply (list_elem_of_fmap_2
               (fun x => (fst x, isovist_area (snd x))) _ (p, m)).
      rewrite sort_desc_perm. exact Hin.
  - rewrite (Permutation_length (sort_desc_perm _ vga_metrics)). exact Hn.
  - rewrite (Permutation_length (sort_asc_perm _ vga_metrics)). exact Hn.
  - rewrite (Permutation_length (sort_desc_perm _ vga_metrics)). exact Hn.
Qed.

Lemma few_points_all_critical_witness :
  let c := _identify_critical_visibility_points three_point_metrics in
  ((20, 0)%Z, 0) ∈ high_visual_integration c /\
  ((20, 0)%Z, 0) ∈ blind_spots c /\
  ((20, 0)%Z, 0) ∈ wide_view_points c.
Proof.
  apply (few_points_all_critical three_point_metrics (20, 0)%Z
           (mkMetrics 0 0 0 0 0 0)).
  - cbn. lia.
  - unfold three_point_metrics. do 2 apply list_elem_of_further.
    apply list_elem_of_here.
Defined.

(** *** Summary *)

Lemma np_min_le (l : list Q) (x : Q) : x ∈ l -> np_min l <= x.
Proof.
  destruct l as [|a l]; [intros Hx; apply elem_of_nil in Hx; contradiction|].
  cbn [np_min].
  assert (Hgen : forall l m,
            fold_left (fun m y => if Qlt_bool y m then y else m) l m <= m /\
            forall y, y ∈ l ->
              fold_left (fun m y => if Qlt_bool y m then y else m) l m <= y).
  { clear. induction l as [|b l IH]; intros m; cbn [fold_left].
    - split; [apply Qle_refl|]. intros y Hy. apply elem_of_nil in Hy.
      contradiction.
    - destruct (Qlt_bool b m) eqn:E.
      + apply Qlt_bool_iff in E. destruct (IH b) as [H1 H2]. split; [lra|].
        intros y Hy. apply elem_of_cons in Hy as [->|Hy]; [exact H1|].
        apply H2, Hy.
      + apply Qlt_bool_false_iff in E. destruct (IH m) as [H1 H2].
        split; [exact H1|].
        intros y Hy. apply elem_of_cons in Hy as [->|Hy]; [lra|].
        apply H2, Hy. }
  intros Hx. destruct (Hgen l a) as [H1 H2].
  apply elem_of_cons in Hx as [->|Hx]; [exact H1 | apply H2, Hx].
Qed.

Lemma np_max_ge (l : list Q) (x : Q) : x ∈ l -> x <= np_max l.
Proof.
  destruct l as [|a l]; [intros Hx; apply elem_of_nil in Hx; contradiction|].
  cbn [np_max].
  assert (Hgen : forall l m,
            m <= fold_left (fun m y => if Qlt_bool m y then y else m) l m /\
            forall y, y ∈ l ->
              y <= fold_left (fun m y => if Qlt_bool m y then y else m) l m).
  { clear. induction l as [|b l IH]; intros m; cbn [fold_left].
    - split; [apply Qle_refl|]. intros y Hy. apply elem_of_nil in Hy.
      contradiction.
    - destruct (Qlt_bool m b) eqn:E.
      + apply Qlt_bool_iff in E. destruct (IH b) as [H1 H2]. split; [lra|].
        intros y Hy. apply elem_of_cons in Hy as [->|Hy]; [exact H1|].
        apply H2, Hy.
      + apply Qlt_bool_false_iff in E. destruct (IH m) as [H1 H2].
        split; [exact H1|].
        intros y Hy. apply elem_of_cons in Hy as [->|Hy]; [lra|].
        apply H2, Hy. }
  intros Hx. destruct (Hgen l a) as [H1 H2].
  apply elem_of_cons in Hx as [->|Hx]; [exact H1 | apply H2, Hx].
Qed.

Lemma Qsum_bounds (l : list Q) (lo hi : Q) :
  (forall x, x ∈ l -> lo <= x <= hi) ->
  inject_Z (Z.of_nat (length l)) * lo <= Qsum l
  <= inject_Z (Z.of_nat (length l)) * hi.
Proof.
  induction l as [|a l IH]; intros Hb.
  - change (inject_Z (Z.of_nat (length (@nil Q)))) with 0.
    change (Qsum []) with 0. lra.
  - cbn [Qsum fold_right length]. fold (Qsum l).
    rewrite Nat2Z.inj_succ, <- Z.add_1_r, inject_Z_plus.
    destruct IH as [I1 I2];
      [intros x Hx; apply Hb, list_elem_of_further, Hx|].
    destruct (Hb a (list_elem_of_here _ _)) as [A1 A2].
    change (inject_Z 1) with 1. lra.
Qed.

Lemma np_mean_bounds (l : list Q) (lo hi : Q) :
  l <> [] ->
  (forall x, x ∈ l -> lo <= x <= hi) ->
  lo <= WES.np_mean l <= hi.
Proof.
  intros Hne Hb. unfold WES.np_mean.
  assert (Hn : 0 < inject_Z (Z.of_nat (length l))).
  { change 0 with (inject_Z 0). rewrite <- Zlt_Qlt.
    destruct l; [contradiction | cbn [length]; lia]. }
  destruct (Qsum_bounds l lo hi Hb) as [S1 S2]. split.
  - apply Qle_shift_div_l; [exact Hn|]. lra.
  - apply Qle_shift_div_r; [exact Hn|]. lra.
Qed.

Lemma visibility_summary_Some (vga_metrics : list (Point * VGAMetrics))
    (s : VisibilitySummary) :
  _generate_visibility_summary vga_metrics = Some s ->
  vga_metrics <> [] /\
  let vis := map (fun m => visual_integration (snd m)) vga_metrics in
  let areas := map (fun m => isovist_area (snd m)) vga_metrics in
  s = mkVisSummary (WES.np_mean vis) (np_std vis) (np_min vis) (np_max vis)
        (WES.np_mean areas) (np_std areas)
        (length (filter (fun v => Qlt_bool v 0.2 = true) vis)).
Proof.
  destruct vga_metrics as [|x l]; [discriminate|].
  unfold _generate_visibility_summary. intros [= <-].
  split; [discriminate | reflexivity].
Qed.

(** X20: the visibility summary is missing exactly for empty metrics;
    otherwise the minimum, the mean and the maximum of the visual
    integration are in this order, and the number of blind spots (visual
    integration below 0.2) does not exceed the number of points and is zero
    when the minimum is at least 0.2. *)
Theorem visibility_summary_ordered (vga_metrics : list (Point * VGAMetrics)) :
  (_generate_visibility_summary vga_metrics = None <-> vga_metrics = []) /\
  forall s, _generate_visibility_summary vga_metrics = Some s ->
    min_visual_integration s <= mean_visual_integration s
      <= max_visual_integration s /\
    (blind_spots_count s <= length vga_metrics)%nat /\
    (0.2 <= min_visual_integration s -> blind_spots_count s = 0%nat).
Proof.
  split.
  - destruct vga_metrics; cbn; split; intros; congruence.
  - intros s Hs. apply visibility_summary_Some in Hs as [Hne ->].
    cbn [min_visual_integration mean_visual_integration
         max_visual_integration blind_spots_count].
    set (vis := map (fun m => visual_integration (snd m)) vga_metrics).
    assert (Hvis : vis <> []).
    { unfold vis. destruct vga_metrics; [contradiction | discriminate]. }
    split; [|split].
    + apply np_mean_bounds; [exact Hvis|].
      intros v Hv. split; [apply np_min_le, Hv | apply np_max_ge, Hv].
    + etransitivity; [apply length_filter|].
      unfold vis. rewrite length_map. reflexivity.
    + intros Hmin.
      assert (Hnil : filter (fun v => Qlt_bool v 0.2 = true) vis = []).
      { destruct (filter _ vis) as [|v rest] eqn:Ef; [reflexivity|].
        assert (Hv : v ∈ filter (fun v => Qlt_bool v 0.2 = true) vis)
          by (rewrite Ef; apply list_elem_of_here).
        apply list_elem_of_filter in Hv as [Hlt Hv].
        apply Qlt_bool_iff in Hlt. pose proof (np_min_le vis v Hv). lra. }
      rewrite Hnil. reflexivity.
Qed.

End VGA_report_properties.

(** ** The agent-based simulator *)

Section AgentSim_properties.
Import Py AgentSim.

(** A run is a function of its inputs and of the generator state it starts
    from: equal states give equal agents and leave equal states. *)
Lemma run_scenario_deterministic `{RandomState} (graph : Graph)
    (signage_locations landmarks : list string)
    (origin destination : string) (n_agents : nat) (s1 s2 : rng) :
  s1 = s2 ->
  _run_scenario_agents graph signage_locations landmarks
                       origin destination n_agents s1
  = _run_scenario_agents graph signage_locations landmarks
                         origin destination n_agents s2.
Proof. intros ->. reflexivity. Qed.

(** The second of two consecutive runs starts from the state that the first
    one left, not from the seeded state. *)
Lemma seed_then_run_twice_second `{RandomState} (seed : nat) (graph : Graph)
    (signage_locations landmarks : list string)
    (origin destination : string) (n_agents : nat) :
  let run := _run_scenario_agents graph signage_locations landmarks
                                  origin destination n_agents in
  snd (seed_then_run_twice seed graph signage_locations landmarks
                           origin destination n_agents)
  = fst (run (snd (run (seeded seed)))).
Proof.
  cbv zeta. unfold seed_then_run_twice.
  destruct (_run_scenario_agents _ _ _ _ _ _ (seeded seed)) as [first s].
  cbn [snd]. destruct (_run_scenario_agents _ _ _ _ _ _ s). reflexivity.
Qed.

(** Two runs that each start from the state seeded with the same seed
    return the same list of agents. *)
Lemma reseeded_runs_agree `{RandomState} (seed : nat) (graph : Graph)
    (signage_locations landmarks : list string)
    (origin destination : string) (n_agents : nat) :
  fst (seed_before_each_run seed graph signage_locations landmarks
                            origin destination n_agents)
  = snd (seed_before_each_run seed graph signage_locations landmarks
                              origin destination n_agents).
Proof.
  unfold seed_before_each_run.
  destruct (_run_scenario_agents _ _ _ _ _ _ (seeded seed)) as [agents s].
  reflexivity.
Qed.

(** A run that continues from the state a previous run left is another
    matter: with the generator seeded once and the scenario
    entrance -> emergency run twice with one agent, the first run creates a
    first-time visitor who needs 18 s and the second, which continues the
    stream of draws, a familiar one who needs 18 / 1.4 s. *)
Lemma consecutive_runs_differ :
  let runs := seed_then_run_twice (H := draw_stream) 0
                SpaceSyntax.entrance_route [] []
                "entrance" "emergency" 1 in
  map agent_type (fst runs) = [FIRST_TIME] /\
  map agent_type (snd runs) = [FAMILIAR] /\
  map path (fst runs) = map path (snd runs) /\
  fst runs <> snd runs.
Proof.
  cbv zeta.
  set (runs := seed_then_run_twice _ _ _ _ _ _ _).
  assert (H1 : map agent_type (fst runs) = [FIRST_TIME])
    by (vm_compute; reflexivity).
  assert (H2 : map agent_type (snd runs) = [FAMILIAR])
    by (vm_compute; reflexivity).
  split; [exact H1|]. split; [exact H2|]. split.
  - vm_compute. reflexivity.
  - intros Heq. rewrite Heq in H1. rewrite H1 in H2. discriminate H2.
Qed.

(** The route of the specification walked by one familiar agent without an
    error draw: path entrance, node_1, emergency, distance 18, no error, and
    18 / 1.4 seconds. *)
Lemma familiar_agent_on_entrance_route :
  exists a,
    snd (seed_then_run_twice (H := draw_stream) 0
           SpaceSyntax.entrance_route [] [] "entrance" "emergency" 1) = [a] /\
    agent_type a = FAMILIAR /\
    path a = Some ["entrance"; "node_1"; "emergency"]%string /\
    (distance_traveled a == 18)%Q /\
    errors a = 0%nat /\
    (time_elapsed a == 18 / 1.4)%Q /\
    success a = true.
Proof.
  eexists. split; [vm_compute; reflexivity|].
  repeat split; vm_compute; reflexivity.
Qed.

(** *** The outcomes depend on the generator through its draws only *)

Section Draws.
Context (R1 R2 : RandomState) (sim : @rng R1 -> @rng R2 -> Prop).
Hypothesis Hdraws : same_draws R1 R2 sim.

Lemma related_ret {A : Type} (a : A) :
  related sim (@mret _ (@Rand_ret R1) A a) (@mret _ (@Rand_ret R2) A a).
Proof. intros s1 s2 Hs. split; [reflexivity | exact Hs]. Qed.

Lemma related_bind {A B : Type} (m1 : @Rand R1 A) (m2 : @Rand R2 A)
    (f1 : A -> @Rand R1 B) (f2 : A -> @Rand R2 B) :
  related sim m1 m2 ->
  (forall a, related sim (f1 a) (f2 a)) ->
  related sim (@mbind _ (@Rand_bind R1) A B f1 m1)
              (@mbind _ (@Rand_bind R2) A B f2 m2).
Proof.
  intros Hm Hf s1 s2 Hs. unfold mbind, Rand_bind.
  destruct (Hm s1 s2 Hs) as [Ha Hs'].
  destruct (m1 s1) as [a1 t1], (m2 s2) as [a2 t2]. cbn [fst snd] in Ha, Hs'.
  subst a2. apply Hf, Hs'.
Qed.

Lemma related_random : related sim (@random R1) (@random R2).
Proof. apply Hdraws. Qed.

Lemma related_choice (a : list string) :
  related sim (@choice R1 a) (@choice R2 a).
Proof.
  unfold choice. apply related_bind; [apply Hdraws|].
  intros i. apply related_ret.
Qed.

Lemma related_choice_p {A : Type} (dist : list (A * Q)) (d : A) :
  related sim (@choice_p R1 A dist d) (@choice_p R2 A dist d).
Proof.
  unfold choice_p. apply related_bind; [apply related_random|].
  intros u. apply related_ret.
Qed.

Variable graph : Graph.
Variable signage_locations : list string.
Variable landmarks : list string.

Lemma related_strategy_loop (destination : string) (rest : list string) :
  forall (current : string) (actual_path : list string) (agent : Agent),
  related sim
    (@strategy_loop R1 graph signage_locations landmarks destination rest
                    current actual_path agent)
    (@strategy_loop R2 graph signage_locations landmarks destination rest
                    current actual_path agent).
Proof.
  induction rest as [|next_node rest IH]; intros current actual_path agent;
    cbn [strategy_loop].
  - apply related_ret.
  - apply related_bind; [apply related_random|]. intros u.
    destruct (Qlt_bool u _).
    + destruct (neighbors graph current) as [|n nbrs]; [apply IH|].
      apply related_bind; [apply related_choice|]. intros wrong_choice.
      destruct (bool_decide (wrong_choice ≠ next_node)); [|apply IH].
      destruct (shortest_path graph wrong_choice destination);
        apply related_ret.
    + apply IH.
Qed.

Lemma related_apply_agent_strategy (agent : Agent) (optimal_path : list string)
    (destination : string) :
  related sim
    (@_apply_agent_strategy R1 graph signage_locations landmarks agent
                            optimal_path destination)
    (@_apply_agent_strategy R2 graph signage_locations landmarks agent
                            optimal_path destination).
Proof.
  unfold _apply_agent_strategy. destruct optimal_path as [|first rest].
  - apply related_ret.
  - apply related_bind; [apply related_strategy_loop|].
    intros r. apply related_ret.
Qed.

Lemma related_simulate_agent_journey (agent : Agent) (origin destination : string) :
  related sim
    (@_simulate_agent_journey R1 graph signage_locations landmarks agent
                              origin destination)
    (@_simulate_agent_journey R2 graph signage_locations landmarks agent
                              origin destination).
Proof.
  unfold _simulate_agent_journey.
  destruct (negb _ || negb _); [apply related_ret|].
  destruct (shortest_path graph origin destination) as [shortest|e];
    [|apply related_ret].
  apply related_bind; [apply related_apply_agent_strategy|].
  intros [[actual_path agent']|e]; apply related_ret.
Qed.

Lemma related_run_agents (origin destination : string) (n_agents : nat) :
  forall i,
  related sim
    (@run_agents R1 graph signage_locations landmarks origin destination
                 n_agents i)
    (@run_agents R2 graph signage_locations landmarks origin destination
                 n_agents i).
Proof.
  induction n_agents as [|n IH]; intros i; cbn [run_agents].
  - apply related_ret.
  - apply related_bind; [apply related_choice_p|]. intros agent_type.
    apply related_bind; [apply related_simulate_agent_journey|]. intros agent.
    apply related_bind; [apply IH|]. intros agents. apply related_ret.
Qed.

(** Two generators that deliver the same draws give the same agents, whatever
    else their states hold. *)
Lemma draws_determine_agents (origin destination : string) (n_agents : nat)
    (s1 : @rng R1) (s2 : @rng R2) :
  sim s1 s2 ->
  fst (@_run_scenario_agents R1 graph signage_locations landmarks
                             origin destination n_agents s1)
  = fst (@_run_scenario_agents R2 graph signage_locations landmarks
                               origin destination n_agents s2).
Proof.
  intros Hs. unfold _run_scenario_agents.
  apply (related_run_agents origin destination n_agents 0%nat s1 s2 Hs).
Qed.

End Draws.

(** *** Runs under a fixed seed *)

Lemma Forall2_same_outcome (l : list Agent) : Forall2 same_outcome l l.
Proof.
  induction l as [|a l IH]; constructor; [|exact IH].
  repeat split.
Qed.

(** Two samplers that deliver the same indices give the same sample grid. *)
Lemma choices_determine_grid (S1 S2 : VGA.Subsampler)
    (ssim : @VGA.sampler_state S1 -> @VGA.sampler_state S2 -> Prop)
    (grid_size : Q) (image : VGA.Image) (scale : Q)
    (s1 : @VGA.sampler_state S1) (s2 : @VGA.sampler_state S2) :
  VGA.same_choices S1 S2 ssim ->
  ssim s1 s2 ->
  fst (@VGA._generate_sample_grid S1 grid_size image scale s1)
  = fst (@VGA._generate_sample_grid S2 grid_size image scale s2).
Proof.
  intros Hch Hs. unfold VGA._generate_sample_grid. cbv zeta.
  destruct (5000 <? length (VGA.lattice_points grid_size image scale))%nat;
    [|reflexivity].
  destruct (Hch (length (VGA.lattice_points grid_size image scale)) 5000%nat
                s1 s2 Hs) as [Hi _].
  destruct (@VGA.choice_without_replacement S1 _ _ s1) as [i1 t1].
  destruct (@VGA.choice_without_replacement S2 _ _ s2) as [i2 t2].
  cbn [fst] in *. subst i2. reflexivity.
Qed.



End AgentSim_properties.

(** ** The agent-based simulator: journeys and statistics *)

Section AgentSim_journey_properties.
Import Py AgentSim.
Local Open Scope Q_scope.

(** *** Error probability *)

(** X21: the error probability at a node always lies between 0.015 and
    0.525, so the cap of 0.9 is never reached. *)
Theorem error_probability_bounds (graph : Graph)
    (signage_locations landmarks : list string) (agent : Agent) (node : string) :
  (3 # 200) <= _get_error_probability graph signage_locations landmarks agent node
  <= (21 # 40).
Proof.
  unfold _get_error_probability.
  destruct (agent_type agent), (4 <=? degree graph node)%nat,
           (3 <=? degree graph node)%nat,
           (_has_signage_at signage_locations node),
           (_has_landmark_at landmarks node);
    vm_compute; split; discriminate.
Qed.

(** *** The shortest path of the model is a path of the graph *)

Lemma elem_of_nub (l : list string) (x : string) : x ∈ nub l <-> x ∈ l.
Proof.
  induction l as [|y l IH]; cbn [nub]; [reflexivity|].
  rewrite !elem_of_cons, list_elem_of_filter, IH.
  destruct (decide (x = y)); tauto.
Qed.

Lemma edge_neighbors (g : Graph) (u v : string) (w : Q) :
  (u, v, w) ∈ edges g -> v ∈ neighbors g u /\ u ∈ neighbors g v.
Proof.
  intros He. unfold neighbors. rewrite !elem_of_nub, !list_elem_of_omap. split.
  - exists (u, v, w). split; [exact He|]. cbn.
    destruct (decide (u = u)); [reflexivity | congruence].
  - exists (u, v, w). split; [exact He|]. cbn.
    destruct (decide (u = v)) as [->|]; [reflexivity|].
    destruct (decide (v = v)); [reflexivity | congruence].
Qed.

Lemma is_walk_snoc (g : Graph) (p : list string) (u v : string) :
  is_walk g p -> last p = Some u -> v ∈ neighbors g u -> is_walk g (p ++ [v]).
Proof.
  intros Hw Hl Hv. induction p as [|a p IH]; [discriminate|].
  destruct p as [|b p].
  - injection Hl as ->. cbn. split; [exact Hv | exact I].
  - destruct Hw as [Hab Hw]. split; [exact Hab|].
    apply IH; [exact Hw | exact Hl].
Qed.

Lemma relax_path_well_formed (g : Graph) (source : string)
    (best : gmap string (Q * list string)) (u v : string) (w : Q) :
  v ∈ neighbors g u ->
  paths_well_formed g source best ->
  paths_well_formed g source (relax_path best u v w).
Proof.
  intros Hn Hinv. unfold relax_path.
  destruct (best !! u) as [[du pu]|] eqn:Eu; [|exact Hinv].
  destruct (Hinv u du pu Eu) as (Hh & Hl & Hw).
  assert (Hins : paths_well_formed g source (<[v := (du + w, pu ++ [v])]> best)).
  { intros x d p Hx. destruct (decide (v = x)) as [->|Hne].
    - rewrite lookup_insert_eq in Hx. injection Hx as <- <-.
      split; [|split].
      + rewrite head_snoc, Hh. reflexivity.
      + apply last_snoc.
      + eapply is_walk_snoc; eassumption.
    - rewrite lookup_insert_ne in Hx by exact Hne. eapply Hinv, Hx. }
  destruct (best !! v) as [[dv pv]|]; [|exact Hins].
  destruct (Qlt_bool (du + w) dv); [exact Hins | exact Hinv].
Qed.

Lemma relax_paths_well_formed (g : Graph) (source : string)
    (best : gmap string (Q * list string)) :
  paths_well_formed g source best ->
  paths_well_formed g source (relax_paths g best).
Proof.
  unfold relax_paths.
  assert (Hall : forall e, e ∈ edges g -> e ∈ edges g) by auto.
  revert Hall. generalize (edges g) at 1 3. intros es. revert best.
  induction es as [|[[u v] w] es IH]; intros best Hall Hinv; [exact Hinv|].
  cbn [foldl].
  destruct (edge_neighbors g u v w) as [Hv Hu];
    [apply Hall, list_elem_of_here|].
  apply IH.
  - intros e He. apply Hall, list_elem_of_further, He.
  - apply relax_path_well_formed; [exact Hu|].
    apply relax_path_well_formed; [exact Hv | exact Hinv].
Qed.

Lemma shortest_path_spec (g : Graph) (source target : string) (p : list string) :
  shortest_path g source target = Ok p ->
  head p = Some source /\ last p = Some target /\ is_walk g p.
Proof.
  unfold shortest_path.
  destruct (negb (bool_decide (source ∈ nodes g))); [discriminate|].
  destruct (negb (bool_decide (target ∈ nodes g))); [discriminate|].
  assert (Hinv : paths_well_formed g source
            (Nat.iter (length (nodes g)) (relax_paths g)
                      {[ source := (0, [source]) ]})).
  { induction (length (nodes g)) as [|n IH]; cbn [Nat.iter nat_rect].
    - intros v d p' Hv.
      pose proof (proj1 (lookup_singleton_Some _ _ _ _) Hv) as [<- Heq].
      injection Heq as <- <-. repeat split.
    - apply relax_paths_well_formed, IH. }
  destruct (_ !! target) as [[d p']|] eqn:E; [|discriminate].
  intros [= <-]. eapply Hinv, E.
Qed.


(** *** The route-choice loop *)

Section Journey.
Context `{RandomState}.
Variable graph : Graph.
Variable signage_locations : list string.
Variable landmarks : list string.

Lemma ensures_ret {A : Type} (a : A) (P : A -> Prop) :
  P a -> ensures (mret a) P.
Proof. intros Ha s. exact Ha. Qed.

Lemma ensures_bind {A B : Type} (m : Rand A) (f : A -> Rand B)
    (P : A -> Prop) (Q : B -> Prop) :
  ensures m P -> (forall a, P a -> ensures (f a) Q) -> ensures (mbind f m) Q.
Proof.
  intros Hm Hf s. unfold mbind, Rand_bind.
  specialize (Hm s). destruct (m s) as [a s']. apply Hf, Hm.
Qed.

Lemma ensures_any {A : Type} (m : Rand A) : ensures m (fun _ => True).
Proof. intros s. exact I. Qed.

Lemma ensures_mono {A : Type} (m : Rand A) (P Q : A -> Prop) :
  ensures m P -> (forall a, P a -> Q a) -> ensures m Q.
Proof. intros Hm HPQ s. apply HPQ, Hm. Qed.

(** The counters after the loop, against the counters before it. *)
Lemma strategy_loop_counters (destination : string) (rest : list string) :
  forall (current : string) (actual_path : list string) (agent : Agent),
  ensures
    (strategy_loop graph signage_locations landmarks destination rest
                   current actual_path agent)
    (fun r =>
       id (snd r) = id agent /\
       agent_type (snd r) = agent_type agent /\
       (hesitations agent <= hesitations (snd r) <= hesitations agent + 1)%nat /\
       (hesitations (snd r) + errors agent
        <= errors (snd r) + hesitations agent)%nat /\
       exists ext, fst r = actual_path ++ ext).
Proof.
  induction rest as [|next_node rest IH]; intros current actual_path agent;
    cbn [strategy_loop].
  - apply ensures_ret. cbn. repeat split; try lia.
    exists []. symmetry. apply app_nil_r.
  - eapply ensures_bind; [apply ensures_any|]. intros u _.
    destruct (Qlt_bool u _).
    + destruct (neighbors graph current) as [|n nbrs].
      * eapply ensures_mono; [apply IH|].
        cbn. intros r (Hid & Hty & Hh & He & Hext).
        repeat split; try assumption; lia.
      * eapply ensures_bind; [apply ensures_any|]. intros wrong_choice _.
        destruct (bool_decide (wrong_choice ≠ next_node)).
        -- destruct (shortest_path graph wrong_choice destination) as [cp|e];
             apply ensures_ret; cbn; repeat split; try lia.
           ++ exists ([wrong_choice] ++ tail cp). rewrite <- app_assoc. reflexivity.
           ++ exists [wrong_choice]. reflexivity.
        -- eapply ensures_mono; [apply IH|].
           cbn. intros r (Hid & Hty & Hh & He & [ext Hext]).
           repeat split; try assumption; try lia.
           exists ([wrong_choice] ++ ext). rewrite Hext, <- app_assoc. reflexivity.
    + eapply ensures_mono; [apply IH|].
      intros r (Hid & Hty & Hh & He & [ext Hext]).
      destruct (_signage_visible_at signage_locations current next_node);
        cbn in Hid, Hty, Hh, He; repeat split; try assumption; try lia;
        exists ([next_node] ++ ext); rewrite Hext, <- app_assoc; reflexivity.
Qed.

(** Without a hesitation the loop appends the rest of the optimal path. *)
Lemma strategy_loop_unhesitating (destination : string) (rest : list string) :
  forall (current : string) (actual_path : list string) (agent : Agent),
  is_walk graph (current :: rest) ->
  ensures
    (strategy_loop graph signage_locations landmarks destination rest
                   current actual_path agent)
    (fun r => hesitations (snd r) = hesitations agent ->
              fst r = actual_path ++ rest).
Proof.
  induction rest as [|next_node rest IH]; intros current actual_path agent Hw;
    cbn [strategy_loop].
  - apply ensures_ret. intros _. symmetry. apply app_nil_r.
  - destruct Hw as [Hnext Hw].
    eapply ensures_bind; [apply ensures_any|]. intros u _.
    destruct (Qlt_bool u _).
    + destruct (neighbors graph current) as [|n nbrs] eqn:En.
      * exfalso. eapply not_elem_of_nil, Hnext.
      * eapply ensures_bind; [apply ensures_any|]. intros wrong_choice _.
        destruct (bool_decide (wrong_choice ≠ next_node)) eqn:Eb.
        -- destruct (shortest_path graph wrong_choice destination) as [cp|e];
             apply ensures_ret; cbn; intros Hh; lia.
        -- apply bool_decide_eq_false in Eb.
           assert (wrong_choice = next_node) as ->
             by (destruct (decide (wrong_choice = next_node)); [assumption|tauto]).
           eapply ensures_mono; [apply IH, Hw|].
           cbn. intros r Hr Hh. rewrite (Hr Hh), <- app_assoc. reflexivity.
    + eapply ensures_mono; [apply IH, Hw|].
      intros r Hr Hh. rewrite Hr, <- app_assoc; [reflexivity|].
      destruct (_signage_visible_at signage_locations current next_node);
        exact Hh.
Qed.

(** *** One journey *)

Lemma ensures_and {A : Type} (m : Rand A) (P Q : A -> Prop) :
  ensures m P -> ensures m Q -> ensures m (fun a => P a /\ Q a).
Proof. intros HP HQ s. split; [apply HP | apply HQ]. Qed.

Lemma shortest_path_Ok_nodes (g : Graph) (source target : string) (p : list string) :
  shortest_path g source target = Ok p ->
  negb (bool_decide (source ∈ nodes g))
  || negb (bool_decide (target ∈ nodes g)) = false.
Proof.
  unfold shortest_path.
  destruct (negb (bool_decide (source ∈ nodes g))); [discriminate|].
  destruct (negb (bool_decide (target ∈ nodes g))); [discriminate|].
  reflexivity.
Qed.

Lemma apply_agent_strategy_spec (agent : Agent) (first : string)
    (rest : list string) (destination : string) :
  is_walk graph (first :: rest) ->
  ensures
    (_apply_agent_strategy graph signage_locations landmarks agent
                           (first :: rest) destination)
    (fun x => exists p a, x = Ok (p, a) /\
       id a = id agent /\ agent_type a = agent_type agent /\
       (hesitations agent <= hesitations a <= hesitations agent + 1)%nat /\
       (hesitations a + errors agent <= errors a + hesitations agent)%nat /\
       (hesitations a = hesitations agent -> p = first :: rest)).
Proof.
  intros Hwalk. unfold _apply_agent_strategy.
  eapply ensures_bind.
  - apply ensures_and;
      [apply strategy_loop_counters | apply strategy_loop_unhesitating, Hwalk].
  - cbn beta. intros [p a] [(Hid & Hty & Hh & He & Hext) Hun].
    apply ensures_ret. exists p, a. cbn [fst snd] in *.
    split; [reflexivity|]. split; [exact Hid|]. split; [exact Hty|].
    split; [exact Hh|]. split; [exact He | exact Hun].
Qed.

(** What a journey leaves in the agent. *)
Lemma journey_spec (agent : Agent) (origin destination : string) :
  ensures
    (_simulate_agent_journey graph signage_locations landmarks agent
                             origin destination)
    (fun a =>
       (id a = id agent /\ agent_type a = agent_type agent /\
        (hesitations agent <= hesitations a <= hesitations agent + 1)%nat /\
        (hesitations a + errors agent <= errors a + hesitations agent)%nat) /\
       (forall sp, shortest_path graph origin destination = Ok sp ->
          hesitations a = hesitations agent ->
          path a = Some sp /\ success a = true /\
          distance_traveled a = _calculate_path_length graph sp /\
          time_elapsed a = _estimate_travel_time graph a sp) /\
       (forall e, shortest_path graph origin destination = Raise e ->
          a = failed agent)).
Proof.
  unfold _simulate_agent_journey.
  destruct (negb _ || negb _) eqn:Eg.
  { apply ensures_ret. split; [cbn; repeat split; lia|]. split.
    - intros sp Hsp. apply shortest_path_Ok_nodes in Hsp. congruence.
    - reflexivity. }
  destruct (shortest_path graph origin destination) as [shortest|e] eqn:Esp.
  2:{ apply ensures_ret. split; [cbn; repeat split; lia|]. split.
      - discriminate.
      - reflexivity. }
  apply shortest_path_spec in Esp as (Hhead & Hlast & Hwalk).
  destruct shortest as [|first rest]; [discriminate|].
  eapply ensures_bind; [apply apply_agent_strategy_spec, Hwalk|].
  cbn beta. intros x (p & a & -> & Hid & Hty & Hh & He & Hun).
  apply ensures_ret. cbn [id agent_type hesitations errors path success
                          distance_traveled time_elapsed].
  split; [repeat split; try assumption; lia|]. split.
  - intros sp [= <-] Hhes. specialize (Hun Hhes). subst p.
    rewrite Hlast. split; [reflexivity|]. split.
    + apply bool_decide_eq_true_2. reflexivity.
    + split; reflexivity.
  - discriminate.
Qed.

(** *** The agents of a scenario *)

Lemma run_agents_Forall (P : Agent -> Prop) (origin destination : string) :
  (forall i t,
     ensures (_simulate_agent_journey graph signage_locations landmarks
                (mkAgent i t None 0 0 0 0 0 false) origin destination) P) ->
  forall n_agents i,
  ensures (run_agents graph signage_locations landmarks origin destination
                      n_agents i)
          (Forall P).
Proof.
  intros HP n_agents. induction n_agents as [|n IH]; intros i; cbn [run_agents].
  - apply ensures_ret. constructor.
  - eapply ensures_bind; [apply ensures_any|]. intros t _.
    eapply ensures_bind; [apply HP|]. intros a Ha.
    eapply ensures_bind; [apply IH|]. intros l Hl.
    apply ensures_ret. constructor; assumption.
Qed.

Lemma run_agents_length (origin destination : string) (n_agents : nat) :
  forall i,
  ensures (run_agents graph signage_locations landmarks origin destination
                      n_agents i)
          (fun l => length l = n_agents).
Proof.
  induction n_agents as [|n IH]; intros i; cbn [run_agents].
  - apply ensures_ret. reflexivity.
  - eapply ensures_bind; [apply ensures_any|]. intros t _.
    eapply ensures_bind; [apply ensures_any|]. intros a _.
    eapply ensures_bind; [apply IH|]. intros l Hl.
    apply ensures_ret. cbn. rewrite Hl. reflexivity.
Qed.

Lemma agents_satisfy (P : Agent -> Prop) (origin destination : string)
    (n_agents : nat) (s : rng) (a : Agent) :
  (forall i t,
     ensures (_simulate_agent_journey graph signage_locations landmarks
                (mkAgent i t None 0 0 0 0 0 false) origin destination) P) ->
  a ∈ fst (_run_scenario_agents graph signage_locations landmarks
                                origin destination n_agents s) ->
  P a.
Proof.
  intros HP Ha.
  pose proof (run_agents_Forall P origin destination HP n_agents 0%nat s) as HAll.
  exact (proj1 (Forall_forall P _) HAll a Ha).
Qed.

(** X22: an agent hesitates at most once on its journey, and only after
    an error. *)
Theorem agents_hesitate_at_most_once (origin destination : string)
    (n_agents : nat) (s : rng) (a : Agent) :
  a ∈ fst (_run_scenario_agents graph signage_locations landmarks
                                origin destination n_agents s) ->
  (hesitations a <= 1)%nat /\ (hesitations a <= errors a)%nat.
Proof.
  intros Ha.
  apply (agents_satisfy
    (fun a => (hesitations a <= 1)%nat /\ (hesitations a <= errors a)%nat)
    origin destination n_agents s a); [|exact Ha].
  intros i t.
  eapply ensures_mono; [apply journey_spec|].
  cbn. intros b ((_ & _ & Hh & He) & _). lia.
Qed.

(** X23: an agent that does not hesitate walks exactly the shortest
    path, reaches the destination, and its time is the time of that path plus
    ten seconds for every error. *)
Theorem unhesitating_agent_walks_shortest_path (origin destination : string)
    (n_agents : nat) (s : rng) (a : Agent) (sp : list string) :
  shortest_path graph origin destination = Ok sp ->
  a ∈ fst (_run_scenario_agents graph signage_locations landmarks
                                origin destination n_agents s) ->
  hesitations a = 0%nat ->
  path a = Some sp /\ success a = true /\
  distance_traveled a = _calculate_path_length graph sp /\
  time_elapsed a = _estimate_travel_time graph a sp.
Proof.
  intros Hsp Ha Hh.
  apply (agents_satisfy
    (fun a => hesitations a = 0%nat ->
       path a = Some sp /\ success a = true /\
       distance_traveled a = _calculate_path_length graph sp /\
       time_elapsed a = _estimate_travel_time graph a sp)
    origin destination n_agents s a); [|exact Ha|exact Hh].
  intros i t.
  eapply ensures_mono; [apply journey_spec|].
  cbn beta. intros b (_ & Hb & _). apply Hb, Hsp.
Qed.

(** X24: when the origin or the destination is not in the graph, or no
    path joins them, every agent of the scenario fails without a path, an
    error, a distance or a time. *)
Theorem no_route_fails_every_agent (origin destination : string)
    (n_agents : nat) (s : rng) (a : Agent) (e : PyExc) :
  shortest_path graph origin destination = Raise e ->
  a ∈ fst (_run_scenario_agents graph signage_locations landmarks
                                origin destination n_agents s) ->
  success a = false /\ path a = None /\ errors a = 0%nat /\
  distance_traveled a = 0 /\ time_elapsed a = 0.
Proof.
  intros Hsp Ha.
  apply (agents_satisfy
    (fun a => success a = false /\ path a = None /\ errors a = 0%nat /\
              distance_traveled a = 0 /\ time_elapsed a = 0)
    origin destination n_agents s a); [|exact Ha].
  intros i t.
  eapply ensures_mono; [apply journey_spec|].
  cbn beta. intros b (_ & _ & Hb). rewrite (Hb e Hsp). repeat split.
Qed.

End Journey.

End AgentSim_journey_properties.

(** ** The agent-based simulator: statistics *)

Section AgentSim_statistics_properties.
Import Py AgentSim.
Local Open Scope Q_scope.

Lemma qnat_le (a b : nat) : (a <= b)%nat -> qnat a <= qnat b.
Proof. intros Hab. unfold qnat. rewrite <- Zle_Qle. lia. Qed.

Lemma qnat_pos (n : nat) : (0 < n)%nat -> 0 < qnat n.
Proof.
  intros Hn. unfold qnat. change 0 with (inject_Z 0). rewrite <- Zlt_Qlt. lia.
Qed.

Lemma Qsum_map_le {A : Type} (f g : A -> Q) (l : list A) :
  Forall (fun x => f x <= g x) l -> Qsum (map f l) <= Qsum (map g l).
Proof.
  induction 1 as [|x l Hx Hl IH]; cbn [map Qsum fold_right].
  - lra.
  - fold (Qsum (map f l)). fold (Qsum (map g l)). lra.
Qed.

Lemma np_mean_map_le {A : Type} (f g : A -> Q) (l : list A) :
  l <> [] ->
  Forall (fun x => f x <= g x) l ->
  WES.np_mean (map f l) <= WES.np_mean (map g l).
Proof.
  intros Hne Hfg. unfold WES.np_mean. rewrite !length_map.
  apply Qdiv_mono; [|apply Qsum_map_le, Hfg].
  apply (qnat_pos (length l)). destruct l; [contradiction | cbn; lia].
Qed.

Lemma length_filter_and {A : Type} (P Q : A -> Prop)
    `{forall x, Decision (P x)} `{forall x, Decision (Q x)} (l : list A) :
  (length (filter (fun x => P x /\ Q x) l) <= length (filter P l))%nat.
Proof.
  induction l as [|x l IH]; [reflexivity|].
  rewrite !filter_cons.
  destruct (decide (P x /\ Q x)) as [[HP _]|Hn].
  - rewrite decide_True by exact HP. cbn. lia.
  - destruct (decide (P x)); cbn; lia.
Qed.

(** The statistics of a non-empty list of agents. *)
Lemma aggregate_bounds (agents : list Agent) :
  agents <> [] ->
  Forall (fun a => (hesitations a <= 1)%nat /\ (hesitations a <= errors a)%nat)
         agents ->
  exists st,
    _aggregate_scenario_results agents = Some st /\
    n_agents st = length agents /\
    0 <= first_pass_success st <= success_rate st /\
    success_rate st <= 1 /\
    0 <= mean_hesitations st <= 1 /\
    mean_hesitations st <= mean_errors st.
Proof.
  intros Hne Hall. unfold _aggregate_scenario_results.
  destruct agents as [|a0 agents0] eqn:E; [contradiction|]. rewrite <- E in *.
  assert (Hn : 0 < qnat (length agents))
    by (apply qnat_pos; rewrite E; cbn; lia).
  eexists. split; [reflexivity|].
  cbn [n_agents first_pass_success success_rate mean_hesitations mean_errors].
  split; [reflexivity|]. split; [split|split; [|split]].
  - apply Qle_shift_div_l; [exact Hn|]. rewrite Qmult_0_l.
    apply (qnat_le 0). lia.
  - apply Qdiv_mono; [exact Hn|]. apply qnat_le.
    apply (length_filter_and (fun a => success a = true)
                             (fun a => errors a = 0%nat)).
  - apply Qle_shift_div_r; [exact Hn|]. rewrite Qmult_1_l.
    apply qnat_le, length_filter.
  - apply np_mean_bounds.
    + rewrite E. discriminate.
    + intros x Hx. apply list_elem_of_fmap in Hx as (a & -> & Ha).
      pose proof (proj1 (Forall_forall _ _) Hall a Ha) as [H1 _]. split.
      * apply (qnat_le 0). lia.
      * apply (qnat_le _ 1), H1.
  - apply np_mean_map_le; [exact Hne|].
    eapply Forall_impl; [exact Hall|].
    cbn beta. intros a [_ H2]. apply qnat_le, H2.
Qed.

Section Statistics.
Context `{RandomState}.
Variable graph : Graph.
Variable signage_locations : list string.
Variable landmarks : list string.

Lemma run_scenario_fst (origin destination : string) (n : nat) (s : rng) :
  fst (_run_scenario graph signage_locations landmarks origin destination n s)
  = _aggregate_scenario_results
      (fst (_run_scenario_agents graph signage_locations landmarks
                                 origin destination n s)).
Proof.
  unfold _run_scenario, mbind, Rand_bind.
  destruct (_run_scenario_agents _ _ _ _ _ _ s) as [agents s']. reflexivity.
Qed.

(** X25: a scenario with at least one agent returns statistics: the
    number of agents is the one asked for, the two success rates are ordered
    fractions, and the mean number of hesitations is at most 1 and at most the
    mean number of errors. *)
Theorem scenario_statistics_bounds (origin destination : string) (n : nat)
    (s : rng) :
  (0 < n)%nat ->
  exists st,
    fst (_run_scenario graph signage_locations landmarks origin destination n s)
    = Some st /\
    n_agents st = n /\
    0 <= first_pass_success st <= success_rate st /\
    success_rate st <= 1 /\
    0 <= mean_hesitations st <= 1 /\
    mean_hesitations st <= mean_errors st.
Proof.
  intros Hn. rewrite run_scenario_fst.
  pose proof (run_agents_length graph signage_locations landmarks
                origin destination n 0%nat s) as Hlen.
  cbn beta in Hlen. fold (_run_scenario_agents graph signage_locations landmarks
                            origin destination n) in Hlen.
  destruct (aggregate_bounds
              (fst (_run_scenario_agents graph signage_locations landmarks
                      origin destination n s))) as (st & Hst & Hna & Hb).
  - intros Hnil. rewrite Hnil in Hlen. cbn in Hlen. lia.
  - apply Forall_forall. intros a Ha.
    apply (agents_satisfy graph signage_locations landmarks
             (fun a => (hesitations a <= 1)%nat /\ (hesitations a <= errors a)%nat)
             origin destination n s a); [|exact Ha].
    intros i t. eapply ensures_mono; [apply journey_spec|].
    cbn. intros b ((_ & _ & Hh & He) & _). lia.
  - exists st. split; [exact Hst|]. split; [congruence | exact Hb].
Qed.

End Statistics.

End AgentSim_statistics_properties.

(** ** The agent-based simulator: a whole simulation *)

Section AgentSim_simulation_properties.
Import Py AgentSim.
Local Open Scope Q_scope.

Lemma py_max_key_spec {A : Type} (key : A -> Q) (l : list A) :
  match py_max_key key l with
  | Ok b => b ∈ l /\ Forall (fun x => key x <= key b) l
  | Raise e => l = [] /\ e = ValueError
  end.
Proof.
  destruct l as [|x l]; cbn [py_max_key]; [split; reflexivity|].
  assert (Hgen : forall l best,
            let b := fold_left (fun best y =>
                       if Qlt_bool (key best) (key y) then y else best) l best in
            (b = best \/ b ∈ l) /\ key best <= key b /\
            Forall (fun x => key x <= key b) l).
  { clear. induction l as [|y l IH]; intros best; cbn [fold_left].
    - split; [left; reflexivity|]. split; [lra | constructor].
    - destruct (Qlt_bool (key best) (key y)) eqn:E.
      + apply Qlt_bool_iff in E.
        destruct (IH y) as (Hin & Hle & Hall). split; [|split].
        * right. destruct Hin as [->|Hin];
            [apply list_elem_of_here | apply list_elem_of_further, Hin].
        * lra.
        * constructor; assumption.
      + apply Qlt_bool_false_iff in E.
        destruct (IH best) as (Hin & Hle & Hall). split; [|split].
        * destruct Hin as [->|Hin]; [left; reflexivity|].
          right. apply list_elem_of_further, Hin.
        * exact Hle.
        * constructor; [lra | exact Hall]. }
  destruct (Hgen l x) as (Hin & Hle & Hall). split.
  - destruct Hin as [->|Hin];
      [apply list_elem_of_here | apply list_elem_of_further, Hin].
  - constructor; assumption.
Qed.

Lemma py_min_key_spec {A : Type} (key : A -> Q) (l : list A) :
  match py_min_key key l with
  | Ok b => b ∈ l /\ Forall (fun x => key b <= key x) l
  | Raise e => l = [] /\ e = ValueError
  end.
Proof.
  destruct l as [|x l]; cbn [py_min_key]; [split; reflexivity|].
  assert (Hgen : forall l best,
            let b := fold_left (fun best y =>
                       if Qlt_bool (key y) (key best) then y else best) l best in
            (b = best \/ b ∈ l) /\ key b <= key best /\
            Forall (fun x => key b <= key x) l).
  { clear. induction l as [|y l IH]; intros best; cbn [fold_left].
    - split; [left; reflexivity|]. split; [lra | constructor].
    - destruct (Qlt_bool (key y) (key best)) eqn:E.
      + apply Qlt_bool_iff in E.
        destruct (IH y) as (Hin & Hle & Hall). split; [|split].
        * right. destruct Hin as [->|Hin];
            [apply list_elem_of_here | apply list_elem_of_further, Hin].
        * lra.
        * constructor; assumption.
      + apply Qlt_bool_false_iff in E.
        destruct (IH best) as (Hin & Hle & Hall). split; [|split].
        * destruct Hin as [->|Hin]; [left; reflexivity|].
          right. apply list_elem_of_further, Hin.
        * exact Hle.
        * constructor; [lra | exact Hall]. }
  destruct (Hgen l x) as (Hin & Hle & Hall). split.
  - destruct Hin as [->|Hin];
      [apply list_elem_of_here | apply list_elem_of_further, Hin].
  - constructor; assumption.
Qed.

(** X26: the overall statistics name a scenario of highest and one of
    lowest success rate, the overall success rate lies between the two, and
    an empty list of results raises [ValueError]. *)
Theorem overall_stats_best_and_worst (all_results : list ScenarioResult) :
  match _calculate_overall_stats all_results with
  | Raise e => all_results = [] /\ e = ValueError
  | Ok o =>
      exists best worst,
        best ∈ all_results /\ worst ∈ all_results /\
        best_scenario o = scenario best /\
        worst_scenario o = scenario worst /\
        Forall (fun r => get success_rate 0 worst <= get success_rate 0 r
                         <= get success_rate 0 best) all_results /\
        get success_rate 0 worst <= overall_success_rate o
        <= get success_rate 0 best
  end.
Proof.
  unfold _calculate_overall_stats.
  pose proof (py_max_key_spec (get success_rate 0) all_results) as Hmax.
  pose proof (py_min_key_spec (get success_rate 0) all_results) as Hmin.
  destruct (py_max_key (get success_rate 0) all_results) as [best|e];
    cbn [mbind result_bind]; [|exact Hmax].
  destruct (py_min_key (get success_rate 0) all_results) as [worst|e];
    cbn [mbind result_bind mret result_ret].
  2:{ destruct Hmin as [-> _]. destruct Hmax as [Hin _].
      exfalso. eapply not_elem_of_nil, Hin. }
  destruct Hmax as [Hbin Hmax], Hmin as [Hwin Hmin].
  exists best, worst. cbn [best_scenario worst_scenario overall_success_rate].
  split; [exact Hbin|]. split; [exact Hwin|].
  split; [reflexivity|]. split; [reflexivity|]. split.
  - apply Forall_forall. intros r Hr. split.
    + exact (proj1 (Forall_forall _ _) Hmin r Hr).
    + exact (proj1 (Forall_forall _ _) Hmax r Hr).
  - apply np_mean_bounds.
    + intros Hnil. apply fmap_nil_inv in Hnil. subst all_results.
      eapply not_elem_of_nil, Hbin.
    + intros x Hx. apply list_elem_of_fmap in Hx as (r & -> & Hr). split.
      * exact (proj1 (Forall_forall _ _) Hmin r Hr).
      * exact (proj1 (Forall_forall _ _) Hmax r Hr).
Qed.


(** *** Recommendations *)

Lemma filter_nil_Forall {A : Type} (f : A -> bool) (l : list A) :
  List.filter f l = [] <-> Forall (fun x => f x = false) l.
Proof.
  induction l as [|x l IH]; cbn [List.filter].
  - split; [constructor | reflexivity].
  - destruct (f x) eqn:E.
    + split; [discriminate|]. intros HF. inversion HF; congruence.
    + rewrite IH. split.
      * intros HF. constructor; assumption.
      * intros HF. inversion HF; assumption.
Qed.

(** The three lists of flagged scenarios are empty exactly when the only
    recommendation is the one that reports none. *)
Lemma recommendations_none_iff (all_results : list ScenarioResult) :
  _generate_recommendations all_results = [no_critical_recommendation] <->
  Forall (fun r => 0.7 <= get success_rate 1 r /\
                   get mean_time 0 r <= 180 /\
                   get mean_errors 0 r <= 1.5) all_results.
Proof.
  unfold _generate_recommendations.
  pose proof (filter_nil_Forall
    (fun r => Qlt_bool (get success_rate 1 r) 0.7) all_results) as H1.
  pose proof (filter_nil_Forall
    (fun r => Qlt_bool 180 (get mean_time 0 r)) all_results) as H2.
  pose proof (filter_nil_Forall
    (fun r => Qlt_bool 1.5 (get mean_errors 0 r)) all_results) as H3.
  split.
  - intros Hrec.
    destruct (List.filter _ all_results) as [|r1 l1] in H1, Hrec.
    2:{ exfalso. cbn in Hrec.
        destruct (List.filter _ all_results) in Hrec;
          destruct (List.filter _ all_results) in Hrec;
          cbn in Hrec; discriminate Hrec. }
    destruct (List.filter _ all_results) as [|r2 l2] in H2, Hrec.
    2:{ exfalso. cbn in Hrec.
        destruct (List.filter _ all_results) in Hrec;
          cbn in Hrec; discriminate Hrec. }
    destruct (List.filter _ all_results) as [|r3 l3] in H3, Hrec.
    2:{ exfalso. cbn in Hrec. discriminate Hrec. }
    pose proof (proj1 H1 eq_refl) as F1.
    pose proof (proj1 H2 eq_refl) as F2.
    pose proof (proj1 H3 eq_refl) as F3.
    apply Forall_forall. intros r Hr.
    pose proof (proj1 (Forall_forall _ _) F1 r Hr) as G1.
    pose proof (proj1 (Forall_forall _ _) F2 r Hr) as G2.
    pose proof (proj1 (Forall_forall _ _) F3 r Hr) as G3.
    cbn beta in G1, G2, G3.
    apply Qlt_bool_false_iff in G1, G2, G3. repeat split; assumption.
  - intros Hall.
    rewrite (proj2 H1), (proj2 H2), (proj2 H3); [reflexivity|..];
      (eapply Forall_impl; [exact Hall|]); cbn beta;
      intros r (G1 & G2 & G3); apply Qlt_bool_false_iff; assumption.
Qed.

(** There are between one and three recommendations. *)
Lemma recommendations_count (all_results : list ScenarioResult) :
  (1 <= length (_generate_recommendations all_results) <= 3)%nat.
Proof.
  unfold _generate_recommendations.
  destruct (List.filter _ all_results);
    destruct (List.filter _ all_results);
    destruct (List.filter _ all_results); cbn; lia.
Qed.

(** *** [simulate] *)

Lemma overall_stats_Ok (all_results : list ScenarioResult) :
  all_results <> [] ->
  exists o,
    _calculate_overall_stats all_results = Ok o /\
    overall_success_rate o = WES.np_mean (map (get success_rate 0) all_results).
Proof.
  intros Hne. destruct all_results as [|r rs]; [contradiction|].
  eexists. split; reflexivity.
Qed.

Section Simulation.
Context `{RandomState}.
Variable graph : Graph.

Lemma run_scenarios_spec (signage_locations landmarks : list string)
    (scs : list Scenario) (n : nat) :
  ensures (run_scenarios graph signage_locations landmarks scs n)
    (fun rs =>
       map (fun r => (origin r, destination r)) rs
       = map (fun sc => (sc_origin sc, sc_destination sc)) scs /\
       (n = 0%nat -> Forall (fun r => stats r = None) rs)).
Proof.
  induction scs as [|sc scs IH]; cbn [run_scenarios].
  - apply ensures_ret. split; [reflexivity | constructor].
  - eapply (ensures_bind _ _ (fun st => n = 0%nat -> st = None)).
    + intros s Hn. subst n. rewrite run_scenario_fst. reflexivity.
    + intros st Hst.
      eapply ensures_bind; [apply IH|]. intros rs [Hmap Hnone].
      apply ensures_ret. split.
      * cbn [map origin destination]. rewrite Hmap. reflexivity.
      * intros Hn. constructor; [apply Hst, Hn | apply Hnone, Hn].
Qed.

Lemma simulate_fst (scs : list Scenario) (n : nat)
    (signage_locations landmarks : option (list string)) (s : rng) :
  fst (simulate graph scs n signage_locations landmarks s)
  = let all_results :=
      fst (run_scenarios graph (default [] signage_locations)
                         (default [] landmarks) scs n s) in
    overall_stats ← _calculate_overall_stats all_results;
    mret (mkSimulation all_results overall_stats
                       (_generate_recommendations all_results)).
Proof.
  unfold simulate. unfold mbind at 1. unfold Rand_bind.
  destruct (run_scenarios _ _ _ scs n s) as [all_results s']. reflexivity.
Qed.

(** X27: [simulate] raises [ValueError] when it is given no scenario;
    given at least one it returns one result for every scenario, in their
    order. *)
Theorem simulate_needs_a_scenario (scs : list Scenario) (n : nat)
    (signage_locations landmarks : option (list string)) (s : rng) :
  match scs with
  | [] => fst (simulate graph scs n signage_locations landmarks s)
          = Raise ValueError
  | _ => exists r,
      fst (simulate graph scs n signage_locations landmarks s) = Ok r /\
      map (fun x => (origin x, destination x)) (scenarios r)
      = map (fun sc => (sc_origin sc, sc_destination sc)) scs
  end.
Proof.
  rewrite simulate_fst.
  destruct (run_scenarios_spec (default [] signage_locations)
              (default [] landmarks) scs n s) as [Hmap _].
  destruct scs as [|sc scs].
  - cbn zeta. destruct (fst _) as [|r rs]; [reflexivity | discriminate Hmap].
  - cbn zeta.
    destruct (overall_stats_Ok
                (fst (run_scenarios graph (default [] signage_locations)
                        (default [] landmarks) (sc :: scs) n s)))
      as (o & Ho & _).
    { intros Hnil. rewrite Hnil in Hmap. discriminate Hmap. }
    rewrite Ho. eexists. split; [reflexivity | exact Hmap].
Qed.

(** X28: a simulation with no agent per scenario returns an overall
    success rate of 0 together with the report that performance is good: the
    missing success rate counts as 0 in the overall statistics and as 1 in
    the recommendations. *)
Theorem simulation_without_agents (scs : list Scenario)
    (signage_locations landmarks : option (list string)) (s : rng) :
  scs <> [] ->
  exists r,
    fst (simulate graph scs 0 signage_locations landmarks s) = Ok r /\
    Forall (fun x => stats x = None) (scenarios r) /\
    overall_success_rate (overall r) == 0 /\
    recommendations r = [no_critical_recommendation].
Proof.
  intros Hne. rewrite simulate_fst. cbn zeta.
  destruct (run_scenarios_spec (default [] signage_locations)
              (default [] landmarks) scs 0 s) as [Hmap Hnone].
  specialize (Hnone eq_refl).
  set (all_results := fst (run_scenarios graph (default [] signage_locations)
                             (default [] landmarks) scs 0 s)) in *.
  assert (Hall : all_results <> []).
  { intros Hnil. rewrite Hnil in Hmap. destruct scs; [contradiction|].
    discriminate Hmap. }
  destruct (overall_stats_Ok all_results Hall) as (o & Ho & Hrate).
  rewrite Ho. eexists. split; [reflexivity|].
  cbn [scenarios overall recommendations]. split; [exact Hnone|]. split.
  - rewrite Hrate.
    assert (Hb : 0 <= WES.np_mean (map (get success_rate 0) all_results) <= 0).
    { apply np_mean_bounds.
      - intros Hnil. apply fmap_nil_inv in Hnil. contradiction.
      - intros x Hx. apply list_elem_of_fmap in Hx as (r & -> & Hr).
        pose proof (proj1 (Forall_forall _ _) Hnone r Hr) as Hst.
        unfold get. cbn beta in Hst. rewrite Hst. lra. }
    lra.
  - apply recommendations_none_iff.
    eapply Forall_impl; [exact Hnone|]. cbn beta. intros r Hst.
    unfold get. rewrite Hst. repeat split; vm_compute; discriminate.
Qed.

End Simulation.

End AgentSim_simulation_properties.

(** ** The agent-based simulator: runs on the entrance route *)

Section AgentSim_examples.
Import Py AgentSim.
Local Open Scope Q_scope.
Local Open Scope string_scope.


Lemma agents_hesitate_at_most_once_witness :
  exists a,
    a ∈ fst (_run_scenario_agents (H := draw_stream) SpaceSyntax.entrance_route
               [] [] "entrance" "emergency" 1 (seeded 5)) /\
    errors a = 2%nat /\
    (hesitations a <= 1)%nat /\ (hesitations a <= errors a)%nat.
Proof.
  pose (agents := fst (_run_scenario_agents (H := draw_stream)
                         SpaceSyntax.entrance_route
                         [] [] "entrance" "emergency" 1 (seeded 5))).
  assert (Hin : hd (mkAgent 0 FAMILIAR None 0 0 0 0 0 false) agents ∈ agents)
    by (vm_compute; apply list_elem_of_here).
  exists (hd (mkAgent 0 FAMILIAR None 0 0 0 0 0 false) agents).
  split; [exact Hin|]. split; [vm_compute; reflexivity|].
  exact (agents_hesitate_at_most_once (H := draw_stream)
           SpaceSyntax.entrance_route [] [] "entrance" "emergency" 1
           (seeded 5) _ Hin).
Defined.

Lemma unhesitating_agent_walks_shortest_path_witness :
  exists a,
    a ∈ fst (_run_scenario_agents (H := draw_stream) SpaceSyntax.entrance_route
               [] [] "entrance" "emergency" 1 (seeded 5)) /\
    errors a = 2%nat /\
    path a = Some ["entrance"; "node_1"; "emergency"] /\ success a = true /\
    distance_traveled a
    = _calculate_path_length SpaceSyntax.entrance_route
        ["entrance"; "node_1"; "emergency"] /\
    time_elapsed a
    = _estimate_travel_time SpaceSyntax.entrance_route a
        ["entrance"; "node_1"; "emergency"].
Proof.
  pose (agents := fst (_run_scenario_agents (H := draw_stream)
                         SpaceSyntax.entrance_route
                         [] [] "entrance" "emergency" 1 (seeded 5))).
  assert (Hin : hd (mkAgent 0 FAMILIAR None 0 0 0 0 0 false) agents ∈ agents)
    by (vm_compute; apply list_elem_of_here).
  exists (hd (mkAgent 0 FAMILIAR None 0 0 0 0 0 false) agents).
  split; [exact Hin|]. split; [vm_compute; reflexivity|].
  apply (unhesitating_agent_walks_shortest_path (H := draw_stream)
           SpaceSyntax.entrance_route [] [] "entrance" "emergency" 1
           (seeded 5)).
  - vm_compute. reflexivity.
  - exact Hin.
  - vm_compute. reflexivity.
Defined.

Lemma no_route_fails_every_agent_witness :
  exists a,
    a ∈ fst (_run_scenario_agents (H := draw_stream) SpaceSyntax.entrance_route
               [] [] "entrance" "nowhere" 1 (seeded 0)) /\
    success a = false /\ path a = None /\ errors a = 0%nat /\
    distance_traveled a = 0%Q /\ time_elapsed a = 0%Q.
Proof.
  pose (agents := fst (_run_scenario_agents (H := draw_stream)
                         SpaceSyntax.entrance_route
                         [] [] "entrance" "nowhere" 1 (seeded 0))).
  assert (Hin : hd (mkAgent 0 FAMILIAR None 0 0 0 0 0 false) agents ∈ agents)
    by (vm_compute; apply list_elem_of_here).
  exists (hd (mkAgent 0 FAMILIAR None 0 0 0 0 0 false) agents).
  split; [exact Hin|].
  apply (no_route_fails_every_agent (H := draw_stream)
           SpaceSyntax.entrance_route [] [] "entrance" "nowhere" 1
           (seeded 0) _ NodeNotFound).
  - vm_compute. reflexivity.
  - exact Hin.
Defined.

Lemma scenario_statistics_bounds_witness :
  exists st,
    fst (_run_scenario (H := draw_stream) SpaceSyntax.entrance_route [] []
                       "entrance" "emergency" 2 (seeded 0)) = Some st /\
    n_agents st = 2%nat /\
    (0 <= first_pass_success st <= success_rate st)%Q /\
    (success_rate st <= 1)%Q /\
    (0 <= mean_hesitations st <= 1)%Q /\
    (mean_hesitations st <= mean_errors st)%Q.
Proof.
  apply (scenario_statistics_bounds (H := draw_stream)
           SpaceSyntax.entrance_route [] [] "entrance" "emergency" 2 (seeded 0)).
  lia.
Defined.

Lemma simulation_without_agents_witness :
  exists r,
    fst (simulate (H := draw_stream) SpaceSyntax.entrance_route
                  [mkScenario "entrance" "emergency" None] 0 None None
                  (seeded 0)) = Ok r /\
    Forall (fun x => stats x = None) (scenarios r) /\
    (overall_success_rate (overall r) == 0)%Q /\
    recommendations r = [no_critical_recommendation].
Proof.
  apply (simulation_without_agents (H := draw_stream)
           SpaceSyntax.entrance_route
           [mkScenario "entrance" "emergency" None] None None (seeded 0)).
  discriminate.
Defined.

End AgentSim_examples.

(** ** Depth and control measures *)

Section SpaceSyntaxMeasures_properties.
Import AgentSim SpaceSyntaxMeasures.
Local Open Scope Q_scope.

Lemma neighbors_inv (g : Graph) (v u : string) :
  u ∈ neighbors g v -> exists w, (v, u, w) ∈ edges g \/ (u, v, w) ∈ edges g.
Proof.
  unfold neighbors. rewrite elem_of_nub, list_elem_of_omap.
  intros ([[a b] w] & He & Hf). exists w. cbn in Hf.
  destruct (decide (a = v)) as [->|Hne].
  - injection Hf as ->. left. exact He.
  - destruct (decide (b = v)) as [->|]; [|discriminate].
    injection Hf as ->. right. exact He.
Qed.

Lemma neighbors_sym (g : Graph) (v u : string) :
  u ∈ neighbors g v -> v ∈ neighbors g u.
Proof.
  intros Hu. destruct (neighbors_inv g v u Hu) as [w [He|He]];
    apply edge_neighbors in He; tauto.
Qed.

Lemma neighbor_degree_pos (g : Graph) (v u : string) :
  u ∈ neighbors g v -> (0 <? degree g u)%nat = true.
Proof.
  intros Hu. apply neighbors_sym in Hu. apply Nat.ltb_lt. unfold degree.
  destruct (neighbors g u); [exfalso; eapply not_elem_of_nil, Hu|]. cbn. lia.
Qed.

Lemma fold_left_Qplus (l : list Q) (a : Q) : fold_left Qplus l a == a + Qsum l.
Proof.
  revert a. induction l as [|x l IH]; intros a; cbn [fold_left Qsum fold_right].
  - ring.
  - rewrite IH. fold (Qsum l). ring.
Qed.

Lemma control_fold (g : Graph) (l : list string) (a : Q) :
  Forall (fun u => (0 <? degree g u)%nat = true) l ->
  fold_left (fun control_value neighbor =>
               if (0 <? degree g neighbor)%nat
               then control_value + 1 / qnat (degree g neighbor)
               else control_value) l a
  == a + Qsum (map (fun u => 1 / qnat (degree g u)) l).
Proof.
  intros Hl. revert a.
  induction Hl as [|u l Hu Hl IH]; intros a;
    cbn [fold_left map Qsum fold_right].
  - ring.
  - rewrite Hu, IH. fold (Qsum (map (fun u => 1 / qnat (degree g u)) l)). ring.
Qed.

Lemma filter_all {A : Type} (f : A -> bool) (l : list A) :
  Forall (fun x => f x = true) l -> List.filter f l = l.
Proof.
  induction 1 as [|x l Hx Hl IH]; cbn [List.filter]; [reflexivity|].
  rewrite Hx, IH. reflexivity.
Qed.

Lemma neighbors_degrees_pos (g : Graph) (node : string) :
  Forall (fun u => (0 <? degree g u)%nat = true) (neighbors g node).
Proof.
  apply Forall_forall. intros u Hu. eapply neighbor_degree_pos, Hu.
Qed.

Lemma control_of_node_sum (g : Graph) (node : string) :
  control_of_node g node
  == Qsum (map (fun u => 1 / qnat (degree g u)) (neighbors g node)).
Proof.
  unfold control_of_node. cbn zeta.
  rewrite control_fold by apply neighbors_degrees_pos. ring.
Qed.

Lemma inverse_degree_range (g : Graph) (node : string) (x : Q) :
  x ∈ map (fun u => 1 / qnat (degree g u)) (neighbors g node) ->
  0 <= x <= 1.
Proof.
  intros Hx. apply list_elem_of_fmap in Hx as (u & -> & Hu).
  apply neighbor_degree_pos, Nat.ltb_lt in Hu.
  assert (H1 : 1 <= qnat (degree g u)) by (apply (qnat_le 1); lia).
  split.
  - apply Qle_shift_div_l; lra.
  - apply Qle_shift_div_r; lra.
Qed.

(** X29: the controllability of a node is its control divided by the
    number of its neighbours, and lies between 0 and 1; the test on the
    degree of a neighbour never fails. *)
Theorem controllability_is_mean_control (g : Graph) (node : string) :
  0 <= controllability_of_node g node <= 1 /\
  controllability_of_node g node * qnat (length (neighbors g node))
  == control_of_node g node /\
  Forall (fun u => (0 < degree g u)%nat) (neighbors g node).
Proof.
  assert (Hdeg : Forall (fun u => (0 < degree g u)%nat) (neighbors g node)).
  { eapply Forall_impl; [apply neighbors_degrees_pos|].
    cbn beta. intros u Hu. apply Nat.ltb_lt, Hu. }
  rewrite control_of_node_sum. unfold controllability_of_node. cbn zeta.
  rewrite filter_all by apply neighbors_degrees_pos.
  set (inv := map (fun u => 1 / qnat (degree g u)) (neighbors g node)).
  assert (Hlen : length inv = length (neighbors g node))
    by apply length_map.
  destruct (0 <? length (neighbors g node))%nat eqn:En.
  - apply Nat.ltb_lt in En.
    assert (Hn : 0 < qnat (length (neighbors g node))) by apply qnat_pos, En.
    pose proof (Qsum_bounds inv 0 1 (inverse_degree_range g node)) as [S1 S2].
    rewrite Hlen in S1, S2. fold (qnat (length (neighbors g node))) in S1, S2.
    rewrite fold_left_Qplus.
    split; [split|split; [|exact Hdeg]].
    + apply Qle_shift_div_l; [exact Hn|]. lra.
    + apply Qle_shift_div_r; [exact Hn|]. lra.
    + field. lra.
  - apply Nat.ltb_ge in En.
    assert (Hnil : neighbors g node = []) by (destruct (neighbors g node); [reflexivity | cbn in En; lia]).
    split; [lra|]. split; [|exact Hdeg].
    unfold inv. rewrite Hnil. cbn. lra.
Qed.

(** *** Depth *)

(** X30: with two entrances, the average depth stored for a node of
    the graph reached from both is (2 d1 + d2) / 3, where d1 and d2 are its
    depths from the first and from the second entrance: the average of the
    first round is averaged again in the second. *)
Theorem average_depth_two_entrances (g : Graph) (e1 e2 node : string)
    (d1 d2 : Q) :
  _identify_entrances g = [e1; e2] ->
  node ∈ nodes g ->
  SpaceSyntax.path_lengths false g e1 !! node = Some d1 ->
  SpaceSyntax.path_lengths false g e2 !! node = Some d2 ->
  exists en a,
    _calculate_depth g node = Some en /\
    average en = Some a /\
    a == (2 * d1 + d2) / 3.
Proof.
  intros He Hin H1 H2. unfold _calculate_depth. rewrite He.
  cbn [foldl]. unfold depth_round at 2. rewrite H1.
  rewrite (bool_decide_eq_true_2 _ Hin). cbn [default from_entrance average dict_set].
  unfold depth_round. rewrite H2, (bool_decide_eq_true_2 _ Hin).
  cbn [default from_entrance average dict_set].
  destruct (decide (e1 = e2)) as [Heq|Hne].
  - subst e2. assert (d1 = d2) as -> by congruence.
    eexists. eexists. split; [reflexivity|]. split; [reflexivity|].
    unfold WES.np_mean. cbn. rewrite !decide_True by reflexivity. cbn. field.
  - eexists. eexists. split; [reflexivity|]. split; [reflexivity|].
    unfold WES.np_mean. cbn. rewrite !decide_False by exact Hne. cbn. field.
Qed.

End SpaceSyntaxMeasures_properties.

Section SpaceSyntaxMeasures_examples.
Import AgentSim SpaceSyntaxMeasures.
Local Open Scope string_scope.

Lemma average_depth_two_entrances_witness :
  exists en a,
    _calculate_depth two_rooms "hall" = Some en /\
    average en = Some a /\
    (a == (2 * 0 + 1) / 3)%Q.
Proof.
  apply (average_depth_two_entrances two_rooms "hall" "ward" "hall" 0 1).
  - vm_compute. reflexivity.
  - apply list_elem_of_here.
  - vm_compute. reflexivity.
  - vm_compute. reflexivity.
Defined.

End SpaceSyntaxMeasures_examples.
